(** * Genealogy export (tools/wikidata.py): a shallow embedding

    The script resolves people through a SPARQL endpoint, collects the
    ancestors and descendants of a root person that were alive on the
    cutoff date, completes the patriline, and prints one character block
    per person, parents first.

    Conventions of the embedding.
    - A Python [str] is a Rocq [string]; the characters are 7-bit, so that
      [unicodedata.normalize("NFKD", _)] is the identity, no character is
      combining, and [str.lower], [str.strip], [\d] and [\s] are the ASCII
      ones.
    - A Python exception is the result [Raise e]; a [try] whose handler
      is [except Exception] is a match on the result of its body. A
      recursion that never returns is the result [OutOfFuel] of a function
      that takes fuel; CPython ends such a recursion with [RecursionError]
      when its recursion limit is reached, and the embedding has no such
      limit.
    - The closures of [emit_person_with_ancestors_and_descendants] share
      dictionaries and sets; they are the fields of one [State] that every
      closure threads.
    - The endpoint, and [datetime.strptime], are external: they are the
      fields of the class [Externals]. *)

From Stdlib Require Import ZArith Ascii String List Lia Bool.
From stdpp Require Import base option list gmap strings sorting pretty.

Local Open Scope string_scope.
Local Open Scope list_scope.

(** ** Results of fallible code *)

Inductive exn :=
| ValueError (msg : string)
| AttributeError
| TypeError
| KeyError
| IndexError
| OtherError (name : string).

Inductive res (A : Type) :=
| Ok (a : A)
| Raise (e : exn)
| OutOfFuel.
Arguments Ok {A} a.
Arguments Raise {A} e.
Arguments OutOfFuel {A}.

Definition res_bind {A B} (m : res A) (f : A → res B) : res B :=
  match m with
  | Ok a => f a
  | Raise e => Raise e
  | OutOfFuel => OutOfFuel
  end.

(** ** Python strings *)

Module PyStr.

Definition is_space (c : ascii) : bool :=
  let n := nat_of_ascii c in
  ((9 <=? n) && (n <=? 13) || (28 <=? n) && (n <=? 32))%nat.

Definition is_digit (c : ascii) : bool :=
  let n := nat_of_ascii c in ((48 <=? n) && (n <=? 57))%nat.

Definition is_lower_alnum (c : ascii) : bool :=
  let n := nat_of_ascii c in
  is_digit c || ((97 <=? n) && (n <=? 122))%nat.

Definition lower_char (c : ascii) : ascii :=
  let n := nat_of_ascii c in
  if ((65 <=? n) && (n <=? 90))%nat then ascii_of_nat (n + 32) else c.

Fixpoint lower (s : string) : string :=
  match s with
  | EmptyString => EmptyString
  | String c s' => String (lower_char c) (lower s')
  end.

Fixpoint lstrip_by (p : ascii → bool) (s : string) : string :=
  match s with
  | EmptyString => EmptyString
  | String c s' => if p c then lstrip_by p s' else s
  end.

Fixpoint rstrip_by (p : ascii → bool) (s : string) : string :=
  match s with
  | EmptyString => EmptyString
  | String c s' =>
      match rstrip_by p s' with
      | EmptyString => if p c then EmptyString else String c EmptyString
      | t => String c t
      end
  end.

Definition strip_by (p : ascii → bool) (s : string) : string :=
  rstrip_by p (lstrip_by p s).

(** [s.strip()] *)
Definition strip : string → string := strip_by is_space.

(** [s.startswith(p)] *)
Definition startswith (p s : string) : bool := String.prefix p s.

(** [s.rsplit(sep, 1)[-1]]: what follows the last [sep], or all of [s]. *)
Fixpoint rsplit_last (sep : ascii) (s : string) : string :=
  match s with
  | EmptyString => EmptyString
  | String c s' =>
      if existsb (Ascii.eqb sep) (list_ascii_of_string s') then rsplit_last sep s'
      else if Ascii.eqb sep c then s' else s
  end.

Fixpoint all_chars (p : ascii → bool) (s : string) : bool :=
  match s with
  | EmptyString => true
  | String c s' => p c && all_chars p s'
  end.

(** [s[:n]] *)
Definition take (n : nat) (s : string) : string := String.substring 0 n s.

(** ["\n".join(l)] and friends *)
Definition join (sep : string) (l : list string) : string := String.concat sep l.

Definition is_empty (s : string) : bool :=
  match s with EmptyString => true | _ => false end.

(** The pieces of [s] between maximal runs of characters satisfying [p];
    like [re.split] it yields an empty piece at either end when [s] starts
    or ends with such a run. [cur] is the piece being read, reversed. *)
Fixpoint split_runs (p : ascii → bool) (cur : list ascii) (in_run : bool) (s : string)
  : list string :=
  match s with
  | EmptyString => [string_of_list_ascii (rev cur)]
  | String c s' =>
      if p c then
        if in_run then split_runs p cur true s'
        else string_of_list_ascii (rev cur) :: split_runs p [] true s'
      else split_runs p (c :: cur) false s'
  end.

End PyStr.

(** Truth value of a [str | None]: [None] and [""] are false. *)
Definition truthy (o : option string) : bool :=
  match o with
  | Some s => negb (PyStr.is_empty s)
  | None => false
  end.

(** ** Identifiers *)

(** [re.fullmatch(r"Q\d+", s)] *)
Definition fullmatch_qid (s : string) : bool :=
  match s with
  | String c rest =>
      Ascii.eqb c "Q" && negb (PyStr.is_empty rest) && PyStr.all_chars PyStr.is_digit rest
  | EmptyString => false
  end.

Definition normalize_qid (raw : string) : res string :=
  let q := PyStr.strip raw in
  let q := if PyStr.startswith "http" q then PyStr.rsplit_last "/" q else q in
  if fullmatch_qid q then Ok q
  else Raise (ValueError ("Invalid QID: " +:+ q)).

(** ** Dates *)

(** A [datetime.date]; also the [datetime] that [strptime] returns, whose
    time of day the script never reads. *)
Record date := Date { year : Z; month : Z; day : Z }.

(** [a <= b] and [a < b] on dates: the order of (year, month, day). *)
Definition date_leb (a b : date) : bool :=
  (year a <? year b)%Z
  || ((year a =? year b)%Z
      && ((month a <? month b)%Z
          || ((month a =? month b)%Z && (day a <=? day b)%Z))).

Definition date_ltb (a b : date) : bool :=
  (year a <? year b)%Z
  || ((year a =? year b)%Z
      && ((month a <? month b)%Z
          || ((month a =? month b)%Z && (day a <? day b)%Z))).

Definition CUTOFF_DATE : date := Date 1444 11 11.

(** ** JSON values, as [SPARQLWrapper]'s [convert()] returns them *)

#[local] Unset Elimination Schemes.
Inductive json :=
| JNull
| JBool (b : bool)
| JNum (n : Z)
| JStr (s : string)
| JArr (l : list json)
| JObj (kv : list (string * json)).
#[local] Set Elimination Schemes.

Module Py.

Fixpoint assoc (k : string) (kv : list (string * json)) : option json :=
  match kv with
  | [] => None
  | (k', v) :: kv' => if String.eqb k k' then Some v else assoc k kv'
  end.

(** [j[k]] for a string key [k] *)
Definition getitem (j : json) (k : string) : res json :=
  match j with
  | JObj kv => match assoc k kv with Some v => Ok v | None => Raise KeyError end
  | _ => Raise TypeError
  end.

(** [j[0]] *)
Definition getitem0 (j : json) : res json :=
  match j with
  | JArr (x :: _) => Ok x
  | JArr [] => Raise IndexError
  | JStr (String c _) => Ok (JStr (String c EmptyString))
  | JStr EmptyString => Raise IndexError
  | JObj _ => Raise KeyError
  | _ => Raise TypeError
  end.

(** [j.get(k, default)] *)
Definition get (j : json) (k : string) (default : json) : res json :=
  match j with
  | JObj kv => Ok (match assoc k kv with Some v => v | None => default end)
  | _ => Raise AttributeError
  end.

(** [bool(j)] *)
Definition truth (j : json) : bool :=
  match j with
  | JNull => false
  | JBool b => b
  | JNum n => negb (n =? 0)%Z
  | JStr s => negb (PyStr.is_empty s)
  | JArr l => match l with [] => false | _ => true end
  | JObj kv => match kv with [] => false | _ => true end
  end.

(** [for b in j]: the items iterated, when [j] is iterable. *)
Definition iter (j : json) : res (list json) :=
  match j with
  | JArr l => Ok l
  | JObj kv => Ok (map (λ p, JStr (fst p)) kv)
  | JStr s => Ok (map (λ c, JStr (String c EmptyString)) (list_ascii_of_string s))
  | _ => Raise TypeError
  end.

End Py.

(** ** The external collaborators *)

(** What a call into a library or the network does: it returns a value or
    raises. *)
Inductive reply (A : Type) :=
| Returned (a : A)
| Failed (e : exn).
Arguments Returned {A} a.
Arguments Failed {A} e.

Definition call {A} (r : reply A) : res A :=
  match r with
  | Returned a => Ok a
  | Failed e => Raise e
  end.

Class Externals := {
  (** [datetime.strptime(s, "%Y-%m-%d")] *)
  strptime_Ymd : string → reply date;
  (** [wikidata.query().convert()] after [setQuery] of the attribute query
      for an identifier: the converted document, or the exception raised
      (network error, timeout, a body that is not JSON). *)
  query_person : string → reply json;
  (** the same for the children query of an identifier *)
  query_children : string → reply json;
}.

Global Instance res_ret : MRet res := @Ok.
Global Instance res_mbind : MBind res := λ A B f m, res_bind m f.

(** ** People *)

Record Person := {
  qid : string;
  label_en : option string;
  label_ja : option string;
  birth : option string;
  death : option string;
  father_qid : option string;
  mother_qid : option string;
  birth_place_en : option string;
}.

Definition blank_person (q : string) : Person :=
  {| qid := q; label_en := None; label_ja := None; birth := None; death := None;
     father_qid := None; mother_qid := None; birth_place_en := None |}.

(** [s or d] for a [str | None] *)
Definition or_str (o : option string) (d : string) : string :=
  match o with
  | Some s => if PyStr.is_empty s then d else s
  | None => d
  end.

Section pure.
Context `{Externals}.

Definition iso_to_eu_date (date_str : option string) : res (option string) :=
  match date_str with
  | None => Ok None
  | Some s =>
      if PyStr.is_empty s then Ok None else
      match call (strptime_Ymd (PyStr.take 10 s)) with
      | Raise _ => Ok None
      | OutOfFuel => OutOfFuel
      | Ok dt =>
          if (year dt <=? 0)%Z then Ok None
          else Ok (Some (pretty (year dt) +:+ "." +:+ pretty (month dt) +:+ "." +:+ pretty (day dt)))
      end
  end.

Definition parse_iso_date (date_str : option string) : res (option date) :=
  match date_str with
  | None => Ok None
  | Some s =>
      if PyStr.is_empty s then Ok None else
      match call (strptime_Ymd (PyStr.take 10 s)) with
      | Raise _ => Ok None
      | OutOfFuel => OutOfFuel
      | Ok dt => if (year dt <=? 0)%Z then Ok None else Ok (Some dt)
      end
  end.

Definition is_alive_on (person : Person) (on_date : date) (require_birth : bool) : res bool :=
  b ← parse_iso_date (birth person);
  d ← parse_iso_date (death person);
  if require_birth && negb (bool_decide (is_Some b)) then Ok false
  else if match b with Some bd => date_ltb on_date bd | None => false end then Ok false
  else if match d with Some dd => date_leb dd on_date | None => false end then Ok false
  else Ok true.

End pure.

(** ** Tokens *)

(** [re.sub] of every maximal run of characters satisfying [p] by [rep]. *)
Fixpoint sub_runs (p : ascii → bool) (rep : ascii) (in_run : bool) (s : string) : string :=
  match s with
  | EmptyString => EmptyString
  | String c s' =>
      if p c then
        if in_run then sub_runs p rep true s' else String rep (sub_runs p rep true s')
      else String c (sub_runs p rep false s')
  end.

Definition unicodedata_normalize_NFKD (value : string) : string := value.
Definition unicodedata_combining (ch : ascii) : bool := false.

Fixpoint drop_chars (p : ascii → bool) (s : string) : string :=
  match s with
  | EmptyString => EmptyString
  | String c s' => if p c then drop_chars p s' else String c (drop_chars p s')
  end.

Definition slugify_to_token (value : string) : string :=
  let value := unicodedata_normalize_NFKD value in
  let value := drop_chars unicodedata_combining value in
  let value := PyStr.lower value in
  let value := sub_runs (λ c, negb (PyStr.is_lower_alnum c)) "_" false value in
  let value := PyStr.strip_by (Ascii.eqb "_") (sub_runs (Ascii.eqb "_") "_" false value) in
  if PyStr.is_empty value then "unknown" else value.

Definition make_character_id_from_person (person : Person) (id_prefix : string) : string :=
  let label := PyStr.strip (or_str (label_en person) "") in
  if negb (PyStr.is_empty label) then id_prefix +:+ slugify_to_token label
  else id_prefix +:+ PyStr.lower (qid person).

Definition extract_given_name (label : string) : string :=
  let label := PyStr.strip label in
  if PyStr.is_empty label then ""
  else List.last (PyStr.split_runs PyStr.is_space [] false label) "".

Definition make_name_token (person : Person) (name_prefix fallback_prefix : string) : string :=
  let base := PyStr.strip (or_str (label_en person) "") in
  if negb (PyStr.is_empty base) then
    let given := extract_given_name base in
    if negb (PyStr.is_empty given) then name_prefix +:+ slugify_to_token given
    else name_prefix +:+ slugify_to_token base
  else fallback_prefix +:+ PyStr.lower (qid person).

(** ** Queries *)

(** [binding.get(var, {}).get("value")] *)
Definition binding_value (binding : json) (var : string) : res json :=
  v ← Py.get binding var (JObj []);
  Py.get v "value" JNull.

(** A value stored in a field declared [str | None]. A false value other
    than a string is indistinguishable from [None] in all that follows; a
    true one is outside the declared type, and is reported here. *)
Definition str_field (x : json) : res (option string) :=
  match x with
  | JStr s => Ok (Some s)
  | _ => if Py.truth x then Raise TypeError else Ok None
  end.

(** [x[:10] if x else None] *)
Definition take10_field (x : json) : res (option string) :=
  match x with
  | JStr s => Ok (if PyStr.is_empty s then None else Some (PyStr.take 10 s))
  | _ => if Py.truth x then Raise TypeError else Ok None
  end.

(** [x.rsplit("/", 1)[-1] if x else None] *)
Definition last_segment_field (x : json) : res (option string) :=
  match x with
  | JStr s => Ok (if PyStr.is_empty s then None else Some (PyStr.rsplit_last "/" s))
  | _ => if Py.truth x then Raise AttributeError else Ok None
  end.

Section queries.
Context `{Externals}.

(** The guarded block of [fetch_person]:
    [results = wikidata.query().convert(); binding = results["results"]["bindings"][0]] *)
Definition first_binding (q : string) : res json :=
  results ← call (query_person q);
  r ← Py.getitem results "results";
  b ← Py.getitem r "bindings";
  Py.getitem0 b.

Definition fetch_person (raw : string) : res Person :=
  q ← normalize_qid raw;
  match first_binding q with
  | Raise _ => Ok (blank_person q)
  | OutOfFuel => OutOfFuel
  | Ok binding =>
      v_label_en ← binding_value binding "labelEn";
      v_label_ja ← binding_value binding "labelJa";
      v_birth ← binding_value binding "birth";
      v_death ← binding_value binding "death";
      v_father ← binding_value binding "father";
      v_mother ← binding_value binding "mother";
      f ← last_segment_field v_father;
      m ← last_segment_field v_mother;
      v_place ← binding_value binding "birthPlaceLabelEn";
      l_en ← str_field v_label_en;
      l_ja ← str_field v_label_ja;
      b ← take10_field v_birth;
      d ← take10_field v_death;
      place ← str_field v_place;
      Ok {| qid := q; label_en := l_en; label_ja := l_ja; birth := b; death := d;
            father_qid := f; mother_qid := m; birth_place_en := place |}
  end.

(** The guarded block of [fetch_children_qids]:
    [bindings = results.get("results", {}).get("bindings", [])] *)
Definition children_bindings (q : string) : res json :=
  results ← call (query_children q);
  r ← Py.get results "results" (JObj []);
  Py.get r "bindings" (JArr []).

(** One turn of the loop over [bindings]; [children] is the list so far. *)
Definition children_step (children : list string) (b : json) : res (list string) :=
  child ← binding_value b "child";
  if negb (Py.truth child) then Ok children else
  match child with
  | JStr s =>
      let child_qid := PyStr.rsplit_last "/" s in
      if fullmatch_qid child_qid then Ok (children ++ [child_qid]) else Ok children
  | _ => Raise AttributeError
  end.

Fixpoint children_loop (children : list string) (bs : list json) : res (list string) :=
  match bs with
  | [] => Ok children
  | b :: bs' => children' ← children_step children b; children_loop children' bs'
  end.

Definition fetch_children_qids (raw : string) : res (list string) :=
  q ← normalize_qid raw;
  match children_bindings q with
  | Raise _ => Ok []
  | OutOfFuel => OutOfFuel
  | Ok bindings => bs ← Py.iter bindings; children_loop [] bs
  end.

End queries.

(** ** Printed output *)

(** One line of a character block. [render_character_entry] joins the
    texts of its lines with newlines. *)
Inductive line :=
| LOpen (char_id header_comment : string)
| LFirstName (name_token : string)
| LCulture (culture : string)
| LReligion (religion : string)
| LBirthDate (eu_birth : string)
| LDeathDate (eu_death : string)
| LBirth (birth_location : string)
| LBirthTodo (birth_place_en : string)
| LDynasty (dynasty : string)
| LFather (father_id : string)
| LMother (mother_id : string)
| LTag (tag : string)
| LClose.

Definition line_text (l : line) : string :=
  match l with
  | LOpen c h => "    " +:+ c +:+ " = {" +:+ h
  | LFirstName n => "        first_name = { name = " +:+ n +:+ " }"
  | LCulture c => "        culture = " +:+ c
  | LReligion r => "        religion = " +:+ r
  | LBirthDate d => "        birth_date = " +:+ d
  | LDeathDate d => "        death_date = " +:+ d
  | LBirth b => "        birth = " +:+ b
  | LBirthTodo p => "        # birth = <TODO>  # Wikidata birthplace: " +:+ p
  | LDynasty d => "        dynasty = " +:+ d
  | LFather f => "        father = " +:+ f
  | LMother m => "        mother = " +:+ m
  | LTag t => "        tag = " +:+ t
  | LClose => "    }"
  end.

(** What one [print] call writes: the empty line of [print()], or a
    character block. The block keeps the person it was rendered for next to
    its lines. *)
Inductive out_item :=
| Blank
| Block (person : Person) (lines : list line).

Definition item_text (i : out_item) : string :=
  match i with
  | Blank => ""
  | Block _ ls => PyStr.join (String "010"%char EmptyString) (map line_text ls)
  end.

(** The people printed, in the order of their blocks. *)
Fixpoint printed (out : list out_item) : list Person :=
  match out with
  | [] => []
  | Blank :: out' => printed out'
  | Block p _ :: out' => p :: printed out'
  end.

(** ** The state shared by the closures

    [ancestor_trace] and [descendant_trace] are not variables of the
    script: they record, in order, each expansion of [gather_ancestors]
    (identifier and depth) and each children query of
    [gather_descendants_alive] (identifier and remaining depth). *)

Record State := {
  person_cache : gmap string Person;
  qid_to_char_id : gmap string string;
  used_char_ids : gmap string string;
  ancestor_qids : gset string;
  descendant_qids : gset string;
  visited_ancestors : gset string;
  all_qids : gset string;
  emitted : gset string;
  stdout : list out_item;
  ancestor_trace : list (string * nat);
  descendant_trace : list (string * nat);
}.

Definition set_person_cache (v : gmap string Person) (σ : State) : State :=
  {| person_cache := v; qid_to_char_id := qid_to_char_id σ; used_char_ids := used_char_ids σ; ancestor_qids := ancestor_qids σ; descendant_qids := descendant_qids σ; visited_ancestors := visited_ancestors σ; all_qids := all_qids σ; emitted := emitted σ; stdout := stdout σ; ancestor_trace := ancestor_trace σ; descendant_trace := descendant_trace σ |}.

Definition set_qid_to_char_id (v : gmap string string) (σ : State) : State :=
  {| person_cache := person_cache σ; qid_to_char_id := v; used_char_ids := used_char_ids σ; ancestor_qids := ancestor_qids σ; descendant_qids := descendant_qids σ; visited_ancestors := visited_ancestors σ; all_qids := all_qids σ; emitted := emitted σ; stdout := stdout σ; ancestor_trace := ancestor_trace σ; descendant_trace := descendant_trace σ |}.

Definition set_used_char_ids (v : gmap string string) (σ : State) : State :=
  {| person_cache := person_cache σ; qid_to_char_id := qid_to_char_id σ; used_char_ids := v; ancestor_qids := ancestor_qids σ; descendant_qids := descendant_qids σ; visited_ancestors := visited_ancestors σ; all_qids := all_qids σ; emitted := emitted σ; stdout := stdout σ; ancestor_trace := ancestor_trace σ; descendant_trace := descendant_trace σ |}.

Definition set_ancestor_qids (v : gset string) (σ : State) : State :=
  {| person_cache := person_cache σ; qid_to_char_id := qid_to_char_id σ; used_char_ids := used_char_ids σ; ancestor_qids := v; descendant_qids := descendant_qids σ; visited_ancestors := visited_ancestors σ; all_qids := all_qids σ; emitted := emitted σ; stdout := stdout σ; ancestor_trace := ancestor_trace σ; descendant_trace := descendant_trace σ |}.

Definition set_descendant_qids (v : gset string) (σ : State) : State :=
  {| person_cache := person_cache σ; qid_to_char_id := qid_to_char_id σ; used_char_ids := used_char_ids σ; ancestor_qids := ancestor_qids σ; descendant_qids := v; visited_ancestors := visited_ancestors σ; all_qids := all_qids σ; emitted := emitted σ; stdout := stdout σ; ancestor_trace := ancestor_trace σ; descendant_trace := descendant_trace σ |}.

Definition set_visited_ancestors (v : gset string) (σ : State) : State :=
  {| person_cache := person_cache σ; qid_to_char_id := qid_to_char_id σ; used_char_ids := used_char_ids σ; ancestor_qids := ancestor_qids σ; descendant_qids := descendant_qids σ; visited_ancestors := v; all_qids := all_qids σ; emitted := emitted σ; stdout := stdout σ; ancestor_trace := ancestor_trace σ; descendant_trace := descendant_trace σ |}.

Definition set_all_qids (v : gset string) (σ : State) : State :=
  {| person_cache := person_cache σ; qid_to_char_id := qid_to_char_id σ; used_char_ids := used_char_ids σ; ancestor_qids := ancestor_qids σ; descendant_qids := descendant_qids σ; visited_ancestors := visited_ancestors σ; all_qids := v; emitted := emitted σ; stdout := stdout σ; ancestor_trace := ancestor_trace σ; descendant_trace := descendant_trace σ |}.

Definition set_emitted (v : gset string) (σ : State) : State :=
  {| person_cache := person_cache σ; qid_to_char_id := qid_to_char_id σ; used_char_ids := used_char_ids σ; ancestor_qids := ancestor_qids σ; descendant_qids := descendant_qids σ; visited_ancestors := visited_ancestors σ; all_qids := all_qids σ; emitted := v; stdout := stdout σ; ancestor_trace := ancestor_trace σ; descendant_trace := descendant_trace σ |}.

Definition set_stdout (v : list out_item) (σ : State) : State :=
  {| person_cache := person_cache σ; qid_to_char_id := qid_to_char_id σ; used_char_ids := used_char_ids σ; ancestor_qids := ancestor_qids σ; descendant_qids := descendant_qids σ; visited_ancestors := visited_ancestors σ; all_qids := all_qids σ; emitted := emitted σ; stdout := v; ancestor_trace := ancestor_trace σ; descendant_trace := descendant_trace σ |}.

Definition set_ancestor_trace (v : list (string * nat)) (σ : State) : State :=
  {| person_cache := person_cache σ; qid_to_char_id := qid_to_char_id σ; used_char_ids := used_char_ids σ; ancestor_qids := ancestor_qids σ; descendant_qids := descendant_qids σ; visited_ancestors := visited_ancestors σ; all_qids := all_qids σ; emitted := emitted σ; stdout := stdout σ; ancestor_trace := v; descendant_trace := descendant_trace σ |}.

Definition set_descendant_trace (v : list (string * nat)) (σ : State) : State :=
  {| person_cache := person_cache σ; qid_to_char_id := qid_to_char_id σ; used_char_ids := used_char_ids σ; ancestor_qids := ancestor_qids σ; descendant_qids := descendant_qids σ; visited_ancestors := visited_ancestors σ; all_qids := all_qids σ; emitted := emitted σ; stdout := stdout σ; ancestor_trace := ancestor_trace σ; descendant_trace := v |}.

Definition init_state : State :=
  {| person_cache := ∅; qid_to_char_id := ∅; used_char_ids := ∅; ancestor_qids := ∅;
     descendant_qids := ∅; visited_ancestors := ∅; all_qids := ∅; emitted := ∅;
     stdout := []; ancestor_trace := []; descendant_trace := [] |}.

(** ** The monad of the closures: state and exceptions *)

Definition M (A : Type) : Type := State → res A * State.

Global Instance M_ret : MRet M := λ A a σ, (Ok a, σ).
Global Instance M_bind : MBind M := λ A B f m σ,
  match m σ with
  | (Ok a, σ') => f a σ'
  | (Raise e, σ') => (Raise e, σ')
  | (OutOfFuel, σ') => (OutOfFuel, σ')
  end.

Definition lift {A} (r : res A) : M A := λ σ, (r, σ).
Definition gets {A} (f : State → A) : M A := λ σ, (Ok (f σ), σ).
Definition modify (f : State → State) : M unit := λ σ, (Ok tt, f σ).
Definition when (b : bool) (m : M unit) : M unit := if b then m else mret tt.

(** [for x in l: body(x)] *)
Fixpoint for_each {A} (l : list A) (body : A → M unit) : M unit :=
  match l with
  | [] => mret tt
  | x :: l' => body x;; for_each l' body
  end.

(** [print(...)] *)
Definition print (i : out_item) : M unit :=
  modify (λ σ, set_stdout (stdout σ ++ [i]) σ).

(** [sorted(s)] for a set of strings *)
Definition str_le (a b : string) : Prop := String.leb a b = true.
Global Instance str_le_dec : RelDecision str_le.
Proof. intros a b. unfold str_le. apply _. Defined.
Definition sorted (s : gset string) : list string := merge_sort str_le (elements s).

(** ** Options of a run *)

Record Config := {
  id_prefix : string;
  name_prefix : string;
  name_fallback_prefix : string;
  culture : string;
  religion : string;
  dynasty : option string;
  tag : option string;
  birth_location : option string;
  max_ancestor_depth : nat;
  max_descendant_depth : nat;
  ensure_fathers_depth : nat;
  include_root_if_not_alive : bool;
  descendants_require_birth : bool;
}.

(** The option [sleep_time] only delays the queries ([sparql_sleep]); a run
    prints and returns the same for every value of it, and the embedding
    leaves it out. The depths are already clamped at zero, as [main] passes
    them. *)

(** ** The rendering of one block *)

Definition opt_line (mk : string → line) (o : option string) : list line :=
  match o with
  | Some s => if PyStr.is_empty s then [] else [mk s]
  | None => []
  end.

Section closures.
Context `{Externals} (cfg : Config).

Definition get_person (raw : string) : M Person :=
  q ← lift (normalize_qid raw);
  cache ← gets person_cache;
  match cache !! q with
  | Some p => mret p
  | None =>
      p ← lift (fetch_person q);
      modify (λ σ, set_person_cache (<[q := p]> (person_cache σ)) σ);;
      mret p
  end.

Definition id_for_qid (raw : string) : M string :=
  q ← lift (normalize_qid raw);
  memo ← gets qid_to_char_id;
  match memo !! q with
  | Some c => mret c
  | None =>
      person ← get_person q;
      let candidate := make_character_id_from_person person (id_prefix cfg) in
      used ← gets used_char_ids;
      let existing := used !! candidate in
      let candidate :=
        if truthy existing && negb (bool_decide (existing = Some q))
        then candidate +:+ "_" +:+ PyStr.lower q else candidate in
      modify (λ σ, set_qid_to_char_id (<[q := candidate]> (qid_to_char_id σ)) σ);;
      modify (λ σ, set_used_char_ids (<[candidate := q]> (used_char_ids σ)) σ);;
      mret candidate
  end.

Definition render_character_entry (person : Person) (char_id : string)
    (include_parent_refs : bool) (known_qids : option (gset string)) : M (list line) :=
  let header_comment :=
    (if truthy (label_ja person) then " # " +:+ or_str (label_ja person) "" else "")
    +:+ " (" +:+ qid person +:+ ")" in
  let lines :=
    [ LOpen char_id header_comment;
      LFirstName (make_name_token person (name_prefix cfg) (name_fallback_prefix cfg));
      LCulture (culture cfg);
      LReligion (religion cfg) ] in
  eu_birth ← lift (iso_to_eu_date (birth person));
  eu_death ← lift (iso_to_eu_date (death person));
  death_dt ← lift (parse_iso_date (death person));
  let lines := lines ++ opt_line LBirthDate eu_birth in
  let lines :=
    if truthy eu_death
       && match death_dt with Some d => date_leb d CUTOFF_DATE | None => false end
    then lines ++ opt_line LDeathDate eu_death else lines in
  let lines :=
    if truthy (birth_location cfg) then lines ++ opt_line LBirth (birth_location cfg)
    else lines ++ opt_line LBirthTodo (birth_place_en person) in
  let lines := lines ++ opt_line LDynasty (dynasty cfg) in
  lines ←
    (if include_parent_refs then
       lines ←
         (if truthy (father_qid person) then
            f ← id_for_qid (or_str (father_qid person) ""); mret (lines ++ [LFather f])
          else mret lines);
       if truthy (mother_qid person)
          && match known_qids with
             | None => true
             | Some known => bool_decide (or_str (mother_qid person) "" ∈ known)
             end
       then m ← id_for_qid (or_str (mother_qid person) ""); mret (lines ++ [LMother m])
       else mret lines
     else mret lines);
  let lines := lines ++ opt_line LTag (tag cfg) in
  mret (lines ++ [LClose]).

(** *** The collectors *)

Definition gather_ancestors_include (include_root_entry : bool) (person : Person)
    (q : string) (depth : nat) : M unit :=
  if (depth =? 0)%nat then
    when include_root_entry
      (modify (λ σ, set_ancestor_qids ({[q]} ∪ ancestor_qids σ) σ))
  else
    alive ← lift (is_alive_on person CUTOFF_DATE true);
    when alive (modify (λ σ, set_ancestor_qids ({[q]} ∪ ancestor_qids σ) σ)).

Fixpoint gather_ancestors (include_root_entry : bool) (fuel : nat)
    (raw : string) (depth : nat) : M unit :=
  match fuel with
  | O => lift OutOfFuel
  | S fuel' =>
      q ← lift (normalize_qid raw);
      visited ← gets visited_ancestors;
      if bool_decide (q ∈ visited) then mret tt else
      modify (λ σ, set_ancestor_trace (ancestor_trace σ ++ [(q, depth)])
                     (set_visited_ancestors ({[q]} ∪ visited_ancestors σ) σ));;
      person ← get_person q;
      gather_ancestors_include include_root_entry person q depth;;
      if (max_ancestor_depth cfg <=? depth)%nat then mret tt else
      when (truthy (father_qid person))
        (gather_ancestors include_root_entry fuel' (or_str (father_qid person) "") (depth + 1));;
      when (truthy (mother_qid person))
        (gather_ancestors include_root_entry fuel' (or_str (mother_qid person) "") (depth + 1))
  end.

Fixpoint gather_descendants_alive (raw : string) (depth_remaining : nat) : M unit :=
  match depth_remaining with
  | O => mret tt
  | S depth_below =>
      modify (λ σ, set_descendant_trace (descendant_trace σ ++ [(raw, depth_remaining)]) σ);;
      children ← lift (fetch_children_qids raw);
      for_each children (λ child_qid,
        child ← get_person child_qid;
        alive ← lift (is_alive_on child CUTOFF_DATE (descendants_require_birth cfg));
        if negb alive then mret tt else
        desc ← gets descendant_qids;
        if bool_decide (qid child ∈ desc) then mret tt else
        modify (λ σ, set_descendant_qids ({[qid child]} ∪ descendant_qids σ) σ);;
        gather_descendants_alive (qid child) depth_below)
  end.

(** *** The lineage completion *)

(** The inner loop over a frontier; the result is [next_frontier]. *)
Fixpoint ensure_fathers_round (frontier : list string) (next_frontier : gset string)
  : M (gset string) :=
  match frontier with
  | [] => mret next_frontier
  | q :: frontier' =>
      person ← get_person q;
      all ← gets all_qids;
      if truthy (father_qid person)
         && negb (bool_decide (or_str (father_qid person) "" ∈ all))
      then
        let f := or_str (father_qid person) "" in
        modify (λ σ, set_all_qids ({[f]} ∪ all_qids σ) σ);;
        ensure_fathers_round frontier' ({[f]} ∪ next_frontier)
      else ensure_fathers_round frontier' next_frontier
  end.

(** [for _ in range(rounds)]; a set is iterated in the order of its
    [elements], which the result of a round does not depend on. *)
Fixpoint ensure_fathers (rounds : nat) (frontier : gset string) : M unit :=
  match rounds with
  | O => mret tt
  | S rounds' =>
      next_frontier ← ensure_fathers_round (elements frontier) ∅;
      if bool_decide (next_frontier = ∅) then mret tt
      else ensure_fathers rounds' next_frontier
  end.

(** *** The emitter *)

(** The end of [emit_parents_first], from [if emitted: print()] on: the
    block of [person], whose identifier is [q], is printed and [q] joins
    the emitted set. *)
Definition print_entry (person : Person) (q : string) (all : gset string) : M unit :=
  done ← gets emitted;
  when (negb (bool_decide (done = ∅))) (print Blank);;
  char_id ← id_for_qid (qid person);
  lines ← render_character_entry person char_id true (Some all);
  print (Block person lines);;
  modify (λ σ, set_emitted ({[q]} ∪ emitted σ) σ).

Fixpoint emit_parents_first (fuel : nat) (raw : string) : M unit :=
  match fuel with
  | O => lift OutOfFuel
  | S fuel' =>
      q ← lift (normalize_qid raw);
      done ← gets emitted;
      if bool_decide (q ∈ done) then mret tt else
      person ← get_person q;
      all ← gets all_qids;
      when (truthy (father_qid person) && bool_decide (or_str (father_qid person) "" ∈ all))
        (emit_parents_first fuel' (or_str (father_qid person) ""));;
      when (truthy (mother_qid person) && bool_decide (or_str (mother_qid person) "" ∈ all))
        (emit_parents_first fuel' (or_str (mother_qid person) ""));;
      print_entry person q all
  end.

(** *** The whole run

    [fuel] bounds the recursion of [emit_parents_first] only: the
    collectors are bounded by their depths. The body of the function, from
    [ancestor_qids: set[str] = set()] on, where [include_root_entry] is
    known, is [run_from_root]: it builds the inclusion set [all_qids]
    ([collect], up to [emitted: set[str] = set()]) and then prints it
    ([emit_all]). *)
Definition collect (include_root_entry : bool) (root_qid : string) : M unit :=
  gather_ancestors include_root_entry (S (max_ancestor_depth cfg)) root_qid 0;;
  when include_root_entry
    (gather_descendants_alive root_qid (max_descendant_depth cfg));;
  modify (λ σ, set_all_qids (ancestor_qids σ ∪ descendant_qids σ) σ);;
  when (0 <? ensure_fathers_depth cfg)%nat
    (frontier ← gets all_qids; ensure_fathers (ensure_fathers_depth cfg) frontier);;
  modify (set_emitted ∅).

Definition emit_all (include_root_entry : bool) (fuel : nat) (root_qid : string) : M unit :=
  if include_root_entry then
    emit_parents_first fuel root_qid;;
    desc ← gets descendant_qids;
    for_each (sorted desc) (emit_parents_first fuel)
  else
    anc ← gets ancestor_qids;
    for_each (sorted anc) (emit_parents_first fuel).

Definition run_from_root (include_root_entry : bool) (fuel : nat) (root_qid : string)
  : M unit :=
  collect include_root_entry root_qid;;
  emit_all include_root_entry fuel root_qid.

Definition emit_person_with_ancestors_and_descendants (fuel : nat) (raw_root : string)
  : M unit :=
  root_qid ← lift (normalize_qid raw_root);
  root_person ← get_person root_qid;
  root_alive_on_cutoff ← lift (is_alive_on root_person CUTOFF_DATE false);
  let include_root_entry := include_root_if_not_alive cfg || root_alive_on_cutoff in
  run_from_root include_root_entry fuel root_qid.

End closures.

(** ** Vocabulary of the properties *)

(** A recorded date the helpers cannot use: none, the empty string, one
    whose first ten characters [strptime] rejects, or one whose year is not
    positive. *)
Definition unparsable `{Externals} (date_str : option string) : Prop :=
  match date_str with
  | None => True
  | Some s =>
      s = ""
      ∨ (∃ e, strptime_Ymd (PyStr.take 10 s) = Failed e)
      ∨ (∃ dt, strptime_Ymd (PyStr.take 10 s) = Returned dt ∧ (year dt ≤ 0)%Z)
  end.

(** A converted document without a first binding: it is not an object, has
    no object under ["results"], or nothing under ["bindings"] that has a
    first item. *)
Definition no_first_binding (doc : json) : Prop :=
  match doc with
  | JObj kv =>
      match Py.assoc "results" kv with
      | Some (JObj kv') =>
          match Py.assoc "bindings" kv' with
          | Some (JArr (_ :: _)) | Some (JStr (String _ _)) => False
          | _ => True
          end
      | _ => True
      end
  | _ => True
  end.

(** A converted document that lists no child: it is not an object, or
    ["results"] is missing or not an object, or its ["bindings"] are missing
    or an empty list. *)
Definition no_child_bindings (doc : json) : Prop :=
  match doc with
  | JObj kv =>
      match Py.assoc "results" kv with
      | Some (JObj kv') =>
          match Py.assoc "bindings" kv' with
          | None | Some (JArr []) => True
          | _ => False
          end
      | Some (JNull | JBool _ | JNum _ | JStr _ | JArr _) => True
      | None => True
      end
  | _ => True
  end.

(** A value with a [get] method: a dictionary. *)
Definition is_object (j : json) : bool :=
  match j with
  | JObj _ => true
  | _ => false
  end.

(** A value [for] can go through: a list, a dictionary or a string. *)
Definition is_iterable (j : json) : bool :=
  match j with
  | JArr _ | JObj _ | JStr _ => true
  | _ => false
  end.

(** A value that is true and has no [rsplit] method. *)
Definition true_non_string (j : json) : bool :=
  match j with
  | JStr _ => false
  | _ => Py.truth j
  end.

(** [m] relates every state to the state it leaves, whatever its result. *)
Definition preserves {A} (R : relation State) (m : M A) : Prop := ∀ σ, R σ (m σ).2.

(** [m] leaves the field [f] as it is. *)
Definition same {B} (f : State → B) : relation State := λ σ σ', f σ' = f σ.

(** The parents the script follows from a person. *)
Definition parents (p : Person) : list string :=
  (if truthy (father_qid p) then [or_str (father_qid p) ""] else [])
  ++ (if truthy (mother_qid p) then [or_str (mother_qid p) ""] else []).

(** Every cached person is what [fetch_person] returns for its key, and
    the keys are normal identifiers. *)
Definition cache_ok `{Externals} (σ : State) : Prop :=
  ∀ k p, person_cache σ !! k = Some p → normalize_qid k = Ok k ∧ fetch_person k = Ok p.



(** Writing a field through [set] keeps a state related to itself. *)
Definition stable {V} (R : relation State) (set : V → State → State) : Prop :=
  ∀ v σ, R σ (set v σ).

(** The cache only grows. *)
Definition cache_grows : relation State := λ σ σ', person_cache σ ⊆ person_cache σ'.

(** The cache stays as [cache_ok] wants it. *)
Definition keeps_cache_ok `{Externals} : relation State :=
  λ σ σ', cache_ok σ → cache_ok σ'.

(** The root passes the root-inclusion decision. *)
Definition root_included `{Externals} (cfg : Config) (root : string) : Prop :=
  include_root_if_not_alive cfg = true
  ∨ ∃ p, fetch_person root = Ok p ∧ is_alive_on p CUTOFF_DATE false = Ok true.

(** Some cached person with the identifier [q] passes the liveness filter
    of the descendant side. *)
Definition alive_in `{Externals} (cfg : Config) (σ : State) (q : string) : Prop :=
  ∃ k p, person_cache σ !! k = Some p ∧ qid p = q
         ∧ is_alive_on p CUTOFF_DATE (descendants_require_birth cfg) = Ok true.

(** The children query [e] was made for a person that is in the descendant
    set and passes the liveness filter, one generation below a query of
    the trace [tr] that returned it as a child. *)
Definition descended `{Externals} (cfg : Config) (σ : State) (tr : list (string * nat))
    (e : string * nat) : Prop :=
  e.1 ∈ descendant_qids σ
  ∧ alive_in cfg σ e.1
  ∧ ∃ q' cs, (q', S e.2) ∈ tr ∧ fetch_children_qids q' = Ok cs ∧ e.1 ∈ cs.

(** The identifiers of the people printed, in the order of their blocks. *)
Definition printed_qids (out : list out_item) : list string := map qid (printed out).

(** The character identifier that opens a block. *)
Definition block_id (ls : list line) : list string :=
  match ls with
  | LOpen c _ :: _ => [c]
  | _ => []
  end.

(** The character identifiers printed, in the order of their blocks. *)
Fixpoint printed_ids (out : list out_item) : list string :=
  match out with
  | [] => []
  | Blank :: out' => printed_ids out'
  | Block _ ls :: out' => block_id ls ++ printed_ids out'
  end.

(** Every item of [l] satisfies [P] relative to the items before it. *)
Definition each_after {A} (P : list A → A → Prop) (l : list A) : Prop :=
  ∀ pre x post, l = pre ++ x :: post → P pre x.

(** The parent references of a block, relative to the output before it:
    a [mother] line is printed only for a mother in [known], and names a
    character printed before; a [father] line is printed exactly when the
    person has a father, and names a character printed before when the
    father is in [known]. *)
Definition refs_resolved_at (known : gset string) (pre : list out_item) (i : out_item)
  : Prop :=
  match i with
  | Blank => True
  | Block p ls =>
      (∀ m, LMother m ∈ ls →
         truthy (mother_qid p) = true ∧ or_str (mother_qid p) "" ∈ known
         ∧ m ∈ printed_ids pre)
      ∧ (∀ f, LFather f ∈ ls →
           truthy (father_qid p) = true
           ∧ (or_str (father_qid p) "" ∈ known → f ∈ printed_ids pre))
      ∧ (truthy (father_qid p) = true → ∃ f, LFather f ∈ ls)
  end.

(** The parents of a printed person that are in [known] are printed
    before it. *)
Definition parents_first_at (known : gset string) (pre : list out_item) (i : out_item)
  : Prop :=
  match i with
  | Blank => True
  | Block p _ =>
      ∀ par, par ∈ parents p → par ∈ known →
        ∃ q, normalize_qid par = Ok q ∧ q ∈ printed_qids pre
  end.

(** What holds of the emitter's state at every point of the emission. *)
Definition emit_inv `{Externals} (σ : State) : Prop :=
  cache_ok σ
  ∧ (∀ q, q ∈ emitted σ →
       q ∈ printed_qids (stdout σ)
       ∧ ∃ c, qid_to_char_id σ !! q = Some c ∧ c ∈ printed_ids (stdout σ))
  ∧ each_after (refs_resolved_at (all_qids σ)) (stdout σ)
  ∧ each_after (parents_first_at (all_qids σ)) (stdout σ).

(** How the emitter's state grows. *)
Definition emit_ext (σ σ' : State) : Prop :=
  qid_to_char_id σ ⊆ qid_to_char_id σ'
  ∧ (∃ more, stdout σ' = stdout σ ++ more)
  ∧ emitted σ ⊆ emitted σ'
  ∧ all_qids σ' = all_qids σ.

(** The parent links that stay within [known] go down in [rank]: the
    recorded parents are acyclic there. *)
Definition ranked `{Externals} (known : gset string) (rank : string → nat) : Prop :=
  ∀ raw p par q',
    fetch_person raw = Ok p → par ∈ parents p → par ∈ known →
    normalize_qid par = Ok q' → rank q' < rank (qid p).

(** Nobody is printed twice, and the emitted set is the set of the people
    printed. *)
Definition once_inv (σ : State) : Prop :=
  NoDup (printed_qids (stdout σ))
  ∧ ∀ q, q ∈ emitted σ ↔ q ∈ printed_qids (stdout σ).

(** The identifiers the emitter is started on, in order. *)
Definition emit_starts (include_root_entry : bool) (root_qid : string) (σ : State)
  : list string :=
  if include_root_entry then root_qid :: sorted (descendant_qids σ)
  else sorted (ancestor_qids σ).

(** A line that refers to a parent. *)
Definition is_ref (l : line) : bool :=
  match l with
  | LFather _ | LMother _ => true
  | _ => false
  end.


(** [s] continues a token of the form [[a-z0-9]+(_[a-z0-9]+)*]:
    [after_alnum] tells whether the character before [s] is alphanumeric,
    which an underscore and the end both need. *)
Fixpoint slug_from (after_alnum : bool) (s : string) : bool :=
  match s with
  | EmptyString => after_alnum
  | String c s' =>
      if PyStr.is_lower_alnum c then slug_from true s'
      else Ascii.eqb "_" c && after_alnum && slug_from false s'
  end.

(** [re.fullmatch(r"[a-z0-9]+(_[a-z0-9]+)*", s)] *)
Definition is_slug (s : string) : bool := slug_from false s.

(** The same, but [s] may also stop after an underscore or be empty. *)
Fixpoint pre_slug (after_alnum : bool) (s : string) : bool :=
  match s with
  | EmptyString => true
  | String c s' =>
      if PyStr.is_lower_alnum c then pre_slug true s'
      else Ascii.eqb "_" c && after_alnum && pre_slug false s'
  end.

(** [sep in s] for a character [sep] *)
Definition has_char (sep : ascii) (s : string) : bool :=
  existsb (Ascii.eqb sep) (list_ascii_of_string s).

(** [s] is empty or ends with a white-space character. *)
Definition at_word_start (s : string) : Prop :=
  s = "" ∨ ∃ s' c, s = s' +:+ String c "" ∧ PyStr.is_space c = true.

(** [w] is a word: it is not empty and holds no white space. *)
Definition is_word (w : string) : Prop :=
  w ≠ "" ∧ PyStr.all_chars (λ c, negb (PyStr.is_space c)) w = true.

(** [m], run from a state that satisfies [P], leaves a state that
    satisfies [Q a] when it returns [a], and one that satisfies [E] when it
    raises or does not return. *)
Definition triple {A} (P : State → Prop) (m : M A) (Q : A → State → Prop)
    (E : State → Prop) : Prop :=
  ∀ σ, P σ → match (m σ).1 with Ok a => Q a (m σ).2 | _ => E (m σ).2 end.

Definition is_block (i : out_item) : bool :=
  match i with
  | Block _ _ => true
  | Blank => false
  end.

(** The blocks [bs] with one empty line between each two. *)
Fixpoint joined (bs : list out_item) : list out_item :=
  match bs with
  | [] => []
  | b :: bs' =>
      match bs' with
      | [] => [b]
      | _ :: _ => b :: Blank :: joined bs'
      end
  end.

(** The output is blocks separated by empty lines, and the emitted set is
    empty exactly when nothing is printed. *)
Definition separated (σ : State) : Prop :=
  ∃ bs, Forall (λ b, is_block b = true) bs ∧ stdout σ = joined bs
        ∧ (emitted σ = ∅ ↔ bs = []).

(** The same, or with the empty line that precedes the next block. *)
Definition separated_open (σ : State) : Prop :=
  ∃ bs, Forall (λ b, is_block b = true) bs
        ∧ (stdout σ = joined bs ∨ (bs ≠ [] ∧ stdout σ = joined bs ++ [Blank])).

(** Between the empty line and the block that follows it. *)
Definition separated_pending (σ : State) : Prop :=
  ∃ bs, Forall (λ b, is_block b = true) bs
        ∧ ((emitted σ = ∅ ∧ bs = [] ∧ stdout σ = [])
           ∨ (emitted σ ≠ ∅ ∧ bs ≠ [] ∧ stdout σ = joined bs ++ [Blank])).

(** What the separators depend on: the output and the emitted set. *)
Definition shown (σ : State) : list out_item * gset string := (stdout σ, emitted σ).

(** [x] is reached from [q] by [k] links of [R]. *)
Fixpoint reach (R : string → string → Prop) (k : nat) (q x : string) : Prop :=
  match k with
  | O => x = q
  | S k' => ∃ y, reach R k' q y ∧ R y x
  end.

(** The person resolved for [q] records [x] as the father. *)
Definition father_link `{Externals} (q x : string) : Prop :=
  ∃ q' p, normalize_qid q = Ok q' ∧ fetch_person q' = Ok p
          ∧ truthy (father_qid p) = true ∧ or_str (father_qid p) "" = x.

(** The person resolved for [q] records [x] as the father or the
    mother. *)
Definition parent_link `{Externals} (q x : string) : Prop :=
  ∃ q' p, normalize_qid q = Ok q' ∧ fetch_person q' = Ok p ∧ x ∈ parents p.

(** The children query for [q] returns [x]. *)
Definition child_link `{Externals} (q x : string) : Prop :=
  ∃ cs, fetch_children_qids q = Ok cs ∧ x ∈ cs.

(** The person resolved for [q] passes [is_alive_on] for the cutoff
    date. *)
Definition alive_with `{Externals} (require_birth : bool) (q : string) : Prop :=
  ∃ p, fetch_person q = Ok p ∧ is_alive_on p CUTOFF_DATE require_birth = Ok true.

(** How a run from [root] lets [q] into the ancestor or the descendant
    set: as the root, when the root passes the root-inclusion decision; as
    a person alive on the cutoff date with a birth date, whose identifier
    is the normal form of what at most [max_ancestor_depth] parent links
    reach from the root; or, when the root is included, as a person that
    passes the liveness filter of the descendant side and that at most
    [max_descendant_depth] child links reach from the root. *)
Definition collected_from `{Externals} (cfg : Config) (root q : string) : Prop :=
  (q = root ∧ root_included cfg root)
  ∨ (alive_with true q
     ∧ ∃ k raw, (1 ≤ k ≤ max_ancestor_depth cfg)%nat ∧ reach parent_link k root raw
                ∧ normalize_qid raw = Ok q)
  ∨ (root_included cfg root ∧ alive_with (descendants_require_birth cfg) q
     ∧ ∃ k, (1 ≤ k ≤ max_descendant_depth cfg)%nat ∧ reach child_link k root q).

(** The sets the collectors build. *)
Definition collected (σ : State) : gset string * gset string * gset string :=
  (ancestor_qids σ, descendant_qids σ, all_qids σ).

(** The sets hold nobody without a reason: the ancestor and the descendant
    set what [collected_from] lets in, and the inclusion set what at most
    [ensure_fathers_depth] father links reach from there. *)
Definition inclusion_sound `{Externals} (cfg : Config) (root : string) (σ : State) : Prop :=
  cache_ok σ
  ∧ (∀ q, q ∈ ancestor_qids σ ∪ descendant_qids σ → collected_from cfg root q)
  ∧ (∀ x, x ∈ all_qids σ →
       ∃ k q, (k ≤ ensure_fathers_depth cfg)%nat ∧ collected_from cfg root q
              ∧ reach father_link k q x).

(** The inclusion set is [K], and every person printed is the person of
    a member of [K]. *)
Definition printed_within `{Externals} (K : gset string) (σ : State) : Prop :=
  cache_ok σ ∧ all_qids σ = K
  ∧ ∀ x, x ∈ printed_qids (stdout σ) → ∃ raw, raw ∈ K ∧ normalize_qid raw = Ok x.

(** What the emitter reads and writes of the sets and the output. *)
Definition emitter_view (σ : State) : list out_item * gset string := (stdout σ, all_qids σ).

(** The inclusion set holds the ancestor and the descendant set, and the
    ancestor set holds [root] when the root entry is included. *)
Definition starts_collected (inc : bool) (root : string) (σ : State) : Prop :=
  ancestor_qids σ ∪ descendant_qids σ ⊆ all_qids σ
  ∧ (inc = true → root ∈ ancestor_qids σ).

(** The dates of the [birth_date] lines of a block, in order. *)
Definition birth_dates (ls : list line) : list string :=
  omap (λ l, match l with LBirthDate b => Some b | _ => None end) ls.

(** The dates of the [death_date] lines of a block, in order. *)
Definition death_dates (ls : list line) : list string :=
  omap (λ l, match l with LDeathDate d => Some d | _ => None end) ls.

(** ** Concrete collaborators, for running the embedding *)

Module Demo.

(** *** [datetime.strptime(_, "%Y-%m-%d")]

    The format compiles to the regular expression
    [(\d\d\d\d)-(1[0-2]|0[1-9]|[1-9])-(3[0-1]|[1-2]\d|0[1-9]|[1-9]| [1-9])],
    matched at the start of the string; text left over, a year below 1
    and a day the month does not have raise [ValueError]. *)

Definition digit (c : ascii) : Z := Z.of_nat (nat_of_ascii c) - 48.

Definition between (lo hi : string) (c : ascii) : bool :=
  match lo, hi with
  | String l _, String h _ =>
      ((nat_of_ascii l <=? nat_of_ascii c) && (nat_of_ascii c <=? nat_of_ascii h))%nat
  | _, _ => false
  end.

Definition month_alternatives (l : list ascii) : list (Z * list ascii) :=
  match l with
  | a :: b :: r =>
      (if Ascii.eqb a "1" && between "0" "2" b then [(10 + digit b, r)] else [])
      ++ (if Ascii.eqb a "0" && between "1" "9" b then [(digit b, r)] else [])
      ++ (if between "1" "9" a then [(digit a, b :: r)] else [])
  | [a] => if between "1" "9" a then [(digit a, [])] else []
  | [] => []
  end%Z.

Definition day_alternatives (l : list ascii) : list (Z * list ascii) :=
  match l with
  | a :: b :: r =>
      (if Ascii.eqb a "3" && between "0" "1" b then [(30 + digit b, r)] else [])
      ++ (if between "1" "2" a && PyStr.is_digit b then [(10 * digit a + digit b, r)] else [])
      ++ (if Ascii.eqb a "0" && between "1" "9" b then [(digit b, r)] else [])
      ++ (if between "1" "9" a then [(digit a, b :: r)] else [])
      ++ (if Ascii.eqb a " " && between "1" "9" b then [(digit b, r)] else [])
  | [a] => if between "1" "9" a then [(digit a, [])] else []
  | [] => []
  end%Z.

Definition is_leap (y : Z) : bool :=
  ((y mod 4 =? 0) && (negb (y mod 100 =? 0) || (y mod 400 =? 0)))%Z.

Definition days_in_month (y m : Z) : Z :=
  (if m =? 2 then (if is_leap y then 29 else 28)
   else if (m =? 4) || (m =? 6) || (m =? 9) || (m =? 11) then 30 else 31)%Z.

Definition bad_date : reply date := Failed (ValueError "time data does not match format").

Definition strptime (s : string) : reply date :=
  match list_ascii_of_string s with
  | y1 :: y2 :: y3 :: y4 :: l =>
      if forallb PyStr.is_digit [y1; y2; y3; y4] then
        let y := (1000 * digit y1 + 100 * digit y2 + 10 * digit y3 + digit y4)%Z in
        match l with
        | dash :: l =>
            if Ascii.eqb dash "-" then
              match List.filter (λ a, match snd a with
                                      | c :: _ => Ascii.eqb c "-"
                                      | [] => false
                                      end) (month_alternatives l) with
              | (m, _ :: l) :: _ =>
                  match day_alternatives l with
                  | (d, []) :: _ =>
                      if ((1 <=? y) && (d <=? days_in_month y m))%Z
                      then Returned (Date y m d) else bad_date
                  | _ => bad_date
                  end
              | _ => bad_date
              end
            else bad_date
        | [] => bad_date
        end
      else bad_date
  | _ => bad_date
  end.

(** *** An endpoint that answers from a table *)

Definition entity (q : string) : string := "http://www.wikidata.org/entity/" +:+ q.

Definition term (v : string) : json := JObj [("type", JStr "literal"); ("value", JStr v)].

Definition results (bindings : list json) : json :=
  JObj [("head", JObj []); ("results", JObj [("bindings", JArr bindings)])].

Definition row (fields : list (string * string)) : json :=
  JObj (map (λ kv, (fst kv, term (snd kv))) fields).

Fixpoint find {A} (q : string) (table : list (string * A)) : option A :=
  match table with
  | [] => None
  | (k, v) :: table' => if String.eqb q k then Some v else find q table'
  end.

(** A person the table does not know has a row without bindings. *)
Definition person_endpoint (table : list (string * list (string * string))) (q : string)
  : reply json :=
  Returned (results [row (default [] (find q table))]).

Definition children_endpoint (table : list (string * list string)) (q : string)
  : reply json :=
  Returned (results (map (λ c, row [("child", c)]) (default [] (find q table)))).

Definition world (people : list (string * list (string * string)))
    (children : list (string * list string)) : Externals :=
  {| strptime_Ymd := strptime;
     query_person := person_endpoint people;
     query_children := children_endpoint children |}.

(** The options [main] passes when the command line gives none. *)
Definition defaults : Config :=
  {| id_prefix := "wd_"; name_prefix := "name_"; name_fallback_prefix := "name_q";
     culture := "saigoku_culture"; religion := "shinto"; dynasty := None; tag := None;
     birth_location := None; max_ancestor_depth := 6; max_descendant_depth := 6;
     ensure_fathers_depth := 1; include_root_if_not_alive := false;
     descendants_require_birth := true |}.


(** Grandfather Q1, father Q2, child Q3, all alive on the cutoff date. *)
Definition chain : Externals :=
  world
    [ ("Q3", [("labelEn", "Ouchi Norihiro"); ("birth", "1420-04-10T00:00:00Z");
              ("father", entity "Q2")]);
      ("Q2", [("labelEn", "Ouchi Mochiyo"); ("birth", "1394-03-25T00:00:00Z");
              ("father", entity "Q1")]);
      ("Q1", [("labelEn", "Ouchi Yoshihiro"); ("birth", "1370-01-01T00:00:00Z")]) ]
    [].

(** Two people recorded as each other's father. *)
Definition cycle : Externals :=
  world
    [ ("Q1", [("birth", "1400-01-01T00:00:00Z"); ("father", entity "Q2")]);
      ("Q2", [("birth", "1401-01-01T00:00:00Z"); ("father", entity "Q1")]) ]
    [].

(** Root Q1; its mother Q2 died before the cutoff date; her father Q3 was
    alive on it. *)
Definition gap : Externals :=
  world
    [ ("Q1", [("birth", "1420-01-01T00:00:00Z"); ("mother", entity "Q2")]);
      ("Q2", [("birth", "1400-01-01T00:00:00Z"); ("death", "1430-01-01T00:00:00Z");
              ("father", entity "Q3")]);
      ("Q3", [("birth", "1370-01-01T00:00:00Z")]) ]
    [].

(** The family of [gap] with a root that died before the cutoff date. *)
Definition gap_root_dead : Externals :=
  world
    [ ("Q1", [("birth", "1420-01-01T00:00:00Z"); ("death", "1440-01-01T00:00:00Z");
              ("mother", entity "Q2")]);
      ("Q2", [("birth", "1400-01-01T00:00:00Z"); ("death", "1430-01-01T00:00:00Z");
              ("father", entity "Q3")]);
      ("Q3", [("birth", "1370-01-01T00:00:00Z")]) ]
    [].

(** Child Q3 and father Q2 share a label; the label of grandfather Q4
    slugifies to the child's suffixed token. *)
Definition collide : Externals :=
  world
    [ ("Q3", [("labelEn", "Foo"); ("birth", "1420-01-01T00:00:00Z");
              ("father", entity "Q2")]);
      ("Q2", [("labelEn", "Foo"); ("birth", "1400-01-01T00:00:00Z");
              ("father", entity "Q4")]);
      ("Q4", [("labelEn", "Foo Q3"); ("birth", "1380-01-01T00:00:00Z")]) ]
    [].

(** Root Q1 alive on the cutoff date; its father Q2 and grandfather Q3
    both dead by then. *)
Definition dangling : Externals :=
  world
    [ ("Q1", [("birth", "1420-01-01T00:00:00Z"); ("father", entity "Q2")]);
      ("Q2", [("birth", "1390-01-01T00:00:00Z"); ("death", "1440-01-01T00:00:00Z");
              ("father", entity "Q3")]);
      ("Q3", [("birth", "1360-01-01T00:00:00Z"); ("death", "1420-01-01T00:00:00Z")]) ]
    [].

(** The father of Q1 is recorded as an unknown value, which the endpoint
    returns as a skolem IRI. *)
Definition genid : Externals :=
  world
    [ ("Q1", [("birth", "1420-01-01T00:00:00Z");
              ("father", "http://www.wikidata.org/.well-known/genid/0123abcd")]) ]
    [].


(** Root Q1 with children Q2 (alive on the cutoff date) and Q3 (dead by
    then); Q2 has the child Q4 and Q3 the child Q5, both alive. *)
Definition family : Externals :=
  world
    [ ("Q1", [("birth", "1390-01-01T00:00:00Z")]);
      ("Q2", [("birth", "1410-01-01T00:00:00Z"); ("father", entity "Q1")]);
      ("Q3", [("birth", "1412-01-01T00:00:00Z"); ("death", "1430-01-01T00:00:00Z");
              ("father", entity "Q1")]);
      ("Q4", [("birth", "1430-01-01T00:00:00Z"); ("father", entity "Q2")]);
      ("Q5", [("birth", "1429-01-01T00:00:00Z"); ("father", entity "Q3")]) ]
    [ ("Q1", [entity "Q2"; entity "Q3"]); ("Q2", [entity "Q4"]); ("Q3", [entity "Q5"]) ].

(** Pedigree collapse: the father Q2 and the mother Q3 of Q1 have the same
    father Q4. *)
Definition collapse : Externals :=
  world
    [ ("Q1", [("birth", "1420-01-01T00:00:00Z"); ("father", entity "Q2");
              ("mother", entity "Q3")]);
      ("Q2", [("birth", "1400-01-01T00:00:00Z"); ("father", entity "Q4")]);
      ("Q3", [("birth", "1402-01-01T00:00:00Z"); ("father", entity "Q4")]);
      ("Q4", [("birth", "1380-01-01T00:00:00Z")]) ]
    [].

(** The first binding of either query is a number. *)
Definition odd_binding : Externals :=
  {| strptime_Ymd := strptime;
     query_person := λ _, Returned (results [JNum 5]);
     query_children := λ _, Returned (results [JNum 5]) |}.

(** An endpoint that cannot be reached. *)
Definition offline : Externals :=
  {| strptime_Ymd := strptime;
     query_person := λ _, Failed (OtherError "URLError");
     query_children := λ _, Failed (OtherError "URLError") |}.

(** A [strptime] that accepts the year 0000. *)
Definition proleptic : Externals :=
  {| strptime_Ymd := λ s, if String.eqb s "0000-01-01" then Returned (Date 0 1 1) else strptime s;
     query_person := person_endpoint [];
     query_children := children_endpoint [] |}.

Definition run (W : Externals) (fuel : nat) (root : string) : res unit * State :=
  @emit_person_with_ancestors_and_descendants W defaults fuel root init_state.

(** The state of the run of [chain] from Q3 when the emission starts. *)
Definition chain_collected : State :=
  (@collect chain defaults true "Q3" (@get_person chain "Q3" init_state).2).2.

(** Generations of [chain], counted from the grandfather. *)
Definition chain_rank (q : string) : nat :=
  if String.eqb q "Q3" then 2 else if String.eqb q "Q2" then 1 else 0.

(** The state of the run of [cycle] from Q1 when the emission starts. *)
Definition cycle_collected : State :=
  (@collect cycle defaults true "Q1" (@get_person cycle "Q1" init_state).2).2.

Definition born (b : string) (d : option string) : Person :=
  {| qid := "Q1"; label_en := None; label_ja := None; birth := Some b; death := d;
     father_qid := None; mother_qid := None; birth_place_en := None |}.

End Demo.

(** * Properties *)

(** ** Dates and liveness *)

Lemma date_ltb_negb_leb (a b : date) : date_ltb a b = negb (date_leb b a).
Proof.
  destruct a as [ya ma da], b as [yb mb db]; unfold date_ltb, date_leb; simpl.
  destruct (Z.ltb_spec ya yb), (Z.ltb_spec yb ya), (Z.eqb_spec ya yb), (Z.eqb_spec yb ya),
    (Z.ltb_spec ma mb), (Z.ltb_spec mb ma), (Z.eqb_spec ma mb), (Z.eqb_spec mb ma),
    (Z.ltb_spec da db), (Z.leb_spec db da); simpl; try reflexivity; lia.
Qed.

Lemma date_ltb_irrefl (a : date) : date_ltb a a = false.
Proof.
  destruct a as [y m d]; unfold date_ltb; simpl.
  rewrite !Z.ltb_irrefl, !Z.eqb_refl. reflexivity.
Qed.

Section liveness.
Context `{Externals}.

Lemma parse_iso_date_cases (s : option string) :
  (unparsable s ∧ parse_iso_date s = Ok None)
  ∨ (∃ str dt, s = Some str ∧ strptime_Ymd (PyStr.take 10 str) = Returned dt
               ∧ (0 < year dt)%Z ∧ parse_iso_date s = Ok (Some dt)).
Proof.
  destruct s as [str|]; [|left; split; [exact I|reflexivity]].
  unfold parse_iso_date, unparsable.
  destruct str as [|c str']; [left; split; [left|]; reflexivity|].
  cbn [PyStr.is_empty].
  destruct (strptime_Ymd _) as [dt|e] eqn:E; cbn [call].
  - destruct (Z.leb_spec (year dt) 0).
    + left. split; [right; right; eauto|reflexivity].
    + right. eauto 10.
  - left. split; [right; left; eauto|reflexivity].
Qed.

Lemma iso_to_eu_date_cases (s : option string) :
  (unparsable s ∧ iso_to_eu_date s = Ok None)
  ∨ (∃ text, iso_to_eu_date s = Ok (Some text)).
Proof.
  destruct s as [str|]; [|left; split; [exact I|reflexivity]].
  unfold iso_to_eu_date, unparsable.
  destruct str as [|c str']; [left; split; [left|]; reflexivity|].
  cbn [PyStr.is_empty].
  destruct (strptime_Ymd _) as [dt|e] eqn:E; cbn [call].
  - destruct (Z.leb_spec (year dt) 0).
    + left. split; [right; right; eauto|reflexivity].
    + right. eauto.
  - left. split; [right; left; eauto|reflexivity].
Qed.

Lemma parse_iso_date_total (s : option string) : ∃ r, parse_iso_date s = Ok r.
Proof.
  destruct (parse_iso_date_cases s) as [[_ E]|(str & dt & _ & _ & _ & E)]; eauto.
Qed.

Lemma unparsable_parse (s : option string) : unparsable s → parse_iso_date s = Ok None.
Proof.
  intros U. destruct (parse_iso_date_cases s) as [[_ E]|(str & dt & -> & E & Hy & Ep)]; [exact E|].
  destruct U as [->|[[e U]|(dt' & U & Hy')]].
  - discriminate Ep.
  - rewrite E in U. discriminate U.
  - rewrite E in U. injection U as <-. lia.
Qed.

Lemma is_alive_on_unfold (P : Person) (ref : date) (rb : bool) (b d : option date) :
  parse_iso_date (birth P) = Ok b → parse_iso_date (death P) = Ok d →
  is_alive_on P ref rb =
    Ok (negb (rb && negb (bool_decide (is_Some b)))
        && negb (match b with Some bd => date_ltb ref bd | None => false end)
        && negb (match d with Some dd => date_leb dd ref | None => false end)).
Proof.
  intros Eb Ed. unfold is_alive_on. rewrite Eb, Ed. cbn.
  destruct (rb && negb (bool_decide (is_Some b))); [reflexivity|].
  destruct (match b with Some bd => date_ltb ref bd | None => false end); [reflexivity|].
  destruct (match d with Some dd => date_leb dd ref | None => false end); reflexivity.
Qed.

Lemma is_alive_on_total (P : Person) (ref : date) (rb : bool) :
  ∃ a, is_alive_on P ref rb = Ok a.
Proof.
  destruct (parse_iso_date_total (birth P)) as [b Eb].
  destruct (parse_iso_date_total (death P)) as [d Ed].
  rewrite (is_alive_on_unfold _ _ _ _ _ Eb Ed). eauto.
Qed.

Lemma is_alive_on_requires_birth (P : Person) (ref : date) :
  parse_iso_date (birth P) = Ok None → is_alive_on P ref true = Ok false.
Proof.
  intros Eb. destruct (parse_iso_date_total (death P)) as [d Ed].
  rewrite (is_alive_on_unfold _ _ _ _ _ Eb Ed). reflexivity.
Qed.

(** C2. [is_alive_on] with [require_birth] set is false for a person
    without a usable birth date; with birth [B] and death [D] known it is
    true exactly on the half-open interval from [B] to [D], so false on [B]
    when [D = B], false when the birth is after the reference date, and
    false when the death is on or before it; with no date known and
    [require_birth] unset it is true. *)
Theorem is_alive_on_half_open (P : Person) (ref : date) :
  (parse_iso_date (birth P) = Ok None → is_alive_on P ref true = Ok false)
  ∧ (∀ B D rb,
       parse_iso_date (birth P) = Ok (Some B) →
       parse_iso_date (death P) = Ok (Some D) →
       is_alive_on P ref rb = Ok (date_leb B ref && date_ltb ref D)
       ∧ (D = B → ref = B → is_alive_on P ref rb = Ok false)
       ∧ (date_ltb ref B = true → is_alive_on P ref rb = Ok false)
       ∧ (date_leb D ref = true → is_alive_on P ref rb = Ok false))
  ∧ (parse_iso_date (birth P) = Ok None → parse_iso_date (death P) = Ok None →
     is_alive_on P ref false = Ok true).
Proof.
  split; [|split].
  - apply is_alive_on_requires_birth.
  - intros B D rb Eb Ed. rewrite (is_alive_on_unfold _ _ _ _ _ Eb Ed).
    assert (bool_decide (is_Some (Some B)) = true) as -> by (apply bool_decide_eq_true; eauto).
    rewrite andb_false_r. cbn [negb andb].
    rewrite (date_ltb_negb_leb ref B), (date_ltb_negb_leb ref D), negb_involutive.
    split; [reflexivity|]. split; [|split].
    + intros -> ->. destruct (date_leb B B); reflexivity.
    + intros L. apply negb_true_iff in L. rewrite L. reflexivity.
    + intros L. rewrite L. cbn [negb]. rewrite andb_false_r. reflexivity.
  - intros Eb Ed. rewrite (is_alive_on_unfold _ _ _ _ _ Eb Ed). reflexivity.
Qed.

(** C10. The date helpers never raise: each returns a value for every
    input, and that value is [None] for an unusable date, in particular
    when [strptime] rejects the first ten characters or the year it parsed
    is not positive; a person whose recorded birth date is unusable fails
    [is_alive_on] whenever [require_birth] is set. *)
Theorem date_helpers_total (s : option string) :
  (∃ r, parse_iso_date s = Ok r)
  ∧ (∃ r, iso_to_eu_date s = Ok r)
  ∧ (unparsable s → parse_iso_date s = Ok None ∧ iso_to_eu_date s = Ok None)
  ∧ (unparsable s → ∀ P ref, birth P = s → is_alive_on P ref true = Ok false).
Proof.
  split; [apply parse_iso_date_total|]. split; [|split].
  - destruct (iso_to_eu_date_cases s) as [[_ E]|[t E]]; eauto.
  - intros U. split; [apply unparsable_parse, U|].
    destruct (iso_to_eu_date_cases s) as [[_ E]|[t E]]; [exact E|].
    exfalso. destruct s as [str|]; [|discriminate E].
    unfold iso_to_eu_date in E. destruct U as [->|[[e U]|(dt & U & Hy)]].
    + discriminate E.
    + destruct (PyStr.is_empty str); [discriminate E|].
      rewrite U in E. discriminate E.
    + destruct (PyStr.is_empty str); [discriminate E|].
      rewrite U in E. cbn [call] in E.
      destruct (Z.leb_spec (year dt) 0); [discriminate E|lia].
  - intros U P ref <-. apply is_alive_on_requires_birth, unparsable_parse, U.
Qed.

End liveness.

Lemma is_alive_on_half_open_witness :
  @is_alive_on Demo.chain (blank_person "Q1") CUTOFF_DATE true = Ok false
  ∧ @is_alive_on Demo.chain (Demo.born "1400-01-01" (Some "1450-01-01")) CUTOFF_DATE true
    = Ok (date_leb (Date 1400 1 1) CUTOFF_DATE && date_ltb CUTOFF_DATE (Date 1450 1 1))
  ∧ @is_alive_on Demo.chain (blank_person "Q1") CUTOFF_DATE false = Ok true.
Proof.
  split; [|split].
  - apply (proj1 (@is_alive_on_half_open Demo.chain (blank_person "Q1") CUTOFF_DATE)).
    reflexivity.
  - apply (proj1 (proj2 (@is_alive_on_half_open Demo.chain
             (Demo.born "1400-01-01" (Some "1450-01-01")) CUTOFF_DATE))
             (Date 1400 1 1) (Date 1450 1 1) true); reflexivity.
  - apply (proj2 (proj2 (@is_alive_on_half_open Demo.chain (blank_person "Q1") CUTOFF_DATE)));
      reflexivity.
Defined.

Lemma date_helpers_total_witness :
  (@parse_iso_date Demo.chain (Some "-0500-01-01") = Ok None
   ∧ @iso_to_eu_date Demo.chain (Some "-0500-01-01") = Ok None)
  ∧ @is_alive_on Demo.proleptic (Demo.born "0000-01-01" None) CUTOFF_DATE true = Ok false.
Proof.
  split.
  - apply (proj1 (proj2 (proj2 (@date_helpers_total Demo.chain (Some "-0500-01-01"))))).
    right. left. eexists. reflexivity.
  - apply (proj2 (proj2 (proj2 (@date_helpers_total Demo.proleptic (Some "0000-01-01"))))
             ltac:(right; right; exists (Date 0 1 1); split; [reflexivity|cbn; lia])
             (Demo.born "0000-01-01" None) CUTOFF_DATE eq_refl).
Defined.

(** ** Queries *)

Arguments PyStr.rsplit_last : simpl never.
Arguments PyStr.strip : simpl never.
Arguments PyStr.lower : simpl never.
Arguments PyStr.take : simpl never.
Arguments fullmatch_qid : simpl never.
Arguments normalize_qid : simpl never.

Section query_properties.
Context `{Externals}.

Lemma first_binding_returns (q : string) : first_binding q ≠ OutOfFuel.
Proof.
  unfold first_binding. destruct (query_person q) as [doc|e]; cbn; [|discriminate].
  destruct doc as [| | | |l|kv]; cbn; try discriminate.
  destruct (Py.assoc "results" kv) as [r|]; cbn; [|discriminate].
  destruct r as [| | | |l|kv']; cbn; try discriminate.
  destruct (Py.assoc "bindings" kv') as [b|]; cbn; [|discriminate].
  destruct b as [| | |[|c s]|[|x l]|kv'']; cbn; discriminate.
Qed.

Lemma children_bindings_returns (q : string) : children_bindings q ≠ OutOfFuel.
Proof.
  unfold children_bindings. destruct (query_children q) as [doc|e]; cbn; [|discriminate].
  destruct doc as [| | | |l|kv]; cbn; try discriminate.
  destruct (match Py.assoc "results" kv with Some v => v | None => JObj [] end)
    as [| | | |l|kv']; cbn; discriminate.
Qed.

Lemma fetch_person_guard_fails (raw q : string) :
  normalize_qid raw = Ok q → (∀ b, first_binding q ≠ Ok b) →
  fetch_person raw = Ok (blank_person q).
Proof.
  intros N F. unfold fetch_person. rewrite N. cbn.
  destruct (first_binding q) as [b|e|] eqn:E.
  - destruct (F b). reflexivity.
  - reflexivity.
  - destruct (first_binding_returns q E).
Qed.

Lemma fetch_children_guard_fails (raw q : string) :
  normalize_qid raw = Ok q → (∀ bs, children_bindings q ≠ Ok bs) →
  fetch_children_qids raw = Ok [].
Proof.
  intros N F. unfold fetch_children_qids. rewrite N. cbn.
  destruct (children_bindings q) as [b|e|] eqn:E.
  - destruct (F b). reflexivity.
  - reflexivity.
  - destruct (children_bindings_returns q E).
Qed.

Lemma no_first_binding_raises (q : string) (doc : json) :
  query_person q = Returned doc → no_first_binding doc → ∀ b, first_binding q ≠ Ok b.
Proof.
  intros Q N b. unfold first_binding. rewrite Q. cbn.
  destruct doc as [| | | |l|kv]; cbn; try discriminate.
  cbn in N. destruct (Py.assoc "results" kv) as [r|]; cbn; [|discriminate].
  destruct r as [| | | |l|kv']; cbn; try discriminate.
  destruct (Py.assoc "bindings" kv') as [bs|]; cbn; [|discriminate].
  destruct bs as [| | |[|c s]|[|x l]|kv'']; cbn; try discriminate; destruct N.
Qed.

Lemma binding_value_object (b : json) (var : string) :
  is_object b = false → binding_value b var = Raise AttributeError.
Proof. destruct b; cbn; intros E; reflexivity || discriminate E. Qed.

Lemma last_segment_field_raises (x : json) :
  true_non_string x = true → last_segment_field x = Raise AttributeError.
Proof. destruct x as [| | |s| |]; cbn; intros E; try rewrite E; reflexivity || discriminate E. Qed.

Lemma last_segment_field_cases (x : json) :
  last_segment_field x = Raise AttributeError ∨ ∃ o, last_segment_field x = Ok o.
Proof. destruct x as [| | |s| |]; cbn; repeat case_match; eauto. Qed.

(** Reading the six variables of a first binding raises nothing but
    [AttributeError], when it raises. *)
Lemma binding_values_cases (b : json) (var : string) :
  binding_value b var = Raise AttributeError ∨ ∃ v, binding_value b var = Ok v.
Proof.
  unfold binding_value. destruct b as [| | | | |kv]; cbn; eauto.
  destruct (match Py.assoc var kv with Some v => v | None => JObj [] end)
    as [| | | | |kv']; cbn; eauto.
Qed.

Lemma children_step_cases (children : list string) (b : json) :
  children_step children b = Raise AttributeError ∨ ∃ cs, children_step children b = Ok cs.
Proof.
  unfold children_step.
  destruct (binding_values_cases b "child") as [->|[child ->]]; cbn; [left; reflexivity|].
  destruct (Py.truth child); cbn; [|eauto].
  destruct child; eauto. destruct (fullmatch_qid _); eauto.
Qed.

Lemma children_loop_cases (bs : list json) (children : list string) :
  children_loop children bs = Raise AttributeError ∨ ∃ cs, children_loop children bs = Ok cs.
Proof.
  revert children. induction bs as [|b bs IH]; intros children; cbn; [eauto|].
  destruct (children_step_cases children b) as [->|[cs ->]]; cbn; [left; reflexivity|apply IH].
Qed.

Lemma children_loop_object (bs : list json) (children : list string) (b : json) :
  b ∈ bs → is_object b = false → children_loop children bs = Raise AttributeError.
Proof.
  intros I O. revert children. induction I as [b bs|b b' bs I IH]; intros children; cbn.
  - unfold children_step. rewrite (binding_value_object _ _ O). reflexivity.
  - destruct (children_step_cases children b') as [->|[cs ->]]; cbn; [reflexivity|apply IH, O].
Qed.

(** X20. A failure inside the guarded block is absorbed: when the guarded
    block of [fetch_person] fails (the query raises, or the converted
    document has no first binding) the result is the person with every
    optional field absent; when the guarded block of [fetch_children_qids]
    fails, or the document lists no child, the result is the empty list.
    Neither raises then. What passes the guarded block
    is read outside it, and nothing absorbs what that raises: a first
    binding that is not a dictionary, or whose [father] or [mother] value
    is true and not a string, makes [fetch_person] raise [AttributeError];
    a child binding that is not a dictionary makes [fetch_children_qids]
    raise [AttributeError], and bindings that cannot be iterated make it
    raise [TypeError]. *)
Theorem query_failure_absorbed (raw q : string) :
  normalize_qid raw = Ok q →
  ((∀ b, first_binding q ≠ Ok b) → fetch_person raw = Ok (blank_person q))
  ∧ ((∀ bs, children_bindings q ≠ Ok bs) → fetch_children_qids raw = Ok [])
  ∧ (∀ e, query_person q = Failed e → fetch_person raw = Ok (blank_person q))
  ∧ (∀ e, query_children q = Failed e → fetch_children_qids raw = Ok [])
  ∧ (∀ doc, query_person q = Returned doc → no_first_binding doc →
       fetch_person raw = Ok (blank_person q))
  ∧ (∀ doc, query_children q = Returned doc → no_child_bindings doc →
       fetch_children_qids raw = Ok [])
  ∧ (∀ b, first_binding q = Ok b → is_object b = false →
       fetch_person raw = Raise AttributeError)
  ∧ (∀ b var x, first_binding q = Ok b → var = "father" ∨ var = "mother" →
       binding_value b var = Ok x → true_non_string x = true →
       fetch_person raw = Raise AttributeError)
  ∧ (∀ bs b, children_bindings q = Ok (JArr bs) → b ∈ bs → is_object b = false →
       fetch_children_qids raw = Raise AttributeError)
  ∧ (∀ bs, children_bindings q = Ok bs → is_iterable bs = false →
       fetch_children_qids raw = Raise TypeError).
Proof.
  intros N. repeat split.
  - apply fetch_person_guard_fails, N.
  - apply fetch_children_guard_fails, N.
  - intros e Q. apply (fetch_person_guard_fails _ _ N). intros b.
    unfold first_binding. rewrite Q. discriminate.
  - intros e Q. apply (fetch_children_guard_fails _ _ N). intros b.
    unfold children_bindings. rewrite Q. discriminate.
  - intros doc Q D. apply (fetch_person_guard_fails _ _ N).
    eapply no_first_binding_raises; eassumption.
  - intros doc Q D. unfold fetch_children_qids, children_bindings. rewrite N. cbn.
    rewrite Q. cbn.
    destruct doc as [| | | |l|kv]; cbn; try reflexivity.
    cbn in D. destruct (Py.assoc "results" kv) as [r|]; cbn; [|reflexivity].
    destruct r as [| | | |l|kv']; cbn; try reflexivity.
    destruct (Py.assoc "bindings" kv') as [bs|]; cbn; [|reflexivity].
    destruct bs as [| | | |[|x l]|kv'']; cbn; try reflexivity; destruct D.
  - intros b B O. unfold fetch_person. rewrite N. cbn. rewrite B.
    rewrite (binding_value_object b "labelEn" O). reflexivity.
  - intros b var x B V X T. unfold fetch_person. rewrite N. cbn. rewrite B.
    destruct (binding_values_cases b "labelEn") as [->|[v1 ->]]; cbn; [reflexivity|].
    destruct (binding_values_cases b "labelJa") as [->|[v2 ->]]; cbn; [reflexivity|].
    destruct (binding_values_cases b "birth") as [->|[v3 ->]]; cbn; [reflexivity|].
    destruct (binding_values_cases b "death") as [->|[v4 ->]]; cbn; [reflexivity|].
    destruct (binding_values_cases b "father") as [->|[v5 E5]]; cbn; [reflexivity|].
    rewrite E5. cbn.
    destruct (binding_values_cases b "mother") as [->|[v6 E6]]; cbn; [reflexivity|].
    rewrite E6. cbn.
    destruct V as [-> | ->].
    + rewrite X in E5. injection E5 as <-. rewrite (last_segment_field_raises _ T).
      reflexivity.
    + rewrite X in E6. injection E6 as <-.
      destruct (last_segment_field_cases v5) as [->|[o ->]]; cbn; [reflexivity|].
      rewrite (last_segment_field_raises _ T). reflexivity.
  - intros bs b B I O. unfold fetch_children_qids. rewrite N. cbn. rewrite B. cbn.
    apply (children_loop_object _ _ _ I O).
  - intros bs B I. unfold fetch_children_qids. rewrite N. cbn. rewrite B.
    destruct bs; cbn; reflexivity || discriminate I.
Qed.



End query_properties.

Lemma query_failure_absorbed_witness :
  @fetch_person Demo.offline "Q1" = Ok (blank_person "Q1")
  ∧ @fetch_children_qids Demo.offline "Q1" = Ok [].
Proof.
  pose proof (@query_failure_absorbed Demo.offline "Q1" "Q1" eq_refl) as (_ & _ & P & C & _).
  split; [exact (P (OtherError "URLError") eq_refl)|].
  exact (C (OtherError "URLError") eq_refl).
Defined.



(** C8 fails on the code: an unknown-value father reaches [normalize_qid]
    in [gather_ancestors], and the [ValueError] ends the run before
    anything is printed. *)
Lemma malformed_father_ends_run (fuel : nat) :
  fst (Demo.run Demo.genid fuel "Q1") = Raise (ValueError "Invalid QID: 0123abcd")
  ∧ stdout (snd (Demo.run Demo.genid fuel "Q1")) = [].
Proof. split; vm_compute; reflexivity. Qed.

(** C3 fails on the code: the suffixed token of Q3 is not checked against
    the tokens in use, and Q4 already holds it. *)
Lemma id_for_qid_chain_collision :
  fst (Demo.run Demo.collide 3 "Q3") = Ok tt
  ∧ printed_qids (stdout (snd (Demo.run Demo.collide 3 "Q3"))) = ["Q4"; "Q2"; "Q3"]
  ∧ qid_to_char_id (snd (Demo.run Demo.collide 3 "Q3")) !! "Q4" = Some "wd_foo_q3"
  ∧ qid_to_char_id (snd (Demo.run Demo.collide 3 "Q3")) !! "Q3" = Some "wd_foo_q3".
Proof. repeat split; vm_compute; reflexivity. Qed.

(** ** Identifiers that are already normal *)

Lemma digit_not_space (c : ascii) : PyStr.is_digit c = true → PyStr.is_space c = false.
Proof.
  unfold PyStr.is_digit, PyStr.is_space. intros D.
  apply andb_true_iff in D as [D1 D2]. apply Nat.leb_le in D1, D2.
  apply orb_false_iff. split; apply andb_false_iff.
  - right. apply Nat.leb_gt. lia.
  - right. apply Nat.leb_gt. lia.
Qed.

Lemma rstrip_by_none (p : ascii → bool) (s : string) :
  PyStr.all_chars (λ c, negb (p c)) s = true → PyStr.rstrip_by p s = s.
Proof.
  induction s as [|c s IH]; cbn; [reflexivity|].
  intros A. apply andb_true_iff in A as [Pc A]. rewrite (IH A).
  apply negb_true_iff in Pc. rewrite Pc. destruct s; reflexivity.
Qed.

Lemma all_chars_impl (p p' : ascii → bool) (s : string) :
  (∀ c, p c = true → p' c = true) → PyStr.all_chars p s = true → PyStr.all_chars p' s = true.
Proof.
  intros I. induction s as [|c s IH]; cbn; [reflexivity|].
  intros A. apply andb_true_iff in A as [Pc A]. rewrite (I _ Pc), (IH A). reflexivity.
Qed.

Lemma fullmatch_qid_normal (q : string) : fullmatch_qid q = true → normalize_qid q = Ok q.
Proof.
  intros F. unfold normalize_qid.
  assert (PyStr.strip q = q) as ->.
  { unfold fullmatch_qid in F. destruct q as [|c rest]; [discriminate F|].
    apply andb_true_iff in F as [F D]. apply andb_true_iff in F as [Q _].
    apply Ascii.eqb_eq in Q. subst c.
    unfold PyStr.strip, PyStr.strip_by. cbn [PyStr.lstrip_by].
    change (PyStr.is_space "Q") with false. cbv iota.
    apply rstrip_by_none. cbn [PyStr.all_chars]. change (negb (PyStr.is_space "Q")) with true.
    cbn [andb]. revert D. apply all_chars_impl. intros c D.
    rewrite (digit_not_space c D). reflexivity. }
  assert (PyStr.startswith "http" q = false) as ->.
  { unfold fullmatch_qid in F. destruct q as [|c rest]; [discriminate F|].
    apply andb_true_iff in F as [F _]. apply andb_true_iff in F as [Q _].
    apply Ascii.eqb_eq in Q. subst c. reflexivity. }
  rewrite F. reflexivity.
Qed.

Lemma normalize_qid_fullmatch (raw q : string) :
  normalize_qid raw = Ok q → fullmatch_qid q = true.
Proof.
  unfold normalize_qid. intros N.
  destruct (fullmatch_qid _) eqn:F; [|discriminate N]. injection N as <-. exact F.
Qed.

Lemma normalize_qid_idempotent (raw q : string) :
  normalize_qid raw = Ok q → normalize_qid q = Ok q.
Proof. intros N. apply fullmatch_qid_normal, (normalize_qid_fullmatch raw), N. Qed.

Lemma normalize_qid_returns (raw : string) : normalize_qid raw ≠ OutOfFuel.
Proof. unfold normalize_qid. destruct (fullmatch_qid _); discriminate. Qed.

(** ** Running the monad *)

Lemma run_bind {A B} (m : M A) (f : A → M B) (σ : State) :
  (m ≫= f) σ
  = match m σ with
    | (Ok a, σ') => f a σ'
    | (Raise e, σ') => (Raise e, σ')
    | (OutOfFuel, σ') => (OutOfFuel, σ')
    end.
Proof. reflexivity. Qed.

Lemma run_ret {A} (a : A) (σ : State) : (mret a : M A) σ = (Ok a, σ).
Proof. reflexivity. Qed.

Lemma run_lift {A} (r : res A) (σ : State) : lift r σ = (r, σ).
Proof. reflexivity. Qed.

(** [m] relates every state to the state it leaves, whatever its result:
    the rules of [preserves]. *)

Lemma same_preorder {B} (f : State → B) : PreOrder (same f).
Proof. split; [intros σ; reflexivity|intros a b c; unfold same; congruence]. Qed.
#[global] Existing Instance same_preorder.

Section preserves_rules.
Context (R : relation State) `{!PreOrder R}.

Lemma preserves_ret {A} (a : A) : preserves R (mret a : M A).
Proof. intros σ. reflexivity. Qed.

Lemma preserves_lift {A} (r : res A) : preserves R (lift r).
Proof. intros σ. reflexivity. Qed.

Lemma preserves_gets {A} (f : State → A) : preserves R (gets f).
Proof. intros σ. reflexivity. Qed.

Lemma preserves_modify (f : State → State) : (∀ σ, R σ (f σ)) → preserves R (modify f).
Proof. intros F σ. apply F. Qed.

Lemma preserves_bind {A B} (m : M A) (f : A → M B) :
  preserves R m → (∀ a, preserves R (f a)) → preserves R (m ≫= f).
Proof.
  intros Pm Pf σ. rewrite run_bind. specialize (Pm σ).
  destruct (m σ) as [[a|e|] σ1]; cbn in *; [|assumption..].
  etransitivity; [exact Pm|apply Pf].
Qed.

Lemma preserves_when (b : bool) (m : M unit) : preserves R m → preserves R (when b m).
Proof. intros Pm. destruct b; [exact Pm|apply preserves_ret]. Qed.

Lemma preserves_for_each {A} (l : list A) (body : A → M unit) :
  (∀ x, preserves R (body x)) → preserves R (for_each l body).
Proof.
  intros Pb. induction l as [|x l IH]; cbn [for_each]; [apply preserves_ret|].
  apply preserves_bind; [apply Pb|intros _; exact IH].
Qed.

End preserves_rules.

Ltac preserves_step :=
  lazymatch goal with
  | |- preserves _ (let _ := _ in _) => cbv zeta
  | |- preserves _ (mret _) => apply preserves_ret; try apply _
  | |- preserves _ (_ ≫= _) => apply preserves_bind; [try apply _| |intros ?]
  | |- preserves _ (lift _) => apply preserves_lift; try apply _
  | |- preserves _ (gets _) => apply preserves_gets; try apply _
  | |- preserves _ (modify _) => apply preserves_modify; intros ?
  | |- preserves _ (print _) => apply preserves_modify; intros ?
  | |- preserves _ (when _ _) => apply preserves_when; [try apply _|]
  | |- preserves _ (for_each _ _) => apply preserves_for_each; [try apply _|intros ?]
  | |- preserves _ (if ?b then _ else _) => destruct b
  | |- preserves _ (match ?x with _ => _ end) => destruct x
  end.

Ltac preserves_auto := repeat preserves_step; try reflexivity; try assumption.

(** ** Pure code returns *)

Lemma res_bind_returns {A B} (m : res A) (f : A → res B) :
  m ≠ OutOfFuel → (∀ a, f a ≠ OutOfFuel) → m ≫= f ≠ OutOfFuel.
Proof.
  intros Hm Hf. destruct m as [a|e|]; cbn; [apply Hf|discriminate|destruct Hm; reflexivity].
Qed.

Lemma res_bind_ok {A B} (m : res A) (f : A → res B) (b : B) :
  m ≫= f = Ok b → ∃ a, m = Ok a ∧ f a = Ok b.
Proof. destruct m as [a|e|]; cbn; [eauto|discriminate..]. Qed.

Lemma py_get_returns (j : json) (k : string) (d : json) : Py.get j k d ≠ OutOfFuel.
Proof. destruct j; discriminate. Qed.

Lemma binding_value_returns (b : json) (var : string) : binding_value b var ≠ OutOfFuel.
Proof.
  unfold binding_value. apply res_bind_returns; [apply py_get_returns|].
  intros a. apply py_get_returns.
Qed.

Lemma str_field_returns (x : json) : str_field x ≠ OutOfFuel.
Proof. destruct x; cbn; repeat case_match; discriminate. Qed.

Lemma take10_field_returns (x : json) : take10_field x ≠ OutOfFuel.
Proof. destruct x; cbn; repeat case_match; discriminate. Qed.

Lemma last_segment_field_returns (x : json) : last_segment_field x ≠ OutOfFuel.
Proof. destruct x; cbn; repeat case_match; discriminate. Qed.

Section resolver.
Context `{Externals}.

Lemma fetch_person_returns (raw : string) : fetch_person raw ≠ OutOfFuel.
Proof.
  unfold fetch_person. apply res_bind_returns; [apply normalize_qid_returns|]. intros q.
  pose proof (first_binding_returns q) as F.
  destruct (first_binding q) as [b|e|]; [|discriminate|destruct F; reflexivity].
  repeat (apply res_bind_returns;
          [first [apply binding_value_returns|apply str_field_returns
                 |apply take10_field_returns|apply last_segment_field_returns]|intros ?]).
  discriminate.
Qed.

Lemma fetch_person_qid (raw : string) (p : Person) :
  fetch_person raw = Ok p → normalize_qid raw = Ok (qid p).
Proof.
  unfold fetch_person. intros F. apply res_bind_ok in F as (q & N & F). rewrite N.
  destruct (first_binding q) as [b|e|]; [|injection F as <-; reflexivity|discriminate F].
  repeat (apply res_bind_ok in F as (? & _ & F)).
  injection F as <-. reflexivity.
Qed.

Lemma children_loop_returns (bs : list json) (acc : list string) :
  children_loop acc bs ≠ OutOfFuel.
Proof.
  revert acc. induction bs as [|b bs IH]; intros acc; cbn [children_loop]; [discriminate|].
  apply res_bind_returns; [|intros a; apply IH].
  unfold children_step. apply res_bind_returns; [apply binding_value_returns|].
  intros c. destruct (negb (Py.truth c)); [discriminate|].
  destruct c; try discriminate. destruct (fullmatch_qid _); discriminate.
Qed.

Lemma fetch_children_returns (raw : string) : fetch_children_qids raw ≠ OutOfFuel.
Proof.
  unfold fetch_children_qids. apply res_bind_returns; [apply normalize_qid_returns|]. intros q.
  pose proof (children_bindings_returns q) as F.
  destruct (children_bindings q) as [b|e|]; [|discriminate|destruct F; reflexivity].
  apply res_bind_returns; [destruct b; discriminate|]. intros bs. apply children_loop_returns.
Qed.

(** What [fetch_children_qids] returns are identifiers. *)
Lemma children_loop_valid (bs : list json) (acc cs : list string) :
  children_loop acc bs = Ok cs → Forall (λ c, fullmatch_qid c = true) acc →
  Forall (λ c, fullmatch_qid c = true) cs.
Proof.
  revert acc. induction bs as [|b bs IH]; intros acc; cbn [children_loop].
  - intros [= <-] F. exact F.
  - intros L F. apply res_bind_ok in L as (acc' & S & L). apply (IH _ L).
    unfold children_step in S. apply res_bind_ok in S as (c & _ & S).
    destruct (negb (Py.truth c)); [injection S as <-; exact F|].
    destruct c; try discriminate S.
    destruct (fullmatch_qid _) eqn:Q; injection S as <-; [|exact F].
    apply Forall_app. split; [exact F|]. constructor; [exact Q|constructor].
Qed.

Lemma fetch_children_valid (raw : string) (cs : list string) :
  fetch_children_qids raw = Ok cs → Forall (λ c, fullmatch_qid c = true) cs.
Proof.
  unfold fetch_children_qids. intros F. apply res_bind_ok in F as (q & _ & F).
  destruct (children_bindings q) as [b|e|]; [|injection F as <-; constructor|discriminate F].
  apply res_bind_ok in F as (bs & _ & F). apply (children_loop_valid _ _ _ F). constructor.
Qed.

Lemma get_person_run (raw : string) (σ : State) :
  get_person raw σ
  = match normalize_qid raw with
    | Ok q =>
        match person_cache σ !! q with
        | Some p => (Ok p, σ)
        | None =>
            match fetch_person q with
            | Ok p => (Ok p, set_person_cache (<[q := p]> (person_cache σ)) σ)
            | Raise e => (Raise e, σ)
            | OutOfFuel => (OutOfFuel, σ)
            end
        end
    | Raise e => (Raise e, σ)
    | OutOfFuel => (OutOfFuel, σ)
    end.
Proof.
  unfold get_person. rewrite run_bind, run_lift.
  destruct (normalize_qid raw) as [q|e|]; [|reflexivity..].
  rewrite run_bind. cbn [gets]. destruct (person_cache σ !! q) as [p|]; [reflexivity|].
  rewrite run_bind, run_lift. destruct (fetch_person q) as [p|e|]; reflexivity.
Qed.

(** [get_person] only extends the cache, and what it returns is cached
    under the normal form of the identifier. *)
Lemma get_person_inv (raw : string) (σ σ' : State) (r : res Person) :
  get_person raw σ = (r, σ') →
  r ≠ OutOfFuel
  ∧ (∃ c, σ' = set_person_cache c σ ∧ person_cache σ ⊆ c)
  ∧ (cache_ok σ → cache_ok σ')
  ∧ (∀ p, r = Ok p → ∃ q, normalize_qid raw = Ok q ∧ person_cache σ' !! q = Some p).
Proof.
  rewrite get_person_run. intros G.
  assert (σ = set_person_cache (person_cache σ) σ) as Id by (destruct σ; reflexivity).
  assert (∀ e, r = Raise e → σ' = σ →
    r ≠ OutOfFuel
    ∧ (∃ c, σ' = set_person_cache c σ ∧ person_cache σ ⊆ c)
    ∧ (cache_ok σ → cache_ok σ')
    ∧ (∀ p, r = Ok p → ∃ q, normalize_qid raw = Ok q ∧ person_cache σ' !! q = Some p)) as Fail.
  { intros e -> ->. split; [discriminate|]. split; [eauto|]. split; [auto|discriminate]. }
  destruct (normalize_qid raw) as [q|e|] eqn:N;
    [|injection G as <- <-; eapply Fail; reflexivity|destruct (normalize_qid_returns _ N)].
  destruct (person_cache σ !! q) as [p|] eqn:L.
  { injection G as <- <-. split; [discriminate|]. split; [eauto|]. split; [auto|].
    intros p' [= <-]. eauto. }
  pose proof (fetch_person_returns q) as Fr.
  destruct (fetch_person q) as [p|e|] eqn:F;
    [|injection G as <- <-; eapply Fail; reflexivity|destruct Fr; reflexivity].
  injection G as <- <-. split; [discriminate|]. split; [|split].
  - eexists. split; [reflexivity|]. apply insert_subseteq, L.
  - intros C k p'. cbn. intros L'. apply lookup_insert_Some in L' as [[<- <-]|[_ L']].
    + split; [apply (normalize_qid_idempotent raw), N|exact F].
    + apply C, L'.
  - intros p' [= <-]. exists q. split; [reflexivity|]. cbn. apply lookup_insert_eq.
Qed.

Lemma cache_ok_qid (σ : State) (k : string) (p : Person) :
  cache_ok σ → person_cache σ !! k = Some p → qid p = k.
Proof.
  intros C L. destruct (C k p L) as [N F]. apply fetch_person_qid in F.
  rewrite N in F. injection F as ->. reflexivity.
Qed.

End resolver.

(** ** The ancestor collector *)

Local Open Scope nat_scope.

Section ancestors.
Context `{Externals} (cfg : Config).

Lemma state_eta_ancestor_qids (σ : State) : σ = set_ancestor_qids (ancestor_qids σ) σ.
Proof. destruct σ; reflexivity. Qed.

Lemma gather_ancestors_include_run (inc : bool) (p : Person) (q : string) (d : nat) (σ : State) :
  ∃ X, gather_ancestors_include inc p q d σ = (Ok tt, set_ancestor_qids X σ).
Proof.
  unfold gather_ancestors_include. destruct (d =? 0)%nat.
  - destruct inc; cbn; [eauto|]. exists (ancestor_qids σ). f_equal. apply state_eta_ancestor_qids.
  - rewrite run_bind, run_lift. destruct (is_alive_on_total p CUTOFF_DATE true) as [a ->].
    destruct a; cbn; [eauto|]. exists (ancestor_qids σ). f_equal. apply state_eta_ancestor_qids.
Qed.




End ancestors.


(** ** What the closures leave alone *)

Section frames.
Context `{Externals} (cfg : Config) (R : relation State) `{!PreOrder R}.
Hypothesis R_get_person : ∀ raw, preserves R (get_person raw).

Lemma id_for_qid_preserves (raw : string) :
  stable R set_qid_to_char_id → stable R set_used_char_ids →
  preserves R (id_for_qid cfg raw).
Proof.
  intros S1 S2. unfold id_for_qid. preserves_auto; first [apply S1|apply S2|apply R_get_person].
Qed.

Lemma render_character_entry_preserves (person : Person) (char_id : string)
    (refs : bool) (known : option (gset string)) :
  stable R set_qid_to_char_id → stable R set_used_char_ids →
  preserves R (render_character_entry cfg person char_id refs known).
Proof.
  intros S1 S2. unfold render_character_entry.
  preserves_auto; apply id_for_qid_preserves; assumption.
Qed.

Lemma gather_ancestors_preserves (inc : bool) (fuel : nat) (raw : string) (depth : nat) :
  stable R set_visited_ancestors → stable R set_ancestor_trace → stable R set_ancestor_qids →
  preserves R (gather_ancestors cfg inc fuel raw depth).
Proof.
  intros S1 S2 S3. revert raw depth.
  induction fuel as [|fuel IH]; intros raw depth; cbn [gather_ancestors].
  - apply preserves_lift, _.
  - unfold gather_ancestors_include.
    preserves_auto; first [apply R_get_person|apply S3|apply IH|idtac].
    etransitivity; [apply S1|apply S2].
Qed.

Lemma gather_descendants_alive_preserves (raw : string) (depth_remaining : nat) :
  stable R set_descendant_trace → stable R set_descendant_qids →
  preserves R (gather_descendants_alive cfg raw depth_remaining).
Proof.
  intros S1 S2. revert raw.
  induction depth_remaining as [|d IH]; intros raw; cbn [gather_descendants_alive].
  - apply preserves_ret, _.
  - preserves_auto; first [apply R_get_person|apply S1|apply S2|apply IH].
Qed.

Lemma ensure_fathers_round_preserves (frontier : list string) (next : gset string) :
  stable R set_all_qids → preserves R (ensure_fathers_round frontier next).
Proof.
  intros S1. revert next.
  induction frontier as [|q frontier IH]; intros next; cbn [ensure_fathers_round].
  - apply preserves_ret, _.
  - preserves_auto; first [apply R_get_person|apply S1|apply IH].
Qed.

Lemma ensure_fathers_preserves (rounds : nat) (frontier : gset string) :
  stable R set_all_qids → preserves R (ensure_fathers rounds frontier).
Proof.
  intros S1. revert frontier.
  induction rounds as [|n IH]; intros frontier; cbn [ensure_fathers].
  - apply preserves_ret, _.
  - preserves_auto; first [apply ensure_fathers_round_preserves, S1|apply IH].
Qed.

Lemma emit_parents_first_preserves (fuel : nat) (raw : string) :
  stable R set_qid_to_char_id → stable R set_used_char_ids →
  stable R set_stdout → stable R set_emitted →
  preserves R (emit_parents_first cfg fuel raw).
Proof.
  intros S1 S2 S3 S4. revert raw.
  induction fuel as [|fuel IH]; intros raw; cbn [emit_parents_first].
  - apply preserves_lift, _.
  - unfold print_entry. preserves_auto;
      first [apply R_get_person|apply S3|apply S4|apply IH
            |apply id_for_qid_preserves; assumption
            |apply render_character_entry_preserves; assumption].
Qed.

End frames.

Section frame_instances.
Context `{Externals}.

Lemma get_person_same {B} (f : State → B) (raw : string) :
  stable (same f) set_person_cache → preserves (same f) (get_person raw).
Proof.
  intros S σ. destruct (get_person raw σ) as [r σ'] eqn:G.
  destruct (get_person_inv _ _ _ _ G) as (_ & (c & -> & _) & _). apply S.
Qed.

Lemma keeps_cache_ok_preorder : PreOrder keeps_cache_ok.
Proof. split; [intros σ C; exact C|intros a b c Hab Hbc C; apply Hbc, Hab, C]. Qed.

Lemma get_person_keeps_cache_ok (raw : string) : preserves keeps_cache_ok (get_person raw).
Proof.
  intros σ. destruct (get_person raw σ) as [r σ'] eqn:G.
  destruct (get_person_inv _ _ _ _ G) as (_ & _ & C & _). exact C.
Qed.

Lemma cache_grows_preorder : PreOrder cache_grows.
Proof.
  split; [intros σ; unfold cache_grows; reflexivity|].
  intros a b c Hab Hbc. unfold cache_grows in *. etransitivity; eassumption.
Qed.

Lemma get_person_cache_grows (raw : string) : preserves cache_grows (get_person raw).
Proof.
  intros σ. destruct (get_person raw σ) as [r σ'] eqn:G.
  destruct (get_person_inv _ _ _ _ G) as (_ & (c & -> & Sub) & _). exact Sub.
Qed.

End frame_instances.
#[global] Existing Instance keeps_cache_ok_preorder.
#[global] Existing Instance cache_grows_preorder.

(** ** The descendant collector *)

Section descendants.
Context `{Externals} (cfg : Config).

Lemma alive_in_mono (σ σ' : State) (q : string) :
  person_cache σ ⊆ person_cache σ' → alive_in cfg σ q → alive_in cfg σ' q.
Proof.
  intros C (k & p & L & Q & A). exists k, p. split; [|split; assumption].
  eapply lookup_weaken; eassumption.
Qed.

Lemma descended_mono (σ σ' : State) (tr tr' : list (string * nat)) (e : string * nat) :
  person_cache σ ⊆ person_cache σ' → descendant_qids σ ⊆ descendant_qids σ' →
  (∀ x, x ∈ tr → x ∈ tr') →
  descended cfg σ tr e → descended cfg σ' tr' e.
Proof.
  intros C D T (I & A & q' & cs & P & F & J). split; [apply D, I|].
  split; [eapply alive_in_mono; eassumption|]. exists q', cs. auto.
Qed.

Lemma gather_descendants_inv (n : nat) :
  ∀ (raw : string) (σ σ' : State) (r : res unit),
  gather_descendants_alive cfg raw n σ = (r, σ') → cache_ok σ →
  r ≠ OutOfFuel ∧ cache_ok σ'
  ∧ person_cache σ ⊆ person_cache σ' ∧ descendant_qids σ ⊆ descendant_qids σ'
  ∧ ∃ new, descendant_trace σ' = descendant_trace σ ++ new
      ∧ ∀ e, e ∈ new →
          1 ≤ e.2 ∧ (e = (raw, n) ∨ (e.2 < n ∧ descended cfg σ' new e)).
Proof.
  induction n as [|d IH]; intros raw σ σ' r G C; cbn [gather_descendants_alive] in G.
  { injection G as <- <-. split; [discriminate|]. split; [exact C|].
    split; [reflexivity|]. split; [reflexivity|]. exists []. rewrite app_nil_r.
    split; [reflexivity|]. intros e []%elem_of_nil. }
  rewrite run_bind in G. cbn [modify] in G.
  set (σ1 := set_descendant_trace _ σ) in G.
  rewrite run_bind, run_lift in G.
  pose proof (fetch_children_returns raw) as FR.
  destruct (fetch_children_qids raw) as [children|x|] eqn:FC; [| |destruct FR; reflexivity].
  2: { injection G as <- <-. split; [discriminate|]. split; [exact C|].
       split; [reflexivity|]. split; [reflexivity|]. exists [(raw, S d)].
       split; [reflexivity|]. intros e ->%list_elem_of_singleton. split; [cbn; lia|].
       left. reflexivity. }
  pose proof (fetch_children_valid _ _ FC) as Valid. rewrite Forall_forall in Valid.
  set (body := λ child_qid : string, _) in G.
  (* one turn of the loop *)
  assert (∀ c σa σb rr, body c σa = (rr, σb) → c ∈ children → cache_ok σa →
    rr ≠ OutOfFuel ∧ cache_ok σb
    ∧ person_cache σa ⊆ person_cache σb ∧ descendant_qids σa ⊆ descendant_qids σb
    ∧ ∃ new, descendant_trace σb = descendant_trace σa ++ new
        ∧ ∀ e, e ∈ new →
            1 ≤ e.2 ≤ d ∧ e.1 ∈ descendant_qids σb ∧ alive_in cfg σb e.1
            ∧ ((e.2 = d ∧ e.1 ∈ children)
               ∨ ∃ q' cs, (q', S e.2) ∈ new ∧ fetch_children_qids q' = Ok cs ∧ e.1 ∈ cs))
    as Turn.
  { intros c σa σb rr B Ic Ca. unfold body in B.
    assert (∀ (rr' : res unit) σ0, rr' ≠ OutOfFuel → cache_ok σ0 →
      person_cache σa ⊆ person_cache σ0 → descendant_qids σa = descendant_qids σ0 →
      descendant_trace σ0 = descendant_trace σa →
      rr' ≠ OutOfFuel ∧ cache_ok σ0
      ∧ person_cache σa ⊆ person_cache σ0 ∧ descendant_qids σa ⊆ descendant_qids σ0
      ∧ ∃ new, descendant_trace σ0 = descendant_trace σa ++ new
          ∧ ∀ e, e ∈ new →
              1 ≤ e.2 ≤ d ∧ e.1 ∈ descendant_qids σ0 ∧ alive_in cfg σ0 e.1
              ∧ ((e.2 = d ∧ e.1 ∈ children)
                 ∨ ∃ q' cs, (q', S e.2) ∈ new ∧ fetch_children_qids q' = Ok cs ∧ e.1 ∈ cs))
      as Quiet.
    { intros rr' σ0 Rr C0 Sub Dq Tr. split; [exact Rr|]. split; [exact C0|].
      split; [exact Sub|]. split; [rewrite Dq; reflexivity|]. exists [].
      rewrite app_nil_r. split; [exact Tr|]. intros e []%elem_of_nil. }
    rewrite run_bind in B. destruct (get_person c σa) as [rp σ2] eqn:GP.
    destruct (get_person_inv _ _ _ _ GP) as (Rp & (cc & -> & Sub) & C2 & Lk).
    specialize (C2 Ca).
    destruct rp as [child|x|]; [| |destruct Rp; reflexivity].
    2: { injection B as <- <-. apply Quiet; [discriminate|exact C2|exact Sub|reflexivity..]. }
    destruct (Lk child eq_refl) as (q & Nq & Lq).
    rewrite (fullmatch_qid_normal c (Valid c Ic)) in Nq. injection Nq as <-.
    pose proof (cache_ok_qid _ _ _ C2 Lq) as Qc.
    rewrite run_bind, run_lift in B.
    destruct (is_alive_on_total child CUTOFF_DATE (descendants_require_birth cfg)) as [a A].
    rewrite A in B. destruct a; cbn [negb] in B.
    2: { injection B as <- <-. apply Quiet; [discriminate|exact C2|exact Sub|reflexivity..]. }
    rewrite run_bind in B. cbn [gets] in B.
    destruct (bool_decide _) eqn:Seen in B.
    { injection B as <- <-. apply Quiet; [discriminate|exact C2|exact Sub|reflexivity..]. }
    rewrite run_bind in B. cbn [modify] in B.
    set (σ3 := set_descendant_qids _ _) in B.
    destruct (IH _ _ _ _ B C2) as (Rr & Cb & Sb & Db & new & Tb & Pb).
    split; [exact Rr|]. split; [exact Cb|].
    split; [etransitivity; [exact Sub|exact Sb]|].
    split; [etransitivity; [|exact Db]; unfold σ3; cbn; apply union_subseteq_r|].
    exists new. split; [exact Tb|]. intros e Ie. destruct (Pb e Ie) as [One [->|[Lt De]]].
    - cbn in One. cbn [fst snd]. split; [lia|]. split; [apply Db; unfold σ3; cbn; apply elem_of_union; left; apply elem_of_singleton;
                                        reflexivity|].
      split; [|left; split; [reflexivity|rewrite Qc; exact Ic]].
      exists c, child. split; [eapply lookup_weaken; [exact Lq|exact Sb]|].
      split; [reflexivity|exact A].
    - destruct De as (I & Al & Par). split; [lia|]. split; [exact I|]. split; [exact Al|].
      right. exact Par. }
  (* the loop *)
  assert (∀ cs σa σb rr, for_each cs body σa = (rr, σb) → (∀ c, c ∈ cs → c ∈ children) →
    cache_ok σa →
    rr ≠ OutOfFuel ∧ cache_ok σb
    ∧ person_cache σa ⊆ person_cache σb ∧ descendant_qids σa ⊆ descendant_qids σb
    ∧ ∃ new, descendant_trace σb = descendant_trace σa ++ new
        ∧ ∀ e, e ∈ new →
            1 ≤ e.2 ≤ d ∧ e.1 ∈ descendant_qids σb ∧ alive_in cfg σb e.1
            ∧ ((e.2 = d ∧ e.1 ∈ children)
               ∨ ∃ q' cs, (q', S e.2) ∈ new ∧ fetch_children_qids q' = Ok cs ∧ e.1 ∈ cs))
    as Loop.
  { induction cs as [|c cs IHcs]; intros σa σb rr L Sub Ca; cbn [for_each] in L.
    { injection L as <- <-. split; [discriminate|]. split; [exact Ca|].
      split; [reflexivity|]. split; [reflexivity|]. exists []. rewrite app_nil_r.
      split; [reflexivity|]. intros e []%elem_of_nil. }
    rewrite run_bind in L. destruct (body c σa) as [rc σc] eqn:B.
    destruct (Turn _ _ _ _ B) as (Rc & Cc & Sc & Dc & new1 & T1 & P1);
      [apply Sub; left|exact Ca|].
    destruct rc as [[]|x|]; [| |destruct Rc; reflexivity].
    2: { injection L as <- <-. split; [discriminate|]. split; [exact Cc|].
         split; [exact Sc|]. split; [exact Dc|]. exists new1. split; [exact T1|exact P1]. }
    destruct (IHcs _ _ _ L) as (Rb & Cb & Sb & Db & new2 & T2 & P2);
      [intros c' Ic'; apply Sub; right; exact Ic'|exact Cc|].
    split; [exact Rb|]. split; [exact Cb|]. split; [etransitivity; eassumption|].
    split; [etransitivity; eassumption|]. exists (new1 ++ new2).
    split; [rewrite T2, T1, <- app_assoc; reflexivity|].
    intros e [Ie|Ie]%elem_of_app.
    - destruct (P1 e Ie) as (B1 & I1 & A1 & Par). split; [exact B1|].
      split; [apply Db, I1|]. split; [eapply alive_in_mono; [exact Sb|exact A1]|].
      destruct Par as [Par|(q' & cs' & Iq & Fq & Jq)]; [left; exact Par|right].
      exists q', cs'. split; [apply elem_of_app; left; exact Iq|]. split; assumption.
    - destruct (P2 e Ie) as (B2 & I2 & A2 & Par). split; [exact B2|].
      split; [exact I2|]. split; [exact A2|].
      destruct Par as [Par|(q' & cs' & Iq & Fq & Jq)]; [left; exact Par|right].
      exists q', cs'. split; [apply elem_of_app; right; exact Iq|]. split; assumption. }
  destruct (Loop _ _ _ _ G) as (Rb & Cb & Sb & Db & new & Tb & Pb); [auto|exact C|].
  split; [exact Rb|]. split; [exact Cb|]. split; [exact Sb|]. split; [exact Db|].
  exists ((raw, S d) :: new). split; [rewrite Tb; unfold σ1; cbn; rewrite <- app_assoc; reflexivity|].
  intros e [->|Ie]%elem_of_cons; [split; [cbn; lia|left; reflexivity]|].
  destruct (Pb e Ie) as (Be & I & A & Par). split; [lia|]. right. split; [lia|].
  split; [exact I|]. split; [exact A|].
  destruct Par as [[Ed Ic]|(q' & cs' & Iq & Fq & Jq)].
  - exists raw, children. rewrite Ed. split; [left|split; [exact FC|exact Ic]].
  - exists q', cs'. split; [right; exact Iq|]. split; assumption.
Qed.

Lemma fetch_person_normal (raw q : string) :
  normalize_qid raw = Ok q → fetch_person q = fetch_person raw.
Proof.
  intros N. unfold fetch_person. rewrite N, (normalize_qid_idempotent _ _ N). reflexivity.
Qed.

Lemma cache_ok_init : cache_ok init_state.
Proof. intros k p L. cbn in L. rewrite lookup_empty in L. discriminate L. Qed.

(** Without the root entry the run never enters the descendant collector,
    and nothing else writes its fields. *)
Lemma run_from_root_excluded_preserves (R : relation State) `{!PreOrder R}
    (fuel : nat) (q : string) :
  (∀ raw, preserves R (get_person raw)) →
  stable R set_visited_ancestors → stable R set_ancestor_trace → stable R set_ancestor_qids →
  stable R set_all_qids → stable R set_qid_to_char_id → stable R set_used_char_ids →
  stable R set_stdout → stable R set_emitted →
  preserves R (run_from_root cfg false fuel q).
Proof.
  intros G S1 S2 S3 S4 S5 S6 S7 S8. unfold run_from_root, collect, emit_all. cbn [when].
  preserves_auto;
    first [apply gather_ancestors_preserves; assumption
          |apply ensure_fathers_preserves; assumption
          |apply emit_parents_first_preserves; assumption
          |apply S4|apply S8].
Qed.

(** C5. The descendant collector returns or raises; every children query
    it makes after the one for the root is for a person that passed the
    liveness filter and entered the descendant set, one generation below a
    query that returned it, so the subtree of an excluded child is never
    queried; the remaining depth of a query is between 1 and
    [max_descendant_depth], and at remaining depth 0 nothing is done; and a
    run whose root fails the root-inclusion decision makes no children
    query and ends with an empty descendant set. *)
Theorem gather_descendants_alive_only (root : string) (fuel : nat) :
  (∀ σ, descendant_trace σ = [] → cache_ok σ →
     let run := gather_descendants_alive cfg root (max_descendant_depth cfg) σ in
     run.1 ≠ OutOfFuel
     ∧ ∀ e, e ∈ descendant_trace run.2 →
         1 ≤ e.2 ≤ max_descendant_depth cfg
         ∧ (e = (root, max_descendant_depth cfg)
            ∨ descended cfg run.2 (descendant_trace run.2) e))
  ∧ (∀ q σ, gather_descendants_alive cfg q 0 σ = (Ok tt, σ))
  ∧ (¬ root_included cfg root →
     let run := emit_person_with_ancestors_and_descendants cfg fuel root init_state in
     descendant_qids run.2 = ∅ ∧ descendant_trace run.2 = []).
Proof.
  split; [|split].
  - intros σ T C run.
    destruct (gather_descendants_alive cfg root (max_descendant_depth cfg) σ) as [r σ'] eqn:G.
    subst run. cbn [fst snd].
    destruct (gather_descendants_inv _ _ _ _ _ G C) as (R & _ & _ & _ & new & Tr & P).
    rewrite T in Tr. cbn in Tr. subst new. split; [exact R|].
    intros e I. destruct (P e I) as [One [->|[Lt D]]].
    + cbn in One |- *. split; [lia|left; reflexivity].
    + split; [lia|right; exact D].
  - reflexivity.
  - intros Excl run. subst run. unfold emit_person_with_ancestors_and_descendants.
    rewrite run_bind, run_lift.
    destruct (normalize_qid root) as [q|e|] eqn:N; [|split; reflexivity..].
    rewrite run_bind. destruct (get_person q init_state) as [rp σ1] eqn:GP.
    destruct (get_person_inv _ _ _ _ GP) as (_ & (c & -> & _) & C1 & Lk).
    destruct rp as [p|e|]; [|split; reflexivity..].
    destruct (Lk p eq_refl) as (q' & N' & L).
    destruct (C1 cache_ok_init _ _ L) as [_ F].
    rewrite (normalize_qid_idempotent _ _ N) in N'. injection N' as <-.
    rewrite (fetch_person_normal _ _ N) in F.
    rewrite run_bind, run_lift.
    destruct (is_alive_on_total p CUTOFF_DATE false) as [a A]. rewrite A.
    assert (include_root_if_not_alive cfg || a = false) as ->.
    { apply orb_false_iff. split.
      - destruct (include_root_if_not_alive cfg) eqn:I; [|reflexivity].
        destruct Excl. left. exact I.
      - destruct a; [|reflexivity]. destruct Excl. right. exists p. split; assumption. }
    split.
    + apply (run_from_root_excluded_preserves (same descendant_qids)); try (intros ? ?; reflexivity).
      intros raw. apply get_person_same. intros ? ?. reflexivity.
    + apply (run_from_root_excluded_preserves (same descendant_trace)); try (intros ? ?; reflexivity).
      intros raw. apply get_person_same. intros ? ?. reflexivity.
Qed.

End descendants.

Lemma gather_descendants_alive_only_witness :
  let run := @emit_person_with_ancestors_and_descendants Demo.dangling Demo.defaults
               5 "Q2" init_state in
  descendant_qids run.2 = ∅ ∧ descendant_trace run.2 = [].
Proof.
  apply (proj2 (proj2 (@gather_descendants_alive_only Demo.dangling Demo.defaults "Q2" 5))).
  intros [I|(p & F & A)]; [discriminate I|].
  vm_compute in F. injection F as <-. vm_compute in A. discriminate A.
Defined.

(** The run of [Demo.family]: the dead child Q3 is not expanded, so its
    living child Q5 is never reached. *)
Lemma excluded_child_not_expanded :
  (Demo.run Demo.family 10 "Q1").1 = Ok tt
  ∧ descendant_trace (Demo.run Demo.family 10 "Q1").2 = [("Q1", 6); ("Q2", 5); ("Q4", 4)]
  ∧ elements (descendant_qids (Demo.run Demo.family 10 "Q1").2) = ["Q2"; "Q4"]
  ∧ person_cache (Demo.run Demo.family 10 "Q1").2 !! "Q5" = None.
Proof. repeat split; vm_compute; reflexivity. Qed.


(** ** The emitter *)

Arguments printed_qids : simpl never.

Lemma each_after_nil {A} (P : list A → A → Prop) : each_after P [].
Proof. intros pre x post E. destruct pre; discriminate E. Qed.

Lemma each_after_snoc {A} (P : list A → A → Prop) (l : list A) (x : A) :
  each_after P l → P l x → each_after P (l ++ [x]).
Proof.
  intros Hl Hx pre y post E.
  destruct post as [|z post _] using rev_ind.
  - apply app_inj_tail in E as [-> ->]. exact Hx.
  - change (pre ++ y :: post ++ [z]) with (pre ++ (y :: post) ++ [z]) in E.
    rewrite app_assoc in E. apply app_inj_tail in E as [-> _].
    apply (Hl pre y post). reflexivity.
Qed.

Lemma each_after_impl {A} (P Q : list A → A → Prop) (l : list A) :
  (∀ pre x, P pre x → Q pre x) → each_after P l → each_after Q l.
Proof. intros I H pre x post E. apply I, (H pre x post E). Qed.

Lemma printed_app (out out' : list out_item) : printed (out ++ out') = printed out ++ printed out'.
Proof.
  induction out as [|[|p ls] out IH]; cbn; [reflexivity|exact IH|rewrite IH; reflexivity].
Qed.

Lemma printed_qids_app (out out' : list out_item) :
  printed_qids (out ++ out') = printed_qids out ++ printed_qids out'.
Proof. unfold printed_qids. rewrite printed_app, map_app. reflexivity. Qed.

Lemma printed_qids_block (p : Person) (ls : list line) :
  printed_qids [Block p ls] = [qid p].
Proof. reflexivity. Qed.

Lemma printed_ids_app (out out' : list out_item) :
  printed_ids (out ++ out') = printed_ids out ++ printed_ids out'.
Proof.
  induction out as [|[|p ls] out IH]; cbn; [reflexivity|exact IH|].
  rewrite IH, app_assoc. reflexivity.
Qed.

Lemma elem_of_opt_line (mk : string → line) (o : option string) (x : line) :
  x ∈ opt_line mk o → ∃ s, x = mk s.
Proof.
  unfold opt_line. destruct o as [s|]; [|intros []%elem_of_nil].
  destruct (PyStr.is_empty s); [intros []%elem_of_nil|].
  intros ->%list_elem_of_singleton. eauto.
Qed.

Section emitter.
Context `{Externals} (cfg : Config).

Lemma id_for_qid_inv (raw : string) (σ σ' : State) (r : res string) :
  id_for_qid cfg raw σ = (r, σ') →
  r ≠ OutOfFuel
  ∧ stdout σ' = stdout σ ∧ emitted σ' = emitted σ ∧ all_qids σ' = all_qids σ
  ∧ qid_to_char_id σ ⊆ qid_to_char_id σ'
  ∧ (cache_ok σ → cache_ok σ')
  ∧ (∀ c, r = Ok c → ∃ q, normalize_qid raw = Ok q ∧ qid_to_char_id σ' !! q = Some c).
Proof.
  intros G.
  assert (∀ {B} (f : State → B), stable (same f) set_person_cache →
    stable (same f) set_qid_to_char_id → stable (same f) set_used_char_ids →
    f σ' = f σ) as Frame.
  { intros B f S0 S1 S2.
    pose proof (id_for_qid_preserves cfg (same f) (λ raw, get_person_same f raw S0) raw S1 S2 σ)
      as P. rewrite G in P. exact P. }
  assert (cache_ok σ → cache_ok σ') as CO.
  { pose proof (id_for_qid_preserves cfg keeps_cache_ok get_person_keeps_cache_ok raw) as P.
    specialize (P ltac:(intros ? ? C; exact C) ltac:(intros ? ? C; exact C) σ).
    rewrite G in P. exact P. }
  rewrite (Frame _ stdout), (Frame _ emitted), (Frame _ all_qids);
    try (intros ? ?; reflexivity).
  clear Frame. unfold id_for_qid in G. rewrite run_bind, run_lift in G.
  destruct (normalize_qid raw) as [q|e|] eqn:N;
    [|injection G as <- <-; repeat (split; [first [discriminate|reflexivity|exact CO]|]);
      discriminate
     |destruct (normalize_qid_returns _ N)].
  rewrite run_bind in G. cbn [gets] in G.
  destruct (qid_to_char_id σ !! q) as [c|] eqn:L.
  { injection G as <- <-. repeat (split; [first [discriminate|reflexivity|exact CO]|]).
    intros c' [= <-]. eauto. }
  rewrite run_bind in G. destruct (get_person q σ) as [rp σ2] eqn:GP.
  destruct (get_person_inv _ _ _ _ GP) as (Rp & (cc & -> & _) & _ & _).
  destruct rp as [person|e|]; [| |destruct Rp; reflexivity].
  2: { injection G as <- <-. repeat (split; [first [discriminate|reflexivity|exact CO]|]).
       discriminate. }
  cbv zeta in G. rewrite run_bind in G. cbn [gets] in G.
  rewrite run_bind in G. cbn [modify] in G. rewrite run_bind in G. cbn [modify] in G.
  injection G as <- <-. repeat (split; [first [discriminate|reflexivity|exact CO]|]).
  split; [cbn; apply insert_subseteq, L|]. split; [exact CO|].
  intros c [= <-]. exists q. split; [reflexivity|]. cbn. apply lookup_insert_eq.
Qed.

Lemma iso_to_eu_date_total (d : option string) : ∃ r, iso_to_eu_date d = Ok r.
Proof. destruct (iso_to_eu_date_cases d) as [[_ E]|[t E]]; eauto. Qed.

Lemma opt_line_plain (mk : string → line) (o : option string) :
  (∀ s, is_ref (mk s) = false) → Forall (λ l, is_ref l = false) (opt_line mk o).
Proof.
  intros P. apply Forall_forall. intros x (s & ->)%elem_of_opt_line. apply P.
Qed.

Lemma ref_line_inv (b : bool) (raw : string) (mk : string → line) (L : list line)
    (σ σ' : State) (r : res (list line)) :
  (if b then id_for_qid cfg raw ≫= λ x, mret (L ++ [mk x]) else mret L) σ = (r, σ') →
  r ≠ OutOfFuel
  ∧ qid_to_char_id σ ⊆ qid_to_char_id σ'
  ∧ (∀ ls, r = Ok ls →
       (b = false ∧ ls = L)
       ∨ (b = true ∧ ∃ x q, ls = L ++ [mk x] ∧ normalize_qid raw = Ok q
                            ∧ qid_to_char_id σ' !! q = Some x)).
Proof.
  destruct b.
  - rewrite run_bind. destruct (id_for_qid cfg raw σ) as [rx σx] eqn:I.
    destruct (id_for_qid_inv _ _ _ _ I) as (Rx & _ & _ & _ & Mx & _ & Lx).
    destruct rx as [x|e|]; [| |destruct Rx; reflexivity]; intros [= <- <-].
    + split; [discriminate|]. split; [exact Mx|]. intros ls [= <-]. right.
      split; [reflexivity|]. destruct (Lx x eq_refl) as (q & N & Lq). eauto 10.
    + split; [discriminate|]. split; [exact Mx|]. discriminate.
  - intros [= <- <-]. split; [discriminate|]. split; [reflexivity|].
    intros ls [= <-]. left. split; reflexivity.
Qed.

Lemma render_character_entry_inv (person : Person) (cid : string) (known : gset string)
    (σ σ' : State) (r : res (list line)) :
  render_character_entry cfg person cid true (Some known) σ = (r, σ') →
  r ≠ OutOfFuel
  ∧ stdout σ' = stdout σ ∧ emitted σ' = emitted σ ∧ all_qids σ' = all_qids σ
  ∧ qid_to_char_id σ ⊆ qid_to_char_id σ'
  ∧ (cache_ok σ → cache_ok σ')
  ∧ (∀ ls, r = Ok ls →
       block_id ls = [cid]
       ∧ (∀ m, LMother m ∈ ls →
            truthy (mother_qid person) = true ∧ or_str (mother_qid person) "" ∈ known
            ∧ ∃ q, normalize_qid (or_str (mother_qid person) "") = Ok q
                   ∧ qid_to_char_id σ' !! q = Some m)
       ∧ (∀ f, LFather f ∈ ls →
            truthy (father_qid person) = true
            ∧ ∃ q, normalize_qid (or_str (father_qid person) "") = Ok q
                   ∧ qid_to_char_id σ' !! q = Some f)
       ∧ (truthy (father_qid person) = true → ∃ f, LFather f ∈ ls)).
Proof.
  intros G.
  assert (∀ {B} (f : State → B), stable (same f) set_person_cache →
    stable (same f) set_qid_to_char_id → stable (same f) set_used_char_ids →
    f σ' = f σ) as Frame.
  { intros B f S0 S1 S2.
    pose proof (render_character_entry_preserves cfg (same f)
                  (λ raw, get_person_same f raw S0) person cid true (Some known) S1 S2 σ) as P.
    rewrite G in P. exact P. }
  assert (cache_ok σ → cache_ok σ') as CO.
  { pose proof (render_character_entry_preserves cfg keeps_cache_ok get_person_keeps_cache_ok
                  person cid true (Some known)) as P.
    specialize (P ltac:(intros ? ? C; exact C) ltac:(intros ? ? C; exact C) σ).
    rewrite G in P. exact P. }
  rewrite (Frame _ stdout), (Frame _ emitted), (Frame _ all_qids);
    try (intros ? ?; reflexivity).
  clear Frame. unfold render_character_entry in G. cbv zeta in G.
  destruct (iso_to_eu_date_total (birth person)) as [eb Eb].
  destruct (iso_to_eu_date_total (death person)) as [ed Ed].
  destruct (parse_iso_date_total (death person)) as [dd Dd].
  rewrite run_bind, run_lift, Eb in G. rewrite run_bind, run_lift, Ed in G.
  rewrite run_bind, run_lift, Dd in G.
  match type of G with
  | context [if truthy (father_qid person) then _ else mret ?l] => set (L := l) in G
  end.
  assert ((∃ hc rest, L = LOpen cid hc :: rest) ∧ Forall (λ l, is_ref l = false) L) as [HL PL].
  { subst L. split.
    - repeat case_match; cbn; eauto.
    - repeat case_match; repeat (apply Forall_app; split);
        try (apply opt_line_plain; intros; reflexivity); repeat constructor. }
  clearbody L.
  assert (∀ x, x ∈ L → is_ref x = false) as PL' by (apply Forall_forall, PL). clear PL.
  rewrite run_bind in G. rewrite run_bind in G.
  match type of G with
  | context [(if truthy (father_qid person) then ?a else ?b) σ] =>
      destruct ((if truthy (father_qid person) then a else b) σ) as [r1 σ1] eqn:G1
  end.
  destruct (ref_line_inv _ _ _ _ _ _ _ G1) as (R1 & M1 & P1).
  destruct r1 as [lines1|e|]; [| |destruct R1; reflexivity].
  2: { injection G as <- <-. repeat (split; [first [discriminate|reflexivity|exact CO|exact M1]|]).
       discriminate. }
  match type of G with
  | context [(if ?c then ?a else ?b) σ1] =>
      destruct ((if c then a else b) σ1) as [r2 σ2] eqn:G2
  end.
  destruct (ref_line_inv _ _ _ _ _ _ _ G2) as (R2 & M2 & P2).
  assert (qid_to_char_id σ ⊆ qid_to_char_id σ2) as M12 by (etransitivity; eassumption).
  destruct r2 as [lines2|e|]; [| |destruct R2; reflexivity].
  2: { injection G as <- <-. repeat (split; [first [discriminate|reflexivity|exact CO|exact M12]|]).
       discriminate. }
  injection G as <- <-. repeat (split; [first [discriminate|reflexivity|exact CO|exact M12]|]).
  intros ls [= <-]. destruct HL as (hc & rest & HL).
  specialize (P1 _ eq_refl). specialize (P2 _ eq_refl).
  assert (∀ x, x ∈ opt_line LTag (tag cfg) ++ [LClose] → is_ref x = false) as Tail.
  { intros x [(t & ->)%elem_of_opt_line| ->%list_elem_of_singleton]%elem_of_app; reflexivity. }
  rewrite <- app_assoc.
  destruct P1 as [[TF ->]|[TF (f & qf & -> & Nf & Lf)]];
    destruct P2 as [[TM ->]|[TM (m & qm & -> & Nm & Lm)]].
  - split; [rewrite HL; reflexivity|]. split; [|split].
    + intros m [I|I]%elem_of_app; [apply PL' in I|apply Tail in I]; discriminate I.
    + intros f [I|I]%elem_of_app; [apply PL' in I|apply Tail in I]; discriminate I.
    + rewrite TF. discriminate.
  - apply andb_true_iff in TM as [TM KM]. apply bool_decide_eq_true in KM.
    split; [rewrite HL; reflexivity|]. split; [|split].
    + intros m' [[I|I]%elem_of_app|I]%elem_of_app;
        [apply PL' in I; discriminate I| |apply Tail in I; discriminate I].
      apply list_elem_of_singleton in I. injection I as ->. eauto 10.
    + intros f [[I|I]%elem_of_app|I]%elem_of_app;
        [apply PL' in I; discriminate I| |apply Tail in I; discriminate I].
      apply list_elem_of_singleton in I. discriminate I.
    + rewrite TF. discriminate.
  - split; [rewrite HL; reflexivity|]. split; [|split].
    + intros m' [[I|I]%elem_of_app|I]%elem_of_app;
        [apply PL' in I; discriminate I| |apply Tail in I; discriminate I].
      apply list_elem_of_singleton in I. discriminate I.
    + intros f' [[I|I]%elem_of_app|I]%elem_of_app;
        [apply PL' in I; discriminate I| |apply Tail in I; discriminate I].
      apply list_elem_of_singleton in I. injection I as ->. split; [exact TF|].
      exists qf. split; [exact Nf|]. eapply lookup_weaken; [exact Lf|exact M2].
    + intros _. exists f. apply elem_of_app. left. apply elem_of_app. right. left.
  - apply andb_true_iff in TM as [TM KM]. apply bool_decide_eq_true in KM.
    split; [rewrite HL; reflexivity|]. split; [|split].
    + intros m' [[[I|I]%elem_of_app|I]%elem_of_app|I]%elem_of_app;
        [apply PL' in I; discriminate I| | |apply Tail in I; discriminate I].
      * apply list_elem_of_singleton in I. discriminate I.
      * apply list_elem_of_singleton in I. injection I as ->. eauto 10.
    + intros f' [[[I|I]%elem_of_app|I]%elem_of_app|I]%elem_of_app;
        [apply PL' in I; discriminate I| | |apply Tail in I; discriminate I].
      * apply list_elem_of_singleton in I. injection I as ->. split; [exact TF|].
        exists qf. split; [exact Nf|]. eapply lookup_weaken; [exact Lf|exact M2].
      * apply list_elem_of_singleton in I. discriminate I.
    + intros _. exists f. apply elem_of_app. left. apply elem_of_app. left.
      apply elem_of_app. right. left.
Qed.

Lemma emit_ext_refl (σ : State) : emit_ext σ σ.
Proof.
  split; [reflexivity|]. split; [exists []; rewrite app_nil_r; reflexivity|].
  split; reflexivity.
Qed.

Lemma emit_ext_trans (σ1 σ2 σ3 : State) : emit_ext σ1 σ2 → emit_ext σ2 σ3 → emit_ext σ1 σ3.
Proof.
  intros (M1 & [m1 O1] & E1 & A1) (M2 & [m2 O2] & E2 & A2).
  split; [etransitivity; eassumption|].
  split; [exists (m1 ++ m2); rewrite O2, O1, app_assoc; reflexivity|].
  split; [etransitivity; eassumption|congruence].
Qed.

Lemma emit_ext_quiet (σ σ' : State) :
  qid_to_char_id σ ⊆ qid_to_char_id σ' → stdout σ' = stdout σ → emitted σ' = emitted σ →
  all_qids σ' = all_qids σ → emit_ext σ σ'.
Proof.
  intros M O E A. split; [exact M|]. split; [exists []; rewrite app_nil_r; exact O|].
  split; [rewrite E; reflexivity|exact A].
Qed.

Lemma emit_inv_quiet (σ σ' : State) :
  emit_inv σ → cache_ok σ' → qid_to_char_id σ ⊆ qid_to_char_id σ' →
  stdout σ' = stdout σ → emitted σ' = emitted σ → all_qids σ' = all_qids σ → emit_inv σ'.
Proof.
  intros (_ & J & Rf & Pf) C M O E A. split; [exact C|]. rewrite O, E, A.
  split; [|split; assumption].
  intros q I. destruct (J q I) as (Iq & c & Lc & Ic). split; [exact Iq|].
  exists c. split; [eapply lookup_weaken; eassumption|exact Ic].
Qed.

Lemma once_inv_quiet (σ σ' : State) :
  once_inv σ → stdout σ' = stdout σ → emitted σ' = emitted σ → once_inv σ'.
Proof. intros [N E] O Em. unfold once_inv. rewrite O, Em. split; assumption. Qed.

(** The end of [emit_parents_first]: with the parents in the set already
    emitted, the block is printed after them. *)
Lemma print_entry_inv (person : Person) (q : string) (σ σ' : State) (r : res unit) :
  print_entry cfg person q (all_qids σ) σ = (r, σ') →
  emit_inv σ → person_cache σ !! q = Some person →
  (∀ par, par ∈ parents person → par ∈ all_qids σ →
     ∃ q', normalize_qid par = Ok q' ∧ q' ∈ emitted σ) →
  r ≠ OutOfFuel ∧ emit_inv σ' ∧ emit_ext σ σ'
  ∧ ((r ≠ Ok tt ∧ emitted σ' = emitted σ
      ∧ printed_qids (stdout σ') = printed_qids (stdout σ))
     ∨ (r = Ok tt ∧ emitted σ' = {[q]} ∪ emitted σ
        ∧ printed_qids (stdout σ') = printed_qids (stdout σ) ++ [q])).
Proof.
  intros G Inv Lq Par. unfold print_entry in G.
  pose proof Inv as (C & J & Rf & Pf).
  destruct (C _ _ Lq) as [Nq _]. pose proof (cache_ok_qid _ _ _ C Lq) as Qp.
  rewrite run_bind in G. cbn [gets] in G. rewrite run_bind in G.
  (* the separator *)
  destruct (when (negb (bool_decide (emitted σ = ∅))) (print Blank) σ) as [r1 σ1] eqn:G1.
  assert (r1 = Ok tt ∧ ∃ sep, σ1 = set_stdout (stdout σ ++ sep) σ
          ∧ printed_qids sep = [] ∧ printed_ids sep = []
          ∧ each_after (refs_resolved_at (all_qids σ)) (stdout σ ++ sep)
          ∧ each_after (parents_first_at (all_qids σ)) (stdout σ ++ sep)) as (-> & sep & -> & Sq & Si & Rf1 & Pf1).
  { destruct (negb _); cbn in G1; injection G1 as <- <-; (split; [reflexivity|]).
    - exists [Blank]. repeat (split; [reflexivity|]).
      split; apply each_after_snoc; try assumption; exact I.
    - exists []. rewrite app_nil_r. split; [destruct σ; reflexivity|].
      repeat (split; [reflexivity|]). split; assumption. }
  set (σ1 := set_stdout (stdout σ ++ sep) σ) in *.
  assert (emit_inv σ1) as Inv1.
  { split; [exact C|]. split; [|split; assumption]. unfold σ1. cbn.
    rewrite printed_qids_app, printed_ids_app, Sq, Si, !app_nil_r. exact J. }
  assert (emit_ext σ σ1) as Ext1.
  { split; [reflexivity|]. split; [exists sep; reflexivity|]. split; reflexivity. }
  assert (printed_qids (stdout σ1) = printed_qids (stdout σ)) as Pq1.
  { unfold σ1. cbn. rewrite printed_qids_app, Sq, app_nil_r. reflexivity. }
  assert (printed_ids (stdout σ1) = printed_ids (stdout σ)) as Pi1.
  { unfold σ1. cbn. rewrite printed_ids_app, Si, app_nil_r. reflexivity. }
  (* the identifier *)
  rewrite run_bind in G. destruct (id_for_qid cfg (qid person) σ1) as [rc σ2] eqn:G2.
  destruct (id_for_qid_inv _ _ _ _ G2) as (Rc & O2 & E2 & A2 & M2 & C2 & L2).
  assert (emit_inv σ2) as Inv2 by (apply (emit_inv_quiet σ1); auto).
  assert (emit_ext σ σ2) as Ext2
    by (eapply emit_ext_trans; [exact Ext1|apply emit_ext_quiet; assumption]).
  destruct rc as [cid|e|]; [| |destruct Rc; reflexivity].
  2: { injection G as <- <-. split; [discriminate|]. split; [exact Inv2|]. split; [exact Ext2|].
       left. split; [discriminate|]. split; [rewrite E2; reflexivity|].
       rewrite O2. exact Pq1. }
  destruct (L2 cid eq_refl) as (q0 & N0 & Lc). rewrite Qp, Nq in N0. injection N0 as <-.
  (* the lines *)
  rewrite run_bind in G.
  destruct (render_character_entry cfg person cid true (Some (all_qids σ)) σ2) as [rl σ3] eqn:G3.
  destruct (render_character_entry_inv _ _ _ _ _ _ G3) as (Rl & O3 & E3 & A3 & M3 & C3 & L3).
  assert (emit_inv σ3) as Inv3 by (apply (emit_inv_quiet σ2); auto; apply C3, Inv2).
  assert (emit_ext σ σ3) as Ext3
    by (eapply emit_ext_trans; [exact Ext2|apply emit_ext_quiet; assumption]).
  destruct rl as [lines|e|]; [| |destruct Rl; reflexivity].
  2: { injection G as <- <-. split; [discriminate|]. split; [exact Inv3|]. split; [exact Ext3|].
       left. split; [discriminate|]. split; [rewrite E3, E2; reflexivity|].
       rewrite O3, O2. exact Pq1. }
  destruct (L3 lines eq_refl) as (Bid & Mo & Fa & HasFa).
  (* the block *)
  rewrite run_bind in G. cbn [print modify] in G. cbn [modify] in G.
  injection G as <- <-. split; [discriminate|].
  pose proof Inv3 as (_ & J3 & Rf3 & Pf3).
  assert (∀ par, par ∈ parents person → par ∈ all_qids σ →
    ∃ q', normalize_qid par = Ok q' ∧ q' ∈ printed_qids (stdout σ3)
          ∧ ∃ c, qid_to_char_id σ3 !! q' = Some c ∧ c ∈ printed_ids (stdout σ3)) as Par3.
  { intros par Ip Ik. destruct (Par par Ip Ik) as (q' & N' & Ie). exists q'.
    split; [exact N'|]. apply J3. rewrite E3, E2. exact Ie. }
  split; [|split].
  - split; [exact (proj1 Inv3)|]. cbn. split; [|split].
    + intros x [->%elem_of_singleton|Ix]%elem_of_union.
      * rewrite printed_qids_app, printed_ids_app, printed_qids_block. cbn.
        rewrite Bid, Qp. split.
        { apply elem_of_app. right. left. }
        exists cid. split; [eapply lookup_weaken; [exact Lc|exact M3]|].
        apply elem_of_app. right. left.
      * destruct (J3 x Ix) as (Iq & c & Lx & Ic). rewrite printed_qids_app, printed_ids_app.
        split; [apply elem_of_app; left; exact Iq|]. exists c. split; [exact Lx|].
        apply elem_of_app. left. exact Ic.
    + rewrite A3, A2. apply each_after_snoc; [rewrite <- A2, <- A3; exact Rf3|].
      cbn. split; [|split; [|exact HasFa]].
      * intros m Im. destruct (Mo m Im) as (TM & KM & qm & Nm & Lm).
        split; [exact TM|]. split; [exact KM|].
        destruct (Par3 (or_str (mother_qid person) "")) as (q' & N' & _ & c & Lc' & Ic');
          [unfold parents; apply elem_of_app; right; rewrite TM; left|exact KM|].
        rewrite Nm in N'. injection N' as <-. rewrite Lm in Lc'. injection Lc' as <-. exact Ic'.
      * intros f If. destruct (Fa f If) as (TF & qf & Nf & Lf). split; [exact TF|]. intros KF.
        destruct (Par3 (or_str (father_qid person) "")) as (q' & N' & _ & c & Lc' & Ic');
          [unfold parents; apply elem_of_app; left; rewrite TF; left|exact KF|].
        rewrite Nf in N'. injection N' as <-. rewrite Lf in Lc'. injection Lc' as <-. exact Ic'.
    + rewrite A3, A2. apply each_after_snoc; [rewrite <- A2, <- A3; exact Pf3|].
      cbn. intros par Ip Ik. destruct (Par3 par Ip Ik) as (q' & N' & Iq & _). eauto.
  - destruct Ext3 as (M & [more O] & E & A). split; [exact M|]. split; [|split].
    + cbn. exists (more ++ [Block person lines]). rewrite O, app_assoc. reflexivity.
    + cbn. etransitivity; [exact E|]. apply union_subseteq_r.
    + exact A.
  - right. split; [reflexivity|]. cbn. split; [rewrite E3, E2; reflexivity|].
    rewrite printed_qids_app, printed_qids_block, O3, O2, Pq1, Qp. reflexivity.
Qed.

Lemma emit_parents_first_cache (fuel : nat) (raw : string) (b : bool) (σ σ' : State)
    (r : res unit) :
  when b (emit_parents_first cfg fuel raw) σ = (r, σ') → person_cache σ ⊆ person_cache σ'.
Proof.
  intros G.
  pose proof (preserves_when cache_grows b _
    (emit_parents_first_preserves cfg cache_grows get_person_cache_grows fuel raw
       ltac:(intros ? ?; unfold cache_grows; cbn; reflexivity)
       ltac:(intros ? ?; unfold cache_grows; cbn; reflexivity)
       ltac:(intros ? ?; unfold cache_grows; cbn; reflexivity)
       ltac:(intros ? ?; unfold cache_grows; cbn; reflexivity)) σ) as P.
  rewrite G in P. exact P.
Qed.

Lemma emit_parents_first_inv (fuel : nat) :
  ∀ (raw : string) (σ σ' : State) (r : res unit),
  emit_parents_first cfg fuel raw σ = (r, σ') → emit_inv σ →
  emit_inv σ' ∧ emit_ext σ σ'
  ∧ (r = Ok tt → ∃ q, normalize_qid raw = Ok q ∧ q ∈ emitted σ')
  ∧ (∀ rank, ranked (all_qids σ) rank → once_inv σ →
       once_inv σ'
       ∧ (∀ x, x ∈ emitted σ' →
            x ∈ emitted σ ∨ ∃ q, normalize_qid raw = Ok q ∧ rank x ≤ rank q)
       ∧ (1 ≤ fuel → (∀ q, normalize_qid raw = Ok q → rank q + 1 < fuel) →
          r ≠ OutOfFuel)).
Proof.
  induction fuel as [|fuel IH]; intros raw σ σ' r G Inv; cbn [emit_parents_first] in G.
  { injection G as <- <-. split; [exact Inv|]. split; [apply emit_ext_refl|].
    split; [discriminate|]. intros rank Rk On. split; [exact On|].
    split; [intros x Ix; left; exact Ix|]. intros F. lia. }
  assert (∀ rk : res unit, rk ≠ OutOfFuel →
    (rk = Ok tt → ∃ q, normalize_qid raw = Ok q ∧ q ∈ emitted σ) →
    emit_inv σ ∧ emit_ext σ σ
    ∧ (rk = Ok tt → ∃ q, normalize_qid raw = Ok q ∧ q ∈ emitted σ)
    ∧ (∀ rank, ranked (all_qids σ) rank → once_inv σ →
         once_inv σ
         ∧ (∀ x, x ∈ emitted σ →
              x ∈ emitted σ ∨ ∃ q, normalize_qid raw = Ok q ∧ rank x ≤ rank q)
         ∧ (1 ≤ S fuel → (∀ q, normalize_qid raw = Ok q → rank q + 1 < S fuel) →
            rk ≠ OutOfFuel))) as Stay.
  { intros rk Rk O. split; [exact Inv|]. split; [apply emit_ext_refl|]. split; [exact O|].
    intros rank _ On. split; [exact On|]. split; [intros x Ix; left; exact Ix|].
    intros _ _. exact Rk. }
  rewrite run_bind, run_lift in G.
  destruct (normalize_qid raw) as [q|e|] eqn:N;
    [|injection G as <- <-; apply Stay; discriminate|destruct (normalize_qid_returns _ N)].
  rewrite run_bind in G. cbn [gets] in G.
  destruct (bool_decide (q ∈ emitted σ)) eqn:V.
  { injection G as <- <-. apply bool_decide_eq_true in V. apply Stay; [discriminate|].
    intros _. exists q. split; [reflexivity|exact V]. }
  apply bool_decide_eq_false in V. clear Stay.
  (* the person *)
  rewrite run_bind in G. destruct (get_person q σ) as [rp σ2] eqn:GP.
  destruct (get_person_inv _ _ _ _ GP) as (Rp & (c & -> & Sub) & C2 & Lk).
  pose proof Inv as (C & _). specialize (C2 C).
  set (σ2 := set_person_cache c σ) in *.
  assert (emit_inv σ2) as Inv2 by (apply (emit_inv_quiet σ); auto; reflexivity).
  assert (emit_ext σ σ2) as Ext2 by (apply emit_ext_quiet; reflexivity).
  (* leaving with a result that is not [Ok] *)
  assert (∀ (rk : res unit) σk, rk ≠ Ok tt → emit_inv σk → emit_ext σ σk →
    (∀ rank, ranked (all_qids σ) rank → once_inv σ →
       once_inv σk
       ∧ (∀ x, x ∈ emitted σk → x ∈ emitted σ ∨ rank x ≤ rank q)
       ∧ (rank q + 1 < S fuel → rk ≠ OutOfFuel)) →
    emit_inv σk ∧ emit_ext σ σk
    ∧ (rk = Ok tt → ∃ q0, Ok q = Ok q0 ∧ q0 ∈ emitted σk)
    ∧ (∀ rank, ranked (all_qids σ) rank → once_inv σ →
         once_inv σk
         ∧ (∀ x, x ∈ emitted σk → x ∈ emitted σ ∨ ∃ q0, Ok q = Ok q0 ∧ rank x ≤ rank q0)
         ∧ (1 ≤ S fuel → (∀ q0, Ok q = Ok q0 → rank q0 + 1 < S fuel) → rk ≠ OutOfFuel)))
    as Exit.
  { intros rk σk NotOk Ik Ek K. split; [exact Ik|]. split; [exact Ek|].
    split; [intros O; destruct (NotOk O)|]. intros rank Rk On.
    destruct (K rank Rk On) as (Onk & Bk & Tk). split; [exact Onk|]. split.
    - intros x Ix. destruct (Bk x Ix) as [I|I]; [left; exact I|right; eauto].
    - intros _ F. apply Tk, F. reflexivity. }
  destruct rp as [person|e|]; [| |destruct Rp; reflexivity].
  2: { injection G as <- <-. apply Exit; [discriminate|exact Inv2|exact Ext2|].
       intros rank Rk On. split; [exact On|]. split; [intros x Ix; left; exact Ix|].
       discriminate. }
  destruct (Lk person eq_refl) as (q' & N' & Lq).
  rewrite (normalize_qid_idempotent _ _ N) in N'. injection N' as <-.
  destruct (C2 _ _ Lq) as [_ Fq]. pose proof (cache_ok_qid _ _ _ C2 Lq) as Qp.
  rewrite run_bind in G. cbn [gets] in G.
  change (all_qids σ2) with (all_qids σ) in G.
  (* a parent *)
  assert (∀ b raw' σa σb rr,
    when b (emit_parents_first cfg fuel raw') σa = (rr, σb) → emit_inv σa →
    emit_inv σb ∧ emit_ext σa σb
    ∧ (rr = Ok tt → b = true → ∃ q', normalize_qid raw' = Ok q' ∧ q' ∈ emitted σb)
    ∧ (∀ rank, ranked (all_qids σa) rank → once_inv σa →
         once_inv σb
         ∧ (∀ x, x ∈ emitted σb →
              x ∈ emitted σa
              ∨ (b = true ∧ ∃ q', normalize_qid raw' = Ok q' ∧ rank x ≤ rank q'))
         ∧ ((b = true → 1 ≤ fuel ∧ ∀ q', normalize_qid raw' = Ok q' → rank q' + 1 < fuel) →
            rr ≠ OutOfFuel))) as IHw.
  { intros [|] raw' σa σb rr W Ia; cbn [when] in W.
    - destruct (IH _ _ _ _ W Ia) as (Ib & Eb & Ob & Kb). split; [exact Ib|].
      split; [exact Eb|]. split; [intros O _; exact (Ob O)|]. intros rank Rk On.
      destruct (Kb rank Rk On) as (Onb & Bb & Tb). split; [exact Onb|]. split.
      + intros x Ix. destruct (Bb x Ix) as [I|I]; [left; exact I|right; split; [reflexivity|exact I]].
      + intros F. destruct (F eq_refl) as [F1 F2]. apply Tb; assumption.
    - injection W as <- <-. split; [exact Ia|]. split; [apply emit_ext_refl|].
      split; [discriminate|]. intros rank _ On. split; [exact On|].
      split; [intros x Ix; left; exact Ix|]. discriminate. }
  set (fa := or_str (father_qid person) "") in *.
  set (mo := or_str (mother_qid person) "") in *.
  set (bf := truthy (father_qid person) && bool_decide (fa ∈ all_qids σ)) in *.
  set (bm := truthy (mother_qid person) && bool_decide (mo ∈ all_qids σ)) in *.
  assert (bf = true → fa ∈ parents person ∧ fa ∈ all_qids σ) as Pfa.
  { intros B. apply andb_true_iff in B as [T B]. apply bool_decide_eq_true in B.
    split; [|exact B]. unfold parents. rewrite T. apply elem_of_app. left. left. }
  assert (bm = true → mo ∈ parents person ∧ mo ∈ all_qids σ) as Pmo.
  { intros B. apply andb_true_iff in B as [T B]. apply bool_decide_eq_true in B.
    split; [|exact B]. unfold parents. rewrite T. apply elem_of_app. right. left. }
  rewrite run_bind in G.
  destruct (when bf (emit_parents_first cfg fuel fa) σ2) as [r3 σ3] eqn:G3.
  destruct (IHw _ _ _ _ _ G3 Inv2) as (Inv3 & Ext3 & Ok3 & K3).
  pose proof (emit_parents_first_cache _ _ _ _ _ _ G3) as Sub3.
  assert (emit_ext σ σ3) as Ext3' by (eapply emit_ext_trans; [exact Ext2|exact Ext3]).
  assert (∀ rank, ranked (all_qids σ) rank → once_inv σ →
    once_inv σ3
    ∧ (∀ x, x ∈ emitted σ3 → x ∈ emitted σ ∨ rank x < rank q)
    ∧ (rank q + 1 < S fuel → r3 ≠ OutOfFuel)) as K3'.
  { intros rank Rk On. destruct (K3 rank Rk On) as (On3 & B3 & T3). split; [exact On3|].
    split.
    - intros x Ix. destruct (B3 x Ix) as [I|(B & qf & Nf & Le)]; [left; exact I|right].
      destruct (Pfa B) as [Ip Ik]. assert (rank qf < rank q); [|lia].
      apply (Rk q person fa qf) in Nf; [rewrite Qp in Nf|..]; assumption.
    - intros F. apply T3. intros B. split; [lia|]. intros qf Nf.
      destruct (Pfa B) as [Ip Ik]. assert (rank qf < rank q); [|lia].
      apply (Rk q person fa qf) in Nf; [rewrite Qp in Nf|..]; assumption. }
  destruct r3 as [[]|e|].
  2,3: injection G as <- <-; apply Exit; [discriminate|exact Inv3|exact Ext3'|];
       intros rank Rk On; destruct (K3' rank Rk On) as (On3 & B3 & T3);
       split; [exact On3|]; split; [|exact T3];
       intros x Ix; destruct (B3 x Ix) as [I|I]; [left; exact I|right; lia].
  rewrite run_bind in G.
  destruct (when bm (emit_parents_first cfg fuel mo) σ3) as [r4 σ4] eqn:G4.
  destruct (IHw _ _ _ _ _ G4 Inv3) as (Inv4 & Ext4 & Ok4 & K4).
  pose proof (emit_parents_first_cache _ _ _ _ _ _ G4) as Sub4.
  assert (emit_ext σ σ4) as Ext4' by (eapply emit_ext_trans; [exact Ext3'|exact Ext4]).
  assert (all_qids σ3 = all_qids σ) as A3 by (apply Ext3').
  assert (all_qids σ4 = all_qids σ) as A4 by (apply Ext4').
  assert (∀ rank, ranked (all_qids σ) rank → once_inv σ →
    once_inv σ4
    ∧ (∀ x, x ∈ emitted σ4 → x ∈ emitted σ ∨ rank x < rank q)
    ∧ (rank q + 1 < S fuel → r4 ≠ OutOfFuel)) as K4'.
  { intros rank Rk On. destruct (K3' rank Rk On) as (On3 & B3 & _).
    destruct (K4 rank) as (On4 & B4 & T4); [rewrite A3; exact Rk|exact On3|].
    split; [exact On4|]. split.
    - intros x Ix. destruct (B4 x Ix) as [I|(B & qm & Nm & Le)]; [apply B3, I|right].
      destruct (Pmo B) as [Ip Ik]. assert (rank qm < rank q); [|lia].
      apply (Rk q person mo qm) in Nm; [rewrite Qp in Nm|..]; assumption.
    - intros F. apply T4. intros B. split; [lia|]. intros qm Nm.
      destruct (Pmo B) as [Ip Ik]. assert (rank qm < rank q); [|lia].
      apply (Rk q person mo qm) in Nm; [rewrite Qp in Nm|..]; assumption. }
  destruct r4 as [[]|e|].
  2,3: injection G as <- <-; apply Exit; [discriminate|exact Inv4|exact Ext4'|];
       intros rank Rk On; destruct (K4' rank Rk On) as (On4 & B4 & T4);
       split; [exact On4|]; split; [|exact T4];
       intros x Ix; destruct (B4 x Ix) as [I|I]; [left; exact I|right; lia].
  (* the block *)
  rewrite <- A4 in G.
  destruct (print_entry_inv _ _ _ _ _ G Inv4) as (R5 & Inv5 & Ext5 & D5).
  { eapply lookup_weaken; [|exact Sub4]. eapply lookup_weaken; [exact Lq|exact Sub3]. }
  { intros par Ip Ik. rewrite A4 in Ik. unfold parents in Ip.
    apply elem_of_app in Ip as [Ip|Ip].
    - destruct (truthy (father_qid person)) eqn:T; [|apply elem_of_nil in Ip; destruct Ip].
      apply list_elem_of_singleton in Ip. subst par.
      destruct (Ok3 eq_refl) as (qf & Nf & If).
      { unfold bf. cbn [andb]. apply bool_decide_eq_true. exact Ik. }
      exists qf. split; [exact Nf|]. destruct Ext4 as (_ & _ & E & _). apply E, If.
    - destruct (truthy (mother_qid person)) eqn:T; [|apply elem_of_nil in Ip; destruct Ip].
      apply list_elem_of_singleton in Ip. subst par.
      apply (Ok4 eq_refl). unfold bm. cbn [andb]. apply bool_decide_eq_true. exact Ik. }
  split; [exact Inv5|]. split; [eapply emit_ext_trans; [exact Ext4'|exact Ext5]|]. split.
  { intros ->. exists q. split; [reflexivity|].
    destruct D5 as [(NotOk & _)|(_ & E5 & _)]; [destruct NotOk; reflexivity|].
    rewrite E5. apply elem_of_union. left. apply elem_of_singleton. reflexivity. }
  intros rank Rk On. destruct (K4' rank Rk On) as ([ND4 Eq4] & B4 & _).
  assert (q ∉ emitted σ4) as Fresh.
  { intros I. destruct (B4 q I) as [I'|I']; [exact (V I')|lia]. }
  split; [|split].
  - destruct D5 as [(_ & E5 & P5)|(_ & E5 & P5)]; split; rewrite ?E5, ?P5.
    + exact ND4.
    + exact Eq4.
    + apply NoDup_app. split; [exact ND4|]. split; [|apply NoDup_singleton].
      intros x Ix ->%list_elem_of_singleton. apply Fresh, Eq4, Ix.
    + intros x. rewrite elem_of_union, elem_of_app, elem_of_singleton, Eq4,
        list_elem_of_singleton. tauto.
  - intros x Ix.
    assert (x = q ∨ x ∈ emitted σ4) as [->|I4].
    { destruct D5 as [(_ & E5 & _)|(_ & E5 & _)]; rewrite E5 in Ix; [right; exact Ix|].
      apply elem_of_union in Ix as [->%elem_of_singleton|Ix]; [left; reflexivity|right; exact Ix]. }
    + right. exists q. split; [reflexivity|lia].
    + destruct (B4 x I4) as [I|I]; [left; exact I|right]. exists q. split; [reflexivity|lia].
  - intros _ _. exact R5.
Qed.

Lemma emit_each_inv (fuel : nat) (qs : list string) :
  ∀ (σ σ' : State) (r : res unit),
  for_each qs (emit_parents_first cfg fuel) σ = (r, σ') → emit_inv σ →
  emit_inv σ' ∧ emit_ext σ σ'
  ∧ (r = Ok tt → ∀ raw, raw ∈ qs → ∃ q, normalize_qid raw = Ok q ∧ q ∈ emitted σ')
  ∧ (∀ rank, ranked (all_qids σ) rank → once_inv σ →
       once_inv σ' ∧ ((∀ q, rank q + 1 < fuel) → r ≠ OutOfFuel)).
Proof.
  induction qs as [|raw qs IH]; intros σ σ' r G Inv; cbn [for_each] in G.
  { injection G as <- <-. split; [exact Inv|]. split; [apply emit_ext_refl|].
    split; [intros _ raw []%elem_of_nil|]. intros rank _ On. split; [exact On|discriminate]. }
  rewrite run_bind in G. destruct (emit_parents_first cfg fuel raw σ) as [r1 σ1] eqn:G1.
  destruct (emit_parents_first_inv _ _ _ _ _ G1 Inv) as (Inv1 & Ext1 & Ok1 & K1).
  assert (∀ rank, ranked (all_qids σ) rank → once_inv σ →
    once_inv σ1 ∧ ((∀ q, rank q + 1 < fuel) → r1 ≠ OutOfFuel)) as K1'.
  { intros rank Rk On. destruct (K1 rank Rk On) as (On1 & _ & T1). split; [exact On1|].
    intros F. apply T1; [specialize (F ""); lia|]. intros q _. apply F. }
  destruct r1 as [[]|e|]; [|injection G as <- <-..].
  2,3: split; [exact Inv1|]; split; [exact Ext1|]; split; [discriminate|exact K1'].
  destruct (IH _ _ _ G Inv1) as (Inv2 & Ext2 & Ok2 & K2).
  split; [exact Inv2|]. split; [eapply emit_ext_trans; [exact Ext1|exact Ext2]|]. split.
  - intros O x [->|Ix]%elem_of_cons; [|exact (Ok2 O x Ix)].
    destruct (Ok1 eq_refl) as (q & N & I). exists q. split; [exact N|].
    destruct Ext2 as (_ & _ & E & _). apply E, I.
  - intros rank Rk On. destruct (K1' rank Rk On) as [On1 _]. apply K2; [|exact On1].
    destruct Ext1 as (_ & _ & _ & A). rewrite A. exact Rk.
Qed.

Lemma emit_all_run (inc : bool) (fuel : nat) (root : string) (σ : State) :
  emit_all cfg inc fuel root σ
  = for_each (emit_starts inc root σ) (emit_parents_first cfg fuel) σ.
Proof.
  unfold emit_all, emit_starts. destruct inc; [|reflexivity].
  cbn [for_each]. rewrite !run_bind.
  pose proof (emit_parents_first_preserves cfg (same descendant_qids)
    (λ raw, get_person_same descendant_qids raw ltac:(intros ? ?; reflexivity)) fuel root
    ltac:(intros ? ?; reflexivity) ltac:(intros ? ?; reflexivity)
    ltac:(intros ? ?; reflexivity) ltac:(intros ? ?; reflexivity) σ) as P.
  destruct (emit_parents_first cfg fuel root σ) as [[[]|e|] σ1]; [|reflexivity..].
  cbn in P. rewrite run_bind. cbn [gets]. rewrite P. reflexivity.
Qed.

Lemma elem_of_sorted (s : gset string) (x : string) : x ∈ sorted s ↔ x ∈ s.
Proof. unfold sorted. rewrite merge_sort_Permutation. apply elem_of_elements. Qed.

Lemma emit_inv_start (σ : State) : cache_ok σ → emitted σ = ∅ → stdout σ = [] → emit_inv σ.
Proof.
  intros C E O. split; [exact C|]. rewrite E, O.
  split; [intros q []%elem_of_empty|]. split; apply each_after_nil.
Qed.

Lemma once_inv_start (σ : State) : emitted σ = ∅ → stdout σ = [] → once_inv σ.
Proof.
  intros E O. unfold once_inv. rewrite E, O. split; [constructor|].
  intros q. split; [intros []%elem_of_empty|intros []%elem_of_nil].
Qed.

(** X1. When the parent links that stay within the inclusion set are
    acyclic, the emission returns or raises; nobody is printed twice; the
    parents of a printed person that are in the inclusion set are printed
    strictly before it; and when the emission returns, every identifier the
    emitter is started on (the root and the descendants, or the ancestors
    when the root is excluded) is printed. *)
Theorem emission_parents_first (inc : bool) (fuel : nat) (root : string) (σ : State)
    (rank : string → nat) :
  cache_ok σ → emitted σ = ∅ → stdout σ = [] →
  ranked (all_qids σ) rank → (∀ q, rank q + 1 < fuel) →
  let run := emit_all cfg inc fuel root σ in
  run.1 ≠ OutOfFuel
  ∧ NoDup (printed_qids (stdout run.2))
  ∧ each_after (parents_first_at (all_qids σ)) (stdout run.2)
  ∧ (run.1 = Ok tt →
     ∀ raw, raw ∈ emit_starts inc root σ →
       ∃ q, normalize_qid raw = Ok q ∧ q ∈ printed_qids (stdout run.2)).
Proof.
  intros C E O Rk F run. subst run. rewrite emit_all_run.
  destruct (for_each _ _ σ) as [r σ'] eqn:G. cbn [fst snd].
  destruct (emit_each_inv _ _ _ _ _ G (emit_inv_start _ C E O))
    as ((_ & J & _ & Pf) & (_ & _ & _ & A) & Ok' & K).
  destruct (K rank Rk (once_inv_start _ E O)) as ([ND _] & T).
  split; [exact (T F)|]. split; [exact ND|]. split; [rewrite <- A; exact Pf|].
  intros R raw I. destruct (Ok' R raw I) as (q & N & Iq). exists q.
  split; [exact N|apply J, Iq].
Qed.

End emitter.

(** ** The whole run *)

Lemma run_bind_ok {A B} (m : M A) (f : A → M B) (σ σ' : State) (b : B) :
  (m ≫= f) σ = (Ok b, σ') → ∃ a σ1, m σ = (Ok a, σ1) ∧ f a σ1 = (Ok b, σ').
Proof.
  rewrite run_bind. destruct (m σ) as [[a|e|] σ1]; [eauto|discriminate..].
Qed.

Section whole_run.
Context `{Externals} (cfg : Config).

Lemma collect_preserves (R : relation State) `{!PreOrder R} (inc : bool) (q : string) :
  (∀ raw, preserves R (get_person raw)) →
  stable R set_visited_ancestors → stable R set_ancestor_trace → stable R set_ancestor_qids →
  stable R set_descendant_trace → stable R set_descendant_qids →
  stable R set_all_qids → stable R set_emitted →
  preserves R (collect cfg inc q).
Proof.
  intros G S1 S2 S3 S4 S5 S6 S7. unfold collect.
  preserves_auto;
    first [apply gather_ancestors_preserves; assumption
          |apply gather_descendants_alive_preserves; assumption
          |apply ensure_fathers_preserves; assumption
          |apply S6|apply S7].
Qed.

Lemma collect_ok_emitted (inc : bool) (q : string) (σ σ' : State) :
  collect cfg inc q σ = (Ok tt, σ') → emitted σ' = ∅.
Proof.
  unfold collect. intros G.
  repeat (apply run_bind_ok in G as (? & ? & _ & G)).
  injection G as <-. reflexivity.
Qed.

Lemma collect_inv (inc : bool) (q : string) (σ σ' : State) (r : res unit) :
  collect cfg inc q σ = (r, σ') →
  stdout σ' = stdout σ ∧ (cache_ok σ → cache_ok σ') ∧ (r = Ok tt → emitted σ' = ∅).
Proof.
  intros G. split; [|split].
  - pose proof (collect_preserves (same stdout) inc q
      (λ raw, get_person_same stdout raw ltac:(intros ? ?; reflexivity))
      ltac:(intros ? ?; reflexivity) ltac:(intros ? ?; reflexivity)
      ltac:(intros ? ?; reflexivity) ltac:(intros ? ?; reflexivity)
      ltac:(intros ? ?; reflexivity) ltac:(intros ? ?; reflexivity)
      ltac:(intros ? ?; reflexivity) σ) as P.
    rewrite G in P. exact P.
  - pose proof (collect_preserves keeps_cache_ok inc q get_person_keeps_cache_ok
      ltac:(intros ? ? C; exact C) ltac:(intros ? ? C; exact C)
      ltac:(intros ? ? C; exact C) ltac:(intros ? ? C; exact C)
      ltac:(intros ? ? C; exact C) ltac:(intros ? ? C; exact C)
      ltac:(intros ? ? C; exact C) σ) as P.
    rewrite G in P. exact P.
  - intros ->. eapply collect_ok_emitted, G.
Qed.

(** C6, as the code has it. In the output of every run, a [mother] line is
    printed only for a mother that is in the final inclusion set, and it
    names a character whose block is printed before; a [father] line is
    printed whenever the person has a father identifier, in the set or not,
    and names a character whose block is printed before when the father is
    in the set. *)
Theorem parent_references_resolved (fuel : nat) (root : string) :
  let run := emit_person_with_ancestors_and_descendants cfg fuel root init_state in
  each_after (refs_resolved_at (all_qids run.2)) (stdout run.2).
Proof.
  intros run. subst run. unfold emit_person_with_ancestors_and_descendants.
  rewrite run_bind, run_lift.
  destruct (normalize_qid root) as [q|e|]; [|apply each_after_nil..].
  rewrite run_bind. destruct (get_person q init_state) as [rp σ1] eqn:GP.
  destruct (get_person_inv _ _ _ _ GP) as (_ & (c & -> & _) & C1 & _).
  specialize (C1 cache_ok_init).
  destruct rp as [p|e|]; [|apply each_after_nil..].
  rewrite run_bind, run_lift.
  destruct (is_alive_on_total p CUTOFF_DATE false) as [a ->]. cbv zeta.
  unfold run_from_root. rewrite run_bind.
  destruct (collect cfg _ q _) as [rc σc] eqn:GC.
  destruct (collect_inv _ _ _ _ _ GC) as (O & C & E). specialize (C C1). cbn in O.
  destruct rc as [[]|e|]; [|cbn; rewrite O; apply each_after_nil..].
  destruct (emit_all cfg _ fuel q σc) as [r σ'] eqn:GE. rewrite emit_all_run in GE.
  destruct (emit_each_inv _ _ _ _ _ _ GE (emit_inv_start _ C (E eq_refl) O))
    as ((_ & _ & Rf & _) & _). exact Rf.
Qed.

End whole_run.

(** ** Parents recorded in a cycle *)

Section cycles.
Context `{Externals} (cfg : Config).

(** Two people in the inclusion set, each recorded as the father of the
    other and neither emitted yet: [emit_parents_first] descends from one
    to the other until the fuel is gone, whatever the fuel. *)
Lemma emit_parents_first_cycle (σ : State) (a b : string) (pa pb : Person) :
  normalize_qid a = Ok a → normalize_qid b = Ok b →
  person_cache σ !! a = Some pa → person_cache σ !! b = Some pb →
  father_qid pa = Some b → father_qid pb = Some a →
  a ∈ all_qids σ → b ∈ all_qids σ → a ∉ emitted σ → b ∉ emitted σ →
  ∀ fuel, emit_parents_first cfg fuel a σ = (OutOfFuel, σ)
          ∧ emit_parents_first cfg fuel b σ = (OutOfFuel, σ).
Proof.
  intros Na Nb La Lb Fa Fb Ia Ib Ea Eb.
  assert (∀ x, normalize_qid x = Ok x → truthy (Some x) = true) as T.
  { intros x N. apply normalize_qid_fullmatch in N. destruct x; [discriminate N|reflexivity]. }
  assert (∀ fuel x y px, normalize_qid x = Ok x → person_cache σ !! x = Some px →
    father_qid px = Some y → normalize_qid y = Ok y → y ∈ all_qids σ → x ∉ emitted σ →
    emit_parents_first cfg fuel y σ = (OutOfFuel, σ) →
    emit_parents_first cfg (S fuel) x σ = (OutOfFuel, σ)) as Step.
  { intros fuel x y px Nx Lx Fx Ny Iy Ex IH. cbn [emit_parents_first].
    rewrite run_bind, run_lift, Nx. rewrite run_bind. cbn [gets].
    rewrite (bool_decide_eq_false_2 _ Ex).
    rewrite run_bind, get_person_run, Nx, Lx. rewrite run_bind. cbn [gets].
    assert (or_str (Some y) "" = y) as Oy.
    { pose proof (normalize_qid_fullmatch _ _ Ny) as My.
      destruct y; [discriminate My|reflexivity]. }
    rewrite run_bind, Fx, Oy, (T y Ny), (bool_decide_eq_true_2 _ Iy). cbn [andb when].
    rewrite IH. reflexivity. }
  induction fuel as [|fuel [IHa IHb]]; [split; reflexivity|].
  split; eapply Step; eassumption.
Qed.

Lemma run_reaches_emit_all (fuel : nat) (root q : string) (p : Person) (a : bool)
    (σ1 σc : State) :
  normalize_qid root = Ok q → get_person q init_state = (Ok p, σ1) →
  is_alive_on p CUTOFF_DATE false = Ok a →
  collect cfg (include_root_if_not_alive cfg || a) q σ1 = (Ok tt, σc) →
  emit_person_with_ancestors_and_descendants cfg fuel root init_state
  = emit_all cfg (include_root_if_not_alive cfg || a) fuel q σc.
Proof.
  intros N G A C. unfold emit_person_with_ancestors_and_descendants.
  rewrite run_bind, run_lift, N. rewrite run_bind, G. rewrite run_bind, run_lift, A.
  cbv zeta. unfold run_from_root. rewrite run_bind, C. reflexivity.
Qed.

End cycles.

(** ** Runs of the concrete worlds *)

Lemma chain_parents (raw : string) (p : Person) :
  @fetch_person Demo.chain raw = Ok p →
  (qid p = "Q3" ∧ parents p = ["Q2"]) ∨ (qid p = "Q2" ∧ parents p = ["Q1"]) ∨ parents p = [].
Proof.
  intros F. pose proof (fetch_person_qid _ _ F) as N. unfold fetch_person in F.
  rewrite N in F. remember (qid p) as q eqn:Q. clear N.
  cbn [mbind res_mbind res_bind] in F.
  unfold first_binding, Demo.chain, Demo.world, query_person, Demo.person_endpoint in F.
  cbn [Demo.find] in F.
  destruct (String.eqb_spec q "Q3") as [->|_].
  { vm_compute in F. injection F as <-. left. split; reflexivity. }
  destruct (String.eqb_spec q "Q2") as [->|_].
  { vm_compute in F. injection F as <-. right. left. split; reflexivity. }
  right. right.
  destruct (String.eqb_spec q "Q1") as [->|_]; vm_compute in F; injection F as <-; reflexivity.
Qed.

Lemma chain_ranked (known : gset string) : @ranked Demo.chain known Demo.chain_rank.
Proof.
  intros raw p par q' F Ip _ Np.
  destruct (chain_parents _ _ F) as [[Q P]|[[Q P]|P]]; rewrite P in Ip.
  - apply list_elem_of_singleton in Ip. subst par. vm_compute in Np. injection Np as <-.
    rewrite Q. vm_compute. lia.
  - apply list_elem_of_singleton in Ip. subst par. vm_compute in Np. injection Np as <-.
    rewrite Q. vm_compute. lia.
  - apply elem_of_nil in Ip. destruct Ip.
Qed.

Lemma chain_collected_cache_ok : @cache_ok Demo.chain Demo.chain_collected.
Proof.
  unfold Demo.chain_collected.
  destruct (@get_person Demo.chain "Q3" init_state) as [rp σ1] eqn:GP.
  destruct (get_person_inv _ _ _ _ GP) as (_ & _ & C1 & _).
  destruct (@collect Demo.chain Demo.defaults true "Q3" (rp, σ1).2) as [rc σc] eqn:GC.
  destruct (collect_inv _ _ _ _ _ _ GC) as (_ & C & _). apply C, C1, cache_ok_init.
Qed.

Lemma emission_parents_first_witness :
  let run := @emit_all Demo.chain Demo.defaults true 4 "Q3" Demo.chain_collected in
  run.1 ≠ OutOfFuel
  ∧ NoDup (printed_qids (stdout run.2))
  ∧ each_after (@parents_first_at (all_qids Demo.chain_collected)) (stdout run.2)
  ∧ (run.1 = Ok tt →
     ∀ raw, raw ∈ emit_starts true "Q3" Demo.chain_collected →
       ∃ q, normalize_qid raw = Ok q ∧ q ∈ printed_qids (stdout run.2)).
Proof.
  apply (@emission_parents_first Demo.chain Demo.defaults true 4 "Q3" Demo.chain_collected
           Demo.chain_rank chain_collected_cache_ok).
  - vm_compute. reflexivity.
  - vm_compute. reflexivity.
  - apply chain_ranked.
  - intros q. unfold Demo.chain_rank. repeat case_match; lia.
Defined.

(** The ancestor walk of [Demo.gap] goes on through the excluded mother
    Q2 to her father Q3, which is included. *)
Lemma excluded_ancestor_still_expanded :
  ancestor_trace (Demo.run Demo.gap 5 "Q1").2 = [("Q1", 0); ("Q2", 1); ("Q3", 2)]
  ∧ elements (ancestor_qids (Demo.run Demo.gap 5 "Q1").2) = ["Q3"; "Q1"].
Proof. split; vm_compute; reflexivity. Qed.

(** Under pedigree collapse the shared grandfather is expanded once. *)
Lemma shared_ancestor_expanded_once :
  ancestor_trace (Demo.run Demo.collapse 5 "Q1").2
  = [("Q1", 0); ("Q2", 1); ("Q4", 2); ("Q3", 1)].
Proof. vm_compute. reflexivity. Qed.

(** C7 fails on the code: the endpoint of [Demo.odd_binding] answers both
    queries with a malformed response, a document whose first binding is a
    number. The guarded blocks pass it, the binding is read after them, and
    the [AttributeError] is raised to the caller: the run from Q1 ends with
    it and prints nothing. *)
Lemma binding_of_unexpected_shape_raises :
  @fetch_person Demo.odd_binding "Q1" = Raise AttributeError
  ∧ @fetch_children_qids Demo.odd_binding "Q1" = Raise AttributeError
  ∧ (Demo.run Demo.odd_binding 5 "Q1").1 = Raise AttributeError
  ∧ stdout (Demo.run Demo.odd_binding 5 "Q1").2 = [].
Proof. repeat split; vm_compute; reflexivity. Qed.

(** The run of the chain: grandfather, father, child. *)
Lemma three_generation_chain_order :
  (Demo.run Demo.chain 4 "Q3").1 = Ok tt
  ∧ printed_qids (stdout (Demo.run Demo.chain 4 "Q3").2) = ["Q1"; "Q2"; "Q3"].
Proof. split; vm_compute; reflexivity. Qed.

(** The run of [Demo.cycle] reaches the emitter, which descends from Q1
    to Q2 and back without meeting its guard: whatever the fuel, it is used
    up. *)
Lemma cycle_never_returns (fuel : nat) :
  (Demo.run Demo.cycle fuel "Q1").1 = OutOfFuel
  ∧ stdout (Demo.run Demo.cycle fuel "Q1").2 = [].
Proof.
  unfold Demo.run.
  erewrite (@run_reaches_emit_all Demo.cycle Demo.defaults fuel "Q1" "Q1");
    [|vm_compute; reflexivity..].
  unfold emit_all. cbn [orb Demo.defaults include_root_if_not_alive]. rewrite run_bind.
  match goal with
  | |- context [emit_parents_first _ _ _ ?σ] =>
      destruct (@emit_parents_first_cycle Demo.cycle Demo.defaults σ "Q1" "Q2"
                  (Build_Person "Q1" None None (Some "1400-01-01") None (Some "Q2") None None)
                  (Build_Person "Q2" None None (Some "1401-01-01") None (Some "Q1") None None)
                  eq_refl eq_refl) with (fuel := fuel) as [-> _]
  end; try (vm_compute; reflexivity); try (split; vm_compute; reflexivity);
    try (apply bool_decide_eq_true_1; vm_compute; reflexivity);
    try (match goal with
         | |- ?x ∉ ?X => apply (bool_decide_eq_false_1 (x ∈ X)); vm_compute; reflexivity
         end).
Qed.

(** C1 fails on the code, twice. On parents recorded in a cycle the
    emission does not terminate: [emitted] is extended after the recursive
    calls only, so the guard is never met, and the recursion goes on until
    the fuel is gone (in CPython, until [RecursionError]). And a member of
    the final inclusion set is not printed: in [Demo.gap] the grandfather
    Q3 is collected as an ancestor, beyond the excluded mother Q2, but the
    emitter is started on the root only and stops at Q2, so only Q1 is
    printed. The same grandfather is printed when the root is excluded,
    where the emitter is started on every ancestor. *)
Lemma emission_loops_and_misses :
  (∀ fuel, (Demo.run Demo.cycle fuel "Q1").1 = OutOfFuel
           ∧ stdout (Demo.run Demo.cycle fuel "Q1").2 = [])
  ∧ (Demo.run Demo.gap 5 "Q1").1 = Ok tt
  ∧ elements (ancestor_qids (Demo.run Demo.gap 5 "Q1").2) = ["Q3"; "Q1"]
  ∧ bool_decide ("Q3" ∈ all_qids (Demo.run Demo.gap 5 "Q1").2) = true
  ∧ printed_qids (stdout (Demo.run Demo.gap 5 "Q1").2) = ["Q1"]
  ∧ (Demo.run Demo.gap_root_dead 5 "Q1").1 = Ok tt
  ∧ elements (ancestor_qids (Demo.run Demo.gap_root_dead 5 "Q1").2) = ["Q3"]
  ∧ printed_qids (stdout (Demo.run Demo.gap_root_dead 5 "Q1").2) = ["Q3"].
Proof.
  split; [exact cycle_never_returns|]. repeat split; vm_compute; reflexivity.
Qed.

(** C6, as the claim has it, fails for the father: in [Demo.dangling] the
    block of Q2 names its father Q3, whose block is never printed. *)
Lemma father_reference_dangles :
  ∃ p ls rest,
    stdout (Demo.run Demo.dangling 5 "Q1").2 = Block p ls :: rest
    ∧ qid p = "Q2"
    ∧ LFather "wd_q3" ∈ ls
    ∧ bool_decide ("wd_q3" ∈ printed_ids (stdout (Demo.run Demo.dangling 5 "Q1").2)) = false
    ∧ bool_decide ("Q3" ∈ all_qids (Demo.run Demo.dangling 5 "Q1").2) = false.
Proof.
  eexists _, _, _. split; [vm_compute; reflexivity|]. split; [reflexivity|].
  split; [repeat constructor|]. split; vm_compute; reflexivity.
Qed.

(** ** Strings *)

Lemma append_cons (c : ascii) (s t : string) : String c s +:+ t = String c (s +:+ t).
Proof. reflexivity. Qed.

Lemma append_nil_l (t : string) : "" +:+ t = t.
Proof. reflexivity. Qed.

Ltac app_step := rewrite ?append_cons, ?append_nil_l.

Lemma append_nil_r (s : string) : s +:+ "" = s.
Proof. induction s as [|c s IH]; app_step; [reflexivity|rewrite IH; reflexivity]. Qed.

Lemma append_assoc (a b c : string) : (a +:+ b) +:+ c = a +:+ (b +:+ c).
Proof. induction a as [|x a IH]; app_step; [reflexivity|rewrite IH; reflexivity]. Qed.

Lemma all_chars_app (p : ascii → bool) (a b : string) :
  PyStr.all_chars p (a +:+ b) = PyStr.all_chars p a && PyStr.all_chars p b.
Proof.
  induction a as [|x a IH]; app_step; cbn; [reflexivity|]. rewrite IH, andb_assoc. reflexivity.
Qed.

Lemma lstrip_by_app_all (p : ascii → bool) (ws s : string) :
  PyStr.all_chars p ws = true → PyStr.lstrip_by p (ws +:+ s) = PyStr.lstrip_by p s.
Proof.
  induction ws as [|c ws IH]; app_step; cbn; [reflexivity|].
  intros A. apply andb_true_iff in A as [-> A]. apply IH, A.
Qed.

Lemma rstrip_by_all (p : ascii → bool) (ws : string) :
  PyStr.all_chars p ws = true → PyStr.rstrip_by p ws = "".
Proof.
  induction ws as [|c ws IH]; cbn; [reflexivity|].
  intros A. apply andb_true_iff in A as [-> A]. rewrite (IH A). reflexivity.
Qed.

Lemma rstrip_by_app_all (p : ascii → bool) (s ws : string) :
  PyStr.all_chars p ws = true → PyStr.rstrip_by p (s +:+ ws) = PyStr.rstrip_by p s.
Proof.
  intros A. induction s as [|c s IH]; app_step; cbn; [apply rstrip_by_all, A|].
  rewrite IH. reflexivity.
Qed.

Lemma has_char_app (sep : ascii) (a b : string) :
  has_char sep (a +:+ b) = has_char sep a || has_char sep b.
Proof.
  unfold has_char. induction a as [|x a IH]; app_step; cbn; [reflexivity|].
  rewrite IH, orb_assoc. reflexivity.
Qed.

Lemma rsplit_last_cons (sep c : ascii) (s : string) :
  PyStr.rsplit_last sep (String c s)
  = if has_char sep s then PyStr.rsplit_last sep s
    else if Ascii.eqb sep c then s else String c s.
Proof. reflexivity. Qed.

(** What follows the last separator. *)
Lemma rsplit_last_app (sep : ascii) (s t : string) :
  has_char sep t = false → PyStr.rsplit_last sep (s +:+ String sep t) = t.
Proof.
  intros T. induction s as [|c s IH].
  - app_step. rewrite rsplit_last_cons, T, Ascii.eqb_refl. reflexivity.
  - app_step. rewrite rsplit_last_cons, has_char_app.
    assert (has_char sep (String sep t) = true) as ->.
    { unfold has_char. cbn. rewrite Ascii.eqb_refl. reflexivity. }
    rewrite orb_true_r. exact IH.
Qed.

Lemma rsplit_last_none (sep : ascii) (s : string) :
  has_char sep s = false → PyStr.rsplit_last sep s = s.
Proof.
  destruct s as [|c s]; [reflexivity|]. rewrite rsplit_last_cons.
  unfold has_char. cbn. intros E. apply orb_false_iff in E as [-> E].
  unfold has_char. rewrite E. reflexivity.
Qed.

(** The last segment holds no separator. *)
Lemma rsplit_last_no_sep (sep : ascii) (s : string) :
  has_char sep (PyStr.rsplit_last sep s) = false.
Proof.
  induction s as [|c s IH]; [reflexivity|]. rewrite rsplit_last_cons.
  destruct (has_char sep s) eqn:E; [exact IH|].
  destruct (Ascii.eqb sep c) eqn:C; [exact E|].
  unfold has_char in *. cbn. rewrite C, E. reflexivity.
Qed.

Lemma digits_no_char (sep : ascii) (s : string) :
  PyStr.is_digit sep = false → PyStr.all_chars PyStr.is_digit s = true → has_char sep s = false.
Proof.
  intros S. unfold has_char. induction s as [|c s IH]; cbn; [reflexivity|].
  intros A. apply andb_true_iff in A as [D A]. rewrite (IH A), orb_false_r.
  destruct (Ascii.eqb_spec sep c) as [->|_]; [congruence|reflexivity].
Qed.

Lemma fullmatch_qid_inv (q : string) :
  fullmatch_qid q = true →
  ∃ ds, q = String "Q" ds ∧ ds ≠ "" ∧ PyStr.all_chars PyStr.is_digit ds = true.
Proof.
  unfold fullmatch_qid. destruct q as [|c ds]; [discriminate|].
  intros F. apply andb_true_iff in F as [F D]. apply andb_true_iff in F as [Q E].
  apply Ascii.eqb_eq in Q. subst c. exists ds. split; [reflexivity|]. split; [|exact D].
  intros ->. discriminate E.
Qed.

Lemma fullmatch_qid_no_char (sep : ascii) (q : string) :
  PyStr.is_digit sep = false → sep ≠ "Q"%char → fullmatch_qid q = true → has_char sep q = false.
Proof.
  intros S Q (ds & -> & _ & D)%fullmatch_qid_inv. unfold has_char. cbn.
  destruct (Ascii.eqb_spec sep "Q") as [->|_]; [destruct Q; reflexivity|].
  apply (digits_no_char sep ds S D).
Qed.

Lemma fullmatch_qid_rstrip (q : string) :
  fullmatch_qid q = true → PyStr.rstrip_by PyStr.is_space q = q.
Proof.
  intros (ds & -> & _ & D)%fullmatch_qid_inv. apply rstrip_by_none.
  cbn [PyStr.all_chars]. change (negb (PyStr.is_space "Q")) with true. cbn [andb].
  revert D. apply all_chars_impl. intros c D. rewrite (digit_not_space c D). reflexivity.
Qed.

Lemma rstrip_by_app_keep (p : ascii → bool) (s t : string) :
  PyStr.rstrip_by p t ≠ "" → PyStr.rstrip_by p (s +:+ t) = s +:+ PyStr.rstrip_by p t.
Proof.
  intros T. induction s as [|c s IH]; app_step; cbn; [reflexivity|]. rewrite IH.
  destruct (s +:+ PyStr.rstrip_by p t) eqn:E; [|reflexivity].
  destruct s; [|discriminate E]. destruct (T E).
Qed.

Lemma prefix_app (p s t : string) : String.prefix p s = true → String.prefix p (s +:+ t) = true.
Proof.
  revert s. induction p as [|c p IH]; intros s; [intros _; destruct (s +:+ t); reflexivity|].
  destruct s as [|x s]; app_step; cbn; [discriminate|].
  destruct (ascii_dec c x); [apply IH|discriminate].
Qed.

(** ** [normalize_qid] *)

Lemma startswith_http (base : string) :
  PyStr.startswith "http" base = true → ∃ rest, base = String "h" rest.
Proof.
  unfold PyStr.startswith. destruct base as [|c base]; [discriminate|].
  change (String.prefix "http" (String c base))
    with (if ascii_dec "h" c then String.prefix "ttp" base else false).
  destruct (ascii_dec "h" c) as [<-|]; [eauto|discriminate].
Qed.

Lemma strip_framed (ws1 ws2 body : string) :
  PyStr.all_chars PyStr.is_space ws1 = true → PyStr.all_chars PyStr.is_space ws2 = true →
  PyStr.lstrip_by PyStr.is_space body = body →
  PyStr.rstrip_by PyStr.is_space body = body →
  PyStr.strip (ws1 +:+ body +:+ ws2) = body.
Proof.
  intros W1 W2 L R. unfold PyStr.strip, PyStr.strip_by.
  rewrite (lstrip_by_app_all _ _ _ W1).
  destruct body as [|c body].
  - app_step. clear L R. induction ws2 as [|x ws2 IH]; [reflexivity|].
    simpl in W2 |- *. apply andb_true_iff in W2 as [-> W2]. apply IH, W2.
  - assert (PyStr.is_space c = false) as C.
    { simpl in L. destruct (PyStr.is_space c); [|reflexivity].
      exfalso. assert (String.length (PyStr.lstrip_by PyStr.is_space body)
                       = S (String.length body)) as E by (rewrite L; reflexivity).
      clear -E. assert (∀ t, String.length (PyStr.lstrip_by PyStr.is_space t)
                             ≤ String.length t) as Le.
      { induction t as [|y t IH]; simpl; [lia|]. destruct (PyStr.is_space y); simpl; lia. }
      specialize (Le body). lia. }
    app_step. simpl. rewrite C. rewrite <- append_cons.
    rewrite (rstrip_by_app_all _ _ _ W2). exact R.
Qed.

(** X2. An entity URL, with white space around it, normalizes to its last
    segment. *)
Theorem normalize_qid_entity_url (ws1 ws2 base q : string) :
  PyStr.all_chars PyStr.is_space ws1 = true → PyStr.all_chars PyStr.is_space ws2 = true →
  PyStr.startswith "http" base = true → fullmatch_qid q = true →
  normalize_qid (ws1 +:+ (base +:+ "/" +:+ q) +:+ ws2) = Ok q.
Proof.
  intros W1 W2 B Q. unfold normalize_qid.
  assert (PyStr.rstrip_by PyStr.is_space (base +:+ "/" +:+ q) = base +:+ "/" +:+ q) as R.
  { assert (PyStr.rstrip_by PyStr.is_space q ≠ "") as Nq.
    { rewrite (fullmatch_qid_rstrip _ Q). intros ->. discriminate Q. }
    assert (PyStr.rstrip_by PyStr.is_space ("/" +:+ q) = "/" +:+ q) as Rq.
    { rewrite rstrip_by_app_keep, (fullmatch_qid_rstrip _ Q); [reflexivity|exact Nq]. }
    rewrite rstrip_by_app_keep; rewrite Rq; [reflexivity|discriminate]. }
  assert (PyStr.lstrip_by PyStr.is_space (base +:+ "/" +:+ q) = base +:+ "/" +:+ q) as L.
  { destruct (startswith_http _ B) as [rest ->]. reflexivity. }
  rewrite (strip_framed _ _ _ W1 W2 L R).
  unfold PyStr.startswith. rewrite (prefix_app _ _ _ B).
  change ("/" +:+ q) with (String "/" q). rewrite rsplit_last_app.
  - rewrite Q. reflexivity.
  - apply fullmatch_qid_no_char; [reflexivity|discriminate|exact Q].
Qed.

Lemma normalize_qid_entity_url_witness :
  normalize_qid (" " +:+ ("http://www.wikidata.org/entity" +:+ "/" +:+ "Q42") +:+ " ") = Ok "Q42".
Proof.
  apply (normalize_qid_entity_url " " " " "http://www.wikidata.org/entity" "Q42");
    reflexivity.
Defined.

(** X3. What [normalize_qid] returns matches [Q\d+] and is left as it is by
    [normalize_qid]; what it raises is a [ValueError]. *)
Theorem normalize_qid_canonical (raw : string) :
  match normalize_qid raw with
  | Ok q => fullmatch_qid q = true ∧ normalize_qid q = Ok q
  | Raise e => ∃ msg, e = ValueError msg
  | OutOfFuel => False
  end.
Proof.
  destruct (normalize_qid raw) as [q|e|] eqn:N.
  - split; [apply (normalize_qid_fullmatch raw), N|apply (normalize_qid_idempotent raw), N].
  - unfold normalize_qid in N. destruct (fullmatch_qid _); [discriminate N|].
    injection N as <-. eauto.
  - apply (normalize_qid_returns _ N).
Qed.

(** ** Tokens *)

Ltac tok_step :=
  cbn [pre_slug slug_from sub_runs PyStr.lstrip_by PyStr.rstrip_by drop_chars negb andb orb
       PyStr.all_chars].


Lemma alnum_not_underscore (c : ascii) :
  PyStr.is_lower_alnum c = true → Ascii.eqb "_" c = false.
Proof.
  intros A. destruct (Ascii.eqb_spec "_" c) as [<-|_]; [discriminate A|reflexivity].
Qed.

Lemma alnum_lower (c : ascii) : PyStr.is_lower_alnum c = true → PyStr.lower_char c = c.
Proof.
  unfold PyStr.is_lower_alnum, PyStr.is_digit, PyStr.lower_char. cbv zeta. intros A.
  destruct ((65 <=? nat_of_ascii c) && (nat_of_ascii c <=? 90)) eqn:U; [|reflexivity].
  exfalso. apply andb_true_iff in U as [U1 U2]. apply Nat.leb_le in U1, U2.
  apply orb_true_iff in A as [A|A]; apply andb_true_iff in A as [A1 A2];
    apply Nat.leb_le in A1, A2; lia.
Qed.

Lemma lower_cons (c : ascii) (s : string) :
  PyStr.lower (String c s) = String (PyStr.lower_char c) (PyStr.lower s).
Proof. reflexivity. Qed.

Lemma slug_from_cons (b : bool) (c : ascii) (s : string) :
  slug_from b (String c s)
  = if PyStr.is_lower_alnum c then slug_from true s
    else Ascii.eqb "_" c && b && slug_from false s.
Proof. reflexivity. Qed.

Lemma slug_from_pre_slug (b : bool) (s : string) : slug_from b s = true → pre_slug b s = true.
Proof.
  revert b. induction s as [|c s IH]; intros b; tok_step; [reflexivity|].
  destruct (PyStr.is_lower_alnum c); [apply IH|].
  intros A. apply andb_true_iff in A as [-> A]. apply IH, A.
Qed.

Lemma pre_slug_weaken (s : string) : pre_slug false s = true → pre_slug true s = true.
Proof.
  destruct s as [|c s]; tok_step; [reflexivity|].
  destruct (PyStr.is_lower_alnum c); [tauto|]. rewrite andb_false_r. discriminate.
Qed.

(** The first substitution of [slugify_to_token] leaves lower-case
    alphanumerics and single underscores. *)
Lemma sub_runs_pre_slug (in_run : bool) (s : string) :
  pre_slug (negb in_run)
    (sub_runs (λ c, negb (PyStr.is_lower_alnum c)) "_" in_run s) = true.
Proof.
  revert in_run. induction s as [|c s IH]; intros in_run; tok_step; [reflexivity|].
  destruct (PyStr.is_lower_alnum c) eqn:A; tok_step.
  - rewrite A. apply (IH false).
  - destruct in_run; [apply (IH true)|]. tok_step. apply (IH true).
Qed.

(** On such a string both substitutions do nothing. *)
Lemma sub_runs_underscore_id (in_run : bool) (s : string) :
  pre_slug (negb in_run) s = true → sub_runs (Ascii.eqb "_") "_" in_run s = s.
Proof.
  revert in_run. induction s as [|c s IH]; intros in_run; tok_step; [reflexivity|].
  destruct (PyStr.is_lower_alnum c) eqn:A.
  - rewrite (alnum_not_underscore c A). intros P. rewrite (IH false P). reflexivity.
  - intros P. apply andb_true_iff in P as [P P2]. apply andb_true_iff in P as [E B].
    rewrite E. apply Ascii.eqb_eq in E. subst c.
    destruct in_run; [discriminate B|]. rewrite (IH true P2). reflexivity.
Qed.

Lemma sub_runs_alnum_id (in_run : bool) (s : string) :
  pre_slug (negb in_run) s = true →
  sub_runs (λ c, negb (PyStr.is_lower_alnum c)) "_" in_run s = s.
Proof.
  revert in_run. induction s as [|c s IH]; intros in_run; tok_step; [reflexivity|].
  destruct (PyStr.is_lower_alnum c) eqn:A; tok_step.
  - intros P. rewrite (IH false P). reflexivity.
  - intros P. apply andb_true_iff in P as [P P2]. apply andb_true_iff in P as [E B].
    apply Ascii.eqb_eq in E. subst c.
    destruct in_run; [discriminate B|]. rewrite (IH true P2). reflexivity.
Qed.

Lemma pre_slug_lower (b : bool) (s : string) : pre_slug b s = true → PyStr.lower s = s.
Proof.
  revert b. induction s as [|c s IH]; intros b; [reflexivity|]. rewrite lower_cons. tok_step.
  destruct (PyStr.is_lower_alnum c) eqn:A.
  - intros P. rewrite (alnum_lower c A), (IH _ P). reflexivity.
  - intros P. apply andb_true_iff in P as [P P2]. apply andb_true_iff in P as [E B].
    apply Ascii.eqb_eq in E. subst c. rewrite (IH _ P2). reflexivity.
Qed.

Lemma drop_chars_none (s : string) : drop_chars unicodedata_combining s = s.
Proof. induction s as [|c s IH]; tok_step; [reflexivity|rewrite IH; reflexivity]. Qed.

Lemma lstrip_underscore_none (s : string) :
  pre_slug false s = true → PyStr.lstrip_by (Ascii.eqb "_") s = s.
Proof.
  destruct s as [|c s]; tok_step; [reflexivity|].
  destruct (PyStr.is_lower_alnum c) eqn:A; [|rewrite andb_false_r; discriminate].
  rewrite (alnum_not_underscore c A). reflexivity.
Qed.

Lemma lstrip_underscore_pre_slug (s : string) :
  pre_slug true s = true → pre_slug false (PyStr.lstrip_by (Ascii.eqb "_") s) = true.
Proof.
  destruct s as [|c s]; tok_step; [reflexivity|].
  destruct (PyStr.is_lower_alnum c) eqn:A.
  - rewrite (alnum_not_underscore c A). tok_step. rewrite A. tauto.
  - intros P. apply andb_true_iff in P as [P P2]. apply andb_true_iff in P as [E _].
    rewrite E. rewrite (lstrip_underscore_none s P2). exact P2.
Qed.

Lemma rstrip_underscore_slug (b : bool) (s : string) :
  pre_slug b s = true →
  PyStr.rstrip_by (Ascii.eqb "_") s = ""
  ∨ slug_from b (PyStr.rstrip_by (Ascii.eqb "_") s) = true.
Proof.
  revert b. induction s as [|c s IH]; intros b; tok_step; [left; reflexivity|].
  destruct (PyStr.is_lower_alnum c) eqn:A.
  - intros P. right. rewrite (alnum_not_underscore c A).
    destruct (IH true P) as [->|S]; [tok_step; rewrite A; reflexivity|].
    destruct (PyStr.rstrip_by (Ascii.eqb "_") s) as [|x t] eqn:R.
    + tok_step. rewrite A. reflexivity.
    + rewrite slug_from_cons, A. exact S.
  - intros P. apply andb_true_iff in P as [P P2]. apply andb_true_iff in P as [E B].
    rewrite E. destruct (IH false P2) as [->|S]; [left; reflexivity|].
    destruct (PyStr.rstrip_by (Ascii.eqb "_") s) as [|x t] eqn:R; [left; reflexivity|].
    right. rewrite slug_from_cons, A, E, B, S. reflexivity.
Qed.

Lemma rstrip_underscore_none (b : bool) (s : string) :
  slug_from b s = true → PyStr.rstrip_by (Ascii.eqb "_") s = s.
Proof.
  revert b. induction s as [|c s IH]; intros b; tok_step; [reflexivity|].
  destruct (PyStr.is_lower_alnum c) eqn:A.
  - intros P. rewrite (IH true P), (alnum_not_underscore c A). destruct s; reflexivity.
  - intros P. apply andb_true_iff in P as [P P2]. rewrite (IH false P2).
    destruct s; [discriminate P2|reflexivity].
Qed.

Lemma pre_slug_chars (b : bool) (s : string) :
  pre_slug b s = true →
  PyStr.all_chars (λ c, PyStr.is_lower_alnum c || Ascii.eqb "_" c) s = true.
Proof.
  revert b. induction s as [|c s IH]; intros b; tok_step; [reflexivity|].
  destruct (PyStr.is_lower_alnum c) eqn:A; tok_step; [apply IH|].
  intros P. apply andb_true_iff in P as [P P2]. apply andb_true_iff in P as [-> _].
  apply (IH _ P2).
Qed.

Lemma slugify_to_token_of_slug (t : string) : is_slug t = true → slugify_to_token t = t.
Proof.
  unfold is_slug, slugify_to_token, unicodedata_normalize_NFKD. intros S.
  pose proof (slug_from_pre_slug _ _ S) as P.
  rewrite drop_chars_none, (pre_slug_lower _ _ P).
  rewrite (sub_runs_alnum_id false t (pre_slug_weaken _ P)).
  rewrite (sub_runs_underscore_id false t (pre_slug_weaken _ P)).
  unfold PyStr.strip_by. rewrite (lstrip_underscore_none _ P), (rstrip_underscore_none _ _ S).
  destruct t; [discriminate S|reflexivity].
Qed.

Lemma slugify_to_token_is_slug (value : string) : is_slug (slugify_to_token value) = true.
Proof.
  unfold slugify_to_token, unicodedata_normalize_NFKD.
  set (v := PyStr.lower (drop_chars unicodedata_combining value)).
  pose proof (sub_runs_pre_slug false v) as P. cbn [negb] in P.
  rewrite (sub_runs_underscore_id false _ P).
  unfold PyStr.strip_by.
  destruct (rstrip_underscore_slug _ _ (lstrip_underscore_pre_slug _ P)) as [->|S];
    [reflexivity|].
  destruct (PyStr.rstrip_by _ _) eqn:R; [reflexivity|exact S].
Qed.

(** X4. [slugify_to_token] always returns a token of lower-case
    alphanumerics in runs separated by single underscores, never empty. *)
Theorem slugify_to_token_shape (value : string) :
  is_slug (slugify_to_token value) = true
  ∧ slugify_to_token value ≠ ""
  ∧ PyStr.all_chars (λ c, PyStr.is_lower_alnum c || Ascii.eqb "_" c) (slugify_to_token value)
    = true.
Proof.
  pose proof (slugify_to_token_is_slug value) as S.
  split; [exact S|]. split; [intros E; rewrite E in S; discriminate S|].
  apply (pre_slug_chars false), slug_from_pre_slug, S.
Qed.

(** X5. A token is left as it is, so that [slugify_to_token] is
    idempotent. *)
Theorem slugify_to_token_idempotent :
  (∀ t, is_slug t = true → slugify_to_token t = t)
  ∧ (∀ value, slugify_to_token (slugify_to_token value) = slugify_to_token value).
Proof.
  split; [exact slugify_to_token_of_slug|].
  intros value. apply slugify_to_token_of_slug, slugify_to_token_is_slug.
Qed.

(** ** Names *)

Lemma string_of_list_ascii_snoc (l : list ascii) (c : ascii) (s : string) :
  string_of_list_ascii (l ++ [c]) +:+ s = string_of_list_ascii l +:+ String c s.
Proof. induction l as [|x l IH]; [reflexivity|]. cbn. app_step. rewrite IH. reflexivity. Qed.

Lemma split_runs_word (p : ascii → bool) (cur : list ascii) (b : bool) (w : string) :
  PyStr.all_chars (λ c, negb (p c)) w = true →
  PyStr.split_runs p cur b w = [string_of_list_ascii (rev cur) +:+ w].
Proof.
  revert cur b. induction w as [|c w IH]; intros cur b; cbn [PyStr.split_runs PyStr.all_chars].
  - rewrite append_nil_r. reflexivity.
  - intros A. apply andb_true_iff in A as [C A]. apply negb_true_iff in C. rewrite C.
    rewrite (IH _ _ A). cbn [rev]. rewrite string_of_list_ascii_snoc. reflexivity.
Qed.

Lemma split_runs_nonempty (p : ascii → bool) (cur : list ascii) (b : bool) (s : string) :
  PyStr.split_runs p cur b s ≠ [].
Proof.
  revert cur b. induction s as [|c s IH]; intros cur b; cbn [PyStr.split_runs]; [discriminate|].
  destruct (p c); [destruct b; [apply IH|discriminate]|apply IH].
Qed.

Lemma last_cons_nonempty {A} (x d : A) (l : list A) : l ≠ [] → List.last (x :: l) d = List.last l d.
Proof. destruct l; [congruence|reflexivity]. Qed.

(** The last piece is the word after the last run of separators. *)
Lemma split_runs_last (p : ascii → bool) (s : string) (c : ascii) (w : string)
    (cur : list ascii) (b : bool) :
  p c = true → PyStr.all_chars (λ c, negb (p c)) w = true → (b = true → cur = []) →
  List.last (PyStr.split_runs p cur b (s +:+ String c w)) "" = w.
Proof.
  intros C W. revert cur b. induction s as [|x s IH]; intros cur b Inv; app_step;
    cbn [PyStr.split_runs].
  - rewrite C. destruct b.
    + rewrite (Inv eq_refl), (split_runs_word _ _ _ _ W). reflexivity.
    + rewrite (split_runs_word _ _ _ _ W). reflexivity.
  - destruct (p x).
    + destruct b; [apply IH, Inv|].
      rewrite last_cons_nonempty; [|apply split_runs_nonempty]. apply IH. reflexivity.
    + apply IH. discriminate.
Qed.

Lemma lstrip_by_app_keep (p : ascii → bool) (a b : string) :
  PyStr.lstrip_by p b = b → PyStr.lstrip_by p (a +:+ b) = PyStr.lstrip_by p a +:+ b.
Proof.
  intros B. induction a as [|c a IH]; app_step; cbn [PyStr.lstrip_by]; [exact B|].
  destruct (p c); [exact IH|reflexivity].
Qed.

Lemma lstrip_by_word (p : ascii → bool) (w : string) :
  PyStr.all_chars (λ c, negb (p c)) w = true → PyStr.lstrip_by p w = w.
Proof.
  destruct w as [|c w]; cbn [PyStr.lstrip_by PyStr.all_chars]; [reflexivity|].
  intros A. apply andb_true_iff in A as [C _]. apply negb_true_iff in C. rewrite C. reflexivity.
Qed.

Lemma rstrip_by_idempotent (p : ascii → bool) (s : string) :
  PyStr.rstrip_by p (PyStr.rstrip_by p s) = PyStr.rstrip_by p s.
Proof.
  induction s as [|c s IH]; [reflexivity|]. cbn [PyStr.rstrip_by].
  destruct (PyStr.rstrip_by p s) as [|x t] eqn:R.
  - destruct (p c) eqn:C; [reflexivity|]. cbn [PyStr.rstrip_by]. rewrite C. reflexivity.
  - cbn [PyStr.rstrip_by] in IH |- *. rewrite IH. reflexivity.
Qed.

Lemma lstrip_by_idempotent (p : ascii → bool) (s : string) :
  PyStr.lstrip_by p (PyStr.lstrip_by p s) = PyStr.lstrip_by p s.
Proof.
  induction s as [|c s IH]; [reflexivity|]. cbn [PyStr.lstrip_by].
  destruct (p c) eqn:C; [exact IH|]. cbn [PyStr.lstrip_by]. rewrite C. reflexivity.
Qed.

(** Stripping on the right leaves the left end as it is. *)
Lemma lstrip_rstrip_none (p : ascii → bool) (s : string) :
  PyStr.lstrip_by p s = s → PyStr.lstrip_by p (PyStr.rstrip_by p s) = PyStr.rstrip_by p s.
Proof.
  destruct s as [|c s]; [reflexivity|]. cbn [PyStr.lstrip_by PyStr.rstrip_by].
  destruct (p c) eqn:C.
  - intros L. exfalso.
    assert (∀ t, String.length (PyStr.lstrip_by p t) ≤ String.length t) as Le.
    { induction t as [|y t IH]; cbn [PyStr.lstrip_by]; [reflexivity|].
      destruct (p y); cbn [String.length]; lia. }
    specialize (Le s). rewrite L in Le. cbn [String.length] in Le. lia.
  - intros _. destruct (PyStr.rstrip_by p s); cbn [PyStr.lstrip_by]; rewrite C; reflexivity.
Qed.

Lemma strip_idempotent (s : string) : PyStr.strip (PyStr.strip s) = PyStr.strip s.
Proof.
  unfold PyStr.strip, PyStr.strip_by.
  rewrite (lstrip_rstrip_none _ _ (lstrip_by_idempotent _ _)). apply rstrip_by_idempotent.
Qed.

(** A string that does not end with white space ends with a word. *)
Lemma last_word_split (s : string) :
  s ≠ "" → PyStr.rstrip_by PyStr.is_space s = s →
  ∃ pre w, s = pre +:+ w ∧ at_word_start pre ∧ is_word w.
Proof.
  induction s as [|c s IH]; [congruence|]. intros _ R.
  destruct s as [|x s].
  - cbn [PyStr.rstrip_by] in R. destruct (PyStr.is_space c) eqn:C; [discriminate R|].
    exists "", (String c ""). split; [reflexivity|]. split; [left; reflexivity|].
    split; [discriminate|]. cbn [PyStr.all_chars]. rewrite C. reflexivity.
  - assert (PyStr.rstrip_by PyStr.is_space (String x s) = String x s) as R'.
    { cbn [PyStr.rstrip_by] in R |- *. revert R.
      destruct (match PyStr.rstrip_by PyStr.is_space s with
                | "" => if PyStr.is_space x then "" else String x ""
                | String a s0 => String x (String a s0)
                end) eqn:E.
      - destruct (PyStr.is_space c); discriminate.
      - intros [= -> ->]. reflexivity. }
    destruct (IH ltac:(discriminate) R') as (pre & w & E & [->|(pre' & y & -> & Y)] & W).
    + app_step. cbn [String.append] in E. destruct (PyStr.is_space c) eqn:C.
      * exists (String c ""), w. split; [rewrite E; reflexivity|].
        split; [right; exists "", c; split; [reflexivity|exact C]|exact W].
      * exists "", (String c w). split; [rewrite E; reflexivity|].
        split; [left; reflexivity|]. split; [discriminate|].
        cbn [PyStr.all_chars]. rewrite C. apply W.
    + exists (String c (pre' +:+ String y "")), w. split; [rewrite E; reflexivity|].
      split; [|exact W]. right. exists (String c pre'), y. split; [reflexivity|exact Y].
Qed.

Lemma word_rstrip (w : string) : is_word w → PyStr.rstrip_by PyStr.is_space w = w.
Proof. intros [_ W]. apply rstrip_by_none, W. Qed.

(** The given name of a label that ends with a word is that word. *)
Lemma extract_given_name_last_word (pre w : string) :
  at_word_start pre → is_word w → PyStr.lstrip_by PyStr.is_space (pre +:+ w) = pre +:+ w →
  extract_given_name (pre +:+ w) = w.
Proof.
  intros P W L. unfold extract_given_name.
  assert (PyStr.strip (pre +:+ w) = pre +:+ w) as ->.
  { unfold PyStr.strip, PyStr.strip_by. rewrite L.
    rewrite rstrip_by_app_keep; rewrite (word_rstrip _ W); [reflexivity|apply W]. }
  assert (PyStr.is_empty (pre +:+ w) = false) as ->.
  { destruct W as [N _]. destruct pre; [destruct w; [congruence|reflexivity]|reflexivity]. }
  destruct P as [->|(pre' & c & -> & C)].
  - app_step. rewrite (split_runs_word _ _ _ _ (proj2 W)). reflexivity.
  - rewrite append_assoc. app_step. apply split_runs_last; [exact C|apply W|discriminate].
Qed.

Lemma strip_lstrip (s : string) : PyStr.lstrip_by PyStr.is_space (PyStr.strip s) = PyStr.strip s.
Proof.
  unfold PyStr.strip, PyStr.strip_by. apply lstrip_rstrip_none, lstrip_by_idempotent.
Qed.

Lemma strip_rstrip (s : string) : PyStr.rstrip_by PyStr.is_space (PyStr.strip s) = PyStr.strip s.
Proof. unfold PyStr.strip, PyStr.strip_by. apply rstrip_by_idempotent. Qed.

(** X6. The name token of a person with a label that is not blank is the
    name prefix and the slug of the last word of the label; the slug of
    the whole label is never used. Without such a label it is the
    fallback prefix and the identifier in lower case. *)
Theorem make_name_token_last_word (p : Person) (np fp : string) :
  let base := PyStr.strip (or_str (label_en p) "") in
  (base = "" ∧ make_name_token p np fp = fp +:+ PyStr.lower (qid p))
  ∨ (∃ pre w, base = pre +:+ w ∧ at_word_start pre ∧ is_word w
              ∧ extract_given_name base = w
              ∧ make_name_token p np fp = np +:+ slugify_to_token w).
Proof.
  intros base. unfold make_name_token. fold base.
  destruct base as [|c b] eqn:B; [left; split; reflexivity|]. right.
  destruct (last_word_split (String c b)) as (pre & w & E & P & W); [discriminate| |].
  { rewrite <- B. apply strip_rstrip. }
  exists pre, w. split; [exact E|]. split; [exact P|]. split; [exact W|].
  assert (extract_given_name (String c b) = w) as G.
  { rewrite E. apply extract_given_name_last_word; [exact P|exact W|].
    rewrite <- E, <- B. apply strip_lstrip. }
  split; [exact G|]. cbn [PyStr.is_empty negb]. rewrite G.
  destruct W as [N _]. destruct w; [congruence|reflexivity].
Qed.




Section tokens_of_people.
Context `{Externals}.


End tokens_of_people.


(** ** The date helpers together *)

Lemma substring_0_idempotent (n : nat) (s : string) :
  String.substring 0 n (String.substring 0 n s) = String.substring 0 n s.
Proof.
  revert s. induction n as [|n IH]; intros s; [destruct s; reflexivity|].
  destruct s as [|c s]; [reflexivity|]. cbn [String.substring]. rewrite IH. reflexivity.
Qed.

Lemma take_idempotent (n : nat) (s : string) : PyStr.take n (PyStr.take n s) = PyStr.take n s.
Proof. apply substring_0_idempotent. Qed.

Lemma take_is_empty (n : nat) (s : string) :
  PyStr.is_empty (PyStr.take (S n) s) = PyStr.is_empty s.
Proof. destruct s; reflexivity. Qed.

Lemma take_length (n : nat) (s : string) : String.length (PyStr.take n s) ≤ n.
Proof.
  unfold PyStr.take. revert s. induction n as [|n IH]; intros s; [destruct s; cbn; lia|].
  destruct s as [|c s]; cbn [String.substring String.length]; [lia|].
  specialize (IH s). lia.
Qed.

Section date_helpers.
Context `{Externals}.

(** X8. The two date helpers agree: [iso_to_eu_date] returns a text exactly
    when [parse_iso_date] returns a date, whose year is then positive, and
    the text is the year, the month and the day of that date in decimal,
    without padding, separated by dots. *)
Theorem date_helpers_agree (s : option string) :
  match parse_iso_date s with
  | Ok (Some dt) =>
      (0 < year dt)%Z
      ∧ iso_to_eu_date s
        = Ok (Some (pretty (year dt) +:+ "." +:+ pretty (month dt) +:+ "." +:+ pretty (day dt)))
  | Ok None => iso_to_eu_date s = Ok None
  | Raise _ | OutOfFuel => False
  end.
Proof.
  destruct s as [str|]; [|reflexivity]. unfold parse_iso_date, iso_to_eu_date.
  destruct (PyStr.is_empty str); [reflexivity|].
  destruct (strptime_Ymd _) as [dt|e]; cbn [call]; [|reflexivity].
  destruct (Z.leb_spec (year dt) 0); [reflexivity|]. split; [assumption|reflexivity].
Qed.

(** X9. The date helpers read the first ten characters only. *)
Theorem date_helpers_read_ten_chars (s s' : string) :
  PyStr.take 10 s = PyStr.take 10 s' →
  parse_iso_date (Some s) = parse_iso_date (Some s')
  ∧ iso_to_eu_date (Some s) = iso_to_eu_date (Some s').
Proof.
  intros E. unfold parse_iso_date, iso_to_eu_date.
  rewrite <- (take_is_empty 9 s), <- (take_is_empty 9 s'), E. split; reflexivity.
Qed.

Lemma date_leb_trans (a b c : date) :
  date_leb a b = true → date_leb b c = true → date_leb a c = true.
Proof.
  destruct a as [ya ma da], b as [yb mb db], c as [yc mc dc]. unfold date_leb. cbn.
  destruct (Z.ltb_spec ya yb), (Z.eqb_spec ya yb), (Z.ltb_spec ma mb), (Z.eqb_spec ma mb),
    (Z.leb_spec da db), (Z.ltb_spec yb yc), (Z.eqb_spec yb yc), (Z.ltb_spec mb mc),
    (Z.eqb_spec mb mc), (Z.leb_spec db dc); cbn; try discriminate; intros _ _;
    destruct (Z.ltb_spec ya yc), (Z.eqb_spec ya yc), (Z.ltb_spec ma mc), (Z.eqb_spec ma mc),
      (Z.leb_spec da dc); cbn; try reflexivity; lia.
Qed.

(** X10. The dates on which a person is alive form an interval, and
    requiring a birth date only ever excludes. *)
Theorem is_alive_on_interval (P : Person) (d1 d2 d3 : date) (rb : bool) :
  is_alive_on P d1 rb = Ok true → is_alive_on P d3 rb = Ok true →
  date_leb d1 d2 = true → date_leb d2 d3 = true →
  is_alive_on P d2 rb = Ok true ∧ is_alive_on P d2 false = Ok true.
Proof.
  destruct (parse_iso_date_total (birth P)) as [b Eb].
  destruct (parse_iso_date_total (death P)) as [d Ed].
  rewrite !(is_alive_on_unfold _ _ _ _ _ Eb Ed). intros [= A1] [= A3] L12 L23.
  apply andb_true_iff in A1 as [A1 D1]. apply andb_true_iff in A1 as [R1 B1].
  apply andb_true_iff in A3 as [A3 D3]. apply andb_true_iff in A3 as [_ B3].
  rewrite R1. cbn [andb negb].
  assert (negb match b with Some bd => date_ltb d2 bd | None => false end = true) as ->.
  { destruct b as [bd|]; [|reflexivity]. rewrite date_ltb_negb_leb, negb_involutive in B1 |- *.
    apply (date_leb_trans _ _ _ B1 L12). }
  assert (negb match d with Some dd => date_leb dd d2 | None => false end = true) as ->.
  { destruct d as [dd|]; [|reflexivity]. apply negb_true_iff.
    destruct (date_leb dd d2) eqn:L; [|reflexivity].
    rewrite (date_leb_trans _ _ _ L L23) in D3. discriminate D3. }
  split; reflexivity.
Qed.

End date_helpers.

Lemma date_helpers_read_ten_chars_witness :
  @parse_iso_date Demo.chain (Some "1420-04-10T00:00:00Z")
  = @parse_iso_date Demo.chain (Some "1420-04-10")
  ∧ @iso_to_eu_date Demo.chain (Some "1420-04-10T00:00:00Z")
    = @iso_to_eu_date Demo.chain (Some "1420-04-10").
Proof.
  apply (@date_helpers_read_ten_chars Demo.chain "1420-04-10T00:00:00Z" "1420-04-10").
  reflexivity.
Defined.

Lemma is_alive_on_interval_witness :
  @is_alive_on Demo.chain (Demo.born "1400-01-01" (Some "1450-01-01")) CUTOFF_DATE true = Ok true
  ∧ @is_alive_on Demo.chain (Demo.born "1400-01-01" (Some "1450-01-01")) CUTOFF_DATE false
    = Ok true.
Proof.
  apply (@is_alive_on_interval Demo.chain (Demo.born "1400-01-01" (Some "1450-01-01"))
           (Date 1400 1 1) CUTOFF_DATE (Date 1449 12 31) true); reflexivity.
Defined.

(** ** What the resolver stores *)

Lemma take10_field_inv (x : json) (o : option string) :
  take10_field x = Ok o → ∀ s, o = Some s → s ≠ "" ∧ String.length s ≤ 10.
Proof.
  unfold take10_field. destruct x; try (destruct (Py.truth _); [discriminate|]);
    intros [= <-] t E; try discriminate E.
  destruct s as [|c s]; [discriminate E|]. injection E as <-.
  split; [discriminate|apply take_length].
Qed.

Lemma last_segment_field_inv (x : json) (o : option string) :
  last_segment_field x = Ok o → ∀ s, o = Some s → has_char "/" s = false.
Proof.
  unfold last_segment_field. destruct x; try (destruct (Py.truth _); [discriminate|]);
    intros [= <-] t E; try discriminate E.
  destruct (PyStr.is_empty s); [discriminate E|]. injection E as <-.
  apply rsplit_last_no_sep.
Qed.

Section stored.
Context `{Externals}.

(** X11. What [fetch_person] returns has the normal form of the identifier
    it was asked for; a birth or death date it records is not empty and
    has at most ten characters; a father or mother it records holds no
    slash. *)
Theorem fetch_person_fields (raw : string) (p : Person) :
  fetch_person raw = Ok p →
  normalize_qid raw = Ok (qid p)
  ∧ (∀ b, birth p = Some b → b ≠ "" ∧ String.length b ≤ 10)
  ∧ (∀ d, death p = Some d → d ≠ "" ∧ String.length d ≤ 10)
  ∧ (∀ f, father_qid p = Some f → has_char "/" f = false)
  ∧ (∀ m, mother_qid p = Some m → has_char "/" m = false).
Proof.
  intros F. split; [apply fetch_person_qid, F|].
  unfold fetch_person in F. apply res_bind_ok in F as (q & _ & F).
  destruct (first_binding q) as [b|e|];
    [|injection F as <-; repeat split; discriminate|discriminate F].
  apply res_bind_ok in F as (v1 & _ & F). apply res_bind_ok in F as (v2 & _ & F).
  apply res_bind_ok in F as (v3 & _ & F). apply res_bind_ok in F as (v4 & _ & F).
  apply res_bind_ok in F as (v5 & _ & F). apply res_bind_ok in F as (v6 & _ & F).
  apply res_bind_ok in F as (f & Ef & F). apply res_bind_ok in F as (m & Em & F).
  apply res_bind_ok in F as (v7 & _ & F). apply res_bind_ok in F as (l1 & _ & F).
  apply res_bind_ok in F as (l2 & _ & F). apply res_bind_ok in F as (bd & Eb & F).
  apply res_bind_ok in F as (dd & Ed & F). apply res_bind_ok in F as (pl & _ & F).
  injection F as <-. cbn [birth death father_qid mother_qid].
  split; [apply (take10_field_inv _ _ Eb)|]. split; [apply (take10_field_inv _ _ Ed)|].
  split; [apply (last_segment_field_inv _ _ Ef)|apply (last_segment_field_inv _ _ Em)].
Qed.

(** X12. Every child [fetch_children_qids] returns is a normal identifier:
    [normalize_qid] accepts it and leaves it as it is, and a person
    resolved for it has that identifier. *)
Theorem fetch_children_qids_resolvable (raw : string) (cs : list string) :
  fetch_children_qids raw = Ok cs →
  Forall (λ c, normalize_qid c = Ok c ∧ ∀ p, fetch_person c = Ok p → qid p = c) cs.
Proof.
  intros F. apply fetch_children_valid in F. eapply Forall_impl; [exact F|].
  intros c Q. pose proof (fullmatch_qid_normal _ Q) as N. split; [exact N|].
  intros p Fp. apply fetch_person_qid in Fp. rewrite N in Fp. injection Fp as ->. reflexivity.
Qed.

End stored.

Lemma fetch_person_fields_witness :
  normalize_qid "http://www.wikidata.org/entity/Q3" = Ok "Q3"
  ∧ (∀ b, Some "1420-04-10" = Some b → b ≠ "" ∧ String.length b ≤ 10)
  ∧ (∀ d, @None string = Some d → d ≠ "" ∧ String.length d ≤ 10)
  ∧ (∀ f, Some "Q2" = Some f → has_char "/" f = false)
  ∧ (∀ m, @None string = Some m → has_char "/" m = false).
Proof.
  exact (@fetch_person_fields Demo.chain "http://www.wikidata.org/entity/Q3"
           (Build_Person "Q3" (Some "Ouchi Norihiro") None (Some "1420-04-10") None (Some "Q2")
              None None) eq_refl).
Defined.

Lemma fetch_children_qids_resolvable_witness :
  Forall (λ c, normalize_qid c = Ok c ∧ ∀ p, @fetch_person Demo.family c = Ok p → qid p = c)
    ["Q2"; "Q3"].
Proof. exact (@fetch_children_qids_resolvable Demo.family "Q1" ["Q2"; "Q3"] eq_refl). Defined.

(** ** The memo tables *)

Section memo.
Context `{Externals} (cfg : Config).

(** X13. [get_person] answers a repeated request from the cache: after it
    has returned a person for an identifier, it returns the same person
    for every spelling of that identifier and leaves the state as it is.
    It only adds to the cache, and from a cache that holds what
    [fetch_person] returns it returns what [fetch_person] returns. *)
Theorem get_person_memoized (raw raw' : string) (σ σ' : State) (p : Person) :
  get_person raw σ = (Ok p, σ') → normalize_qid raw' = normalize_qid raw →
  get_person raw' σ' = (Ok p, σ')
  ∧ person_cache σ ⊆ person_cache σ'
  ∧ (cache_ok σ → fetch_person raw = Ok p ∧ cache_ok σ').
Proof.
  intros G N. destruct (get_person_inv _ _ _ _ G) as (_ & (c & -> & Sub) & CO & L).
  destruct (L p eq_refl) as (q & Nq & Lq). split; [|split].
  - rewrite get_person_run, N, Nq, Lq. reflexivity.
  - exact Sub.
  - intros C. split; [|apply CO, C].
    destruct (CO C q p Lq) as [_ F]. rewrite <- (fetch_person_normal _ _ Nq). exact F.
Qed.

(** X14. [id_for_qid] only adds to its memo, and an identifier it has
    answered once gets the same answer, with the state left as it is, in
    every state whose memo holds what it held then. *)
Theorem id_for_qid_stable (raw raw' : string) (σ σ' σ'' : State) (c : string) :
  id_for_qid cfg raw σ = (Ok c, σ') → normalize_qid raw' = normalize_qid raw →
  qid_to_char_id σ' ⊆ qid_to_char_id σ'' →
  id_for_qid cfg raw' σ'' = (Ok c, σ'') ∧ qid_to_char_id σ ⊆ qid_to_char_id σ'.
Proof.
  intros G N Sub. destruct (id_for_qid_inv _ _ _ _ _ G) as (_ & _ & _ & _ & Ext & _ & L).
  destruct (L c eq_refl) as (q & Nq & Lq). split; [|exact Ext].
  unfold id_for_qid. rewrite run_bind, run_lift, N, Nq. rewrite run_bind. cbn [gets].
  rewrite (lookup_weaken _ _ _ _ Lq Sub). reflexivity.
Qed.

End memo.

Lemma get_person_memoized_witness :
  let σ' := (@get_person Demo.chain "Q3" init_state).2 in
  @get_person Demo.chain " http://www.wikidata.org/entity/Q3" σ'
  = (Ok (Build_Person "Q3" (Some "Ouchi Norihiro") None (Some "1420-04-10") None (Some "Q2")
            None None), σ')
  ∧ person_cache init_state ⊆ person_cache σ'
  ∧ (@cache_ok Demo.chain init_state →
     @fetch_person Demo.chain "Q3"
     = Ok (Build_Person "Q3" (Some "Ouchi Norihiro") None (Some "1420-04-10") None (Some "Q2")
             None None)
     ∧ @cache_ok Demo.chain σ').
Proof.
  apply (@get_person_memoized Demo.chain "Q3" " http://www.wikidata.org/entity/Q3" init_state);
    vm_compute; reflexivity.
Defined.

Lemma id_for_qid_stable_witness :
  let σ' := (@id_for_qid Demo.chain Demo.defaults "Q3" init_state).2 in
  @id_for_qid Demo.chain Demo.defaults " Q3" σ' = (Ok "wd_ouchi_norihiro", σ')
  ∧ qid_to_char_id init_state ⊆ qid_to_char_id σ'.
Proof.
  apply (@id_for_qid_stable Demo.chain Demo.defaults "Q3" " Q3" init_state);
    [vm_compute; reflexivity..|reflexivity].
Defined.

(** ** Rules of [triple] *)

Lemma triple_ret {A} (a : A) (P : State → Prop) (Q : A → State → Prop) (E : State → Prop) :
  (∀ σ, P σ → Q a σ) → triple P (mret a) Q E.
Proof. intros I σ Pσ. apply I, Pσ. Qed.

Lemma triple_bind {A B} (m : M A) (f : A → M B) (P : State → Prop) (Q1 : A → State → Prop)
    (Q : B → State → Prop) (E : State → Prop) :
  triple P m Q1 E → (∀ a, triple (Q1 a) (f a) Q E) → triple P (m ≫= f) Q E.
Proof.
  intros Tm Tf σ Pσ. specialize (Tm σ Pσ). rewrite run_bind.
  destruct (m σ) as [[a|e|] σ1]; cbn in Tm |- *; [apply Tf, Tm|exact Tm..].
Qed.

Lemma triple_conseq {A} (m : M A) (P P' : State → Prop) (Q Q' : A → State → Prop)
    (E E' : State → Prop) :
  triple P' m Q' E' → (∀ σ, P σ → P' σ) → (∀ a σ, Q' a σ → Q a σ) → (∀ σ, E' σ → E σ) →
  triple P m Q E.
Proof.
  intros T IP IQ IE σ Pσ. specialize (T σ (IP σ Pσ)).
  destruct (m σ).1; [apply IQ, T|apply IE, T..].
Qed.

Lemma triple_lift_bind {A B} (r : res A) (k : A → M B) (P : State → Prop)
    (Q : B → State → Prop) (E : State → Prop) :
  (r = OutOfFuel ∨ (∃ e, r = Raise e) → ∀ σ, P σ → E σ) →
  (∀ a, r = Ok a → triple P (k a) Q E) → triple P (lift r ≫= k) Q E.
Proof.
  intros Fail Go σ Pσ. rewrite run_bind, run_lift. destruct r as [a|e|].
  - apply (Go a eq_refl σ Pσ).
  - cbn. apply Fail; eauto.
  - cbn. apply Fail; eauto.
Qed.

Lemma triple_gets_bind {A B} (f : State → A) (k : A → M B) (P : State → Prop)
    (Q : B → State → Prop) (E : State → Prop) :
  (∀ a, triple (λ σ, P σ ∧ f σ = a) (k a) Q E) → triple P (gets f ≫= k) Q E.
Proof. intros Go σ Pσ. rewrite run_bind. cbn [gets]. apply (Go (f σ) σ). split; [exact Pσ|reflexivity]. Qed.

Lemma triple_modify (f : State → State) (P : State → Prop) (Q : unit → State → Prop)
    (E : State → Prop) :
  (∀ σ, P σ → Q tt (f σ)) → triple P (modify f) Q E.
Proof. intros I σ Pσ. apply I, Pσ. Qed.

Lemma triple_when (b : bool) (m : M unit) (P : State → Prop) (E : State → Prop) :
  (b = true → triple P m (λ _, P) E) → triple P (when b m) (λ _, P) E.
Proof. destruct b; intros T; [apply T; reflexivity|apply triple_ret; auto]. Qed.

Lemma triple_for_each {A} (l : list A) (body : A → M unit) (P : State → Prop)
    (E : State → Prop) :
  (∀ x, x ∈ l → triple P (body x) (λ _, P) E) → triple P (for_each l body) (λ _, P) E.
Proof.
  induction l as [|x l IH]; intros T; cbn [for_each]; [apply triple_ret; auto|].
  eapply triple_bind; [apply T, list_elem_of_here|]. intros []. apply IH. intros y I.
  apply T, list_elem_of_further, I.
Qed.

(** A computation that leaves the fields [f] as they are keeps what
    depends on them only. *)
Lemma triple_frame {A B} (f : State → B) (m : M A) (P : State → Prop) :
  preserves (same f) m → (∀ σ σ', f σ' = f σ → P σ → P σ') → triple P m (λ _, P) P.
Proof.
  intros Pm Dep σ Pσ. specialize (Pm σ). unfold same in Pm.
  destruct (m σ).1; apply (Dep σ _ Pm Pσ).
Qed.

Lemma triple_pre {A} (m : M A) (P P' : State → Prop) (Q : A → State → Prop)
    (E : State → Prop) :
  triple P' m Q E → (∀ σ, P σ → P' σ) → triple P m Q E.
Proof. intros T I. eapply triple_conseq; [exact T|exact I|auto..]. Qed.

(** ** The empty lines between the blocks *)

Lemma joined_snoc (bs : list out_item) (b : out_item) :
  bs ≠ [] → joined (bs ++ [b]) = joined bs ++ [Blank; b].
Proof.
  induction bs as [|x bs IH]; [congruence|]. intros _.
  destruct bs as [|y bs]; [reflexivity|].
  change (joined ((x :: y :: bs) ++ [b])) with (x :: Blank :: joined ((y :: bs) ++ [b])).
  rewrite IH; [reflexivity|discriminate].
Qed.

Lemma separated_open_of_separated (σ : State) : separated σ → separated_open σ.
Proof. intros (bs & F & O & _). exists bs. split; [exact F|left; exact O]. Qed.

Lemma separated_open_of_pending (σ : State) : separated_pending σ → separated_open σ.
Proof.
  intros (bs & F & [(_ & B & O)|(_ & N & O)]); exists bs; (split; [exact F|]);
    [left; rewrite O, B; reflexivity|right; split; assumption].
Qed.

Section separators.
Context `{Externals} (cfg : Config).

Lemma separated_dep (σ σ' : State) : shown σ' = shown σ → separated σ → separated σ'.
Proof.
  intros [= O E] (bs & F & I). exists bs. split; [exact F|]. rewrite O, E. exact I.
Qed.

Lemma separated_pending_dep (σ σ' : State) :
  shown σ' = shown σ → separated_pending σ → separated_pending σ'.
Proof.
  intros [= O E] (bs & F & I). exists bs. split; [exact F|]. rewrite O, E. exact I.
Qed.

Lemma get_person_shown (raw : string) : preserves (same shown) (get_person raw).
Proof. apply get_person_same. intros ? ?; reflexivity. Qed.

Lemma id_for_qid_shown (raw : string) : preserves (same shown) (id_for_qid cfg raw).
Proof.
  apply id_for_qid_preserves; [apply _|exact get_person_shown|intros ? ?; reflexivity..].
Qed.

Lemma render_character_entry_shown (person : Person) (cid : string) (refs : bool)
    (known : option (gset string)) :
  preserves (same shown) (render_character_entry cfg person cid refs known).
Proof.
  apply render_character_entry_preserves;
    [apply _|exact get_person_shown|intros ? ?; reflexivity..].
Qed.

Lemma print_entry_separated (person : Person) (q : string) (all : gset string) :
  triple separated (print_entry cfg person q all) (λ _, separated) separated_open.
Proof.
  unfold print_entry. apply triple_gets_bind. intros done.
  eapply (triple_bind _ _ _ (λ _, separated_pending)).
  { intros σ [(bs & F & O & Iff) <-].
    destruct (decide (emitted σ = ∅)) as [Em|Em].
    - rewrite (bool_decide_eq_true_2 _ Em). cbn. exists bs. split; [exact F|]. left.
      pose proof (proj1 Iff Em) as ->. auto.
    - rewrite (bool_decide_eq_false_2 _ Em). cbn. exists bs. split; [exact F|]. right.
      split; [exact Em|]. split; [intros B; apply Em, Iff, B|]. rewrite O. reflexivity. }
  intros _. eapply (triple_bind _ _ _ (λ _, separated_pending)).
  { eapply triple_conseq; [apply (triple_frame shown), separated_pending_dep
                          |auto..|apply separated_open_of_pending].
    apply id_for_qid_shown. }
  intros char_id. eapply (triple_bind _ _ _ (λ _, separated_pending)).
  { eapply triple_conseq; [apply (triple_frame shown), separated_pending_dep
                          |auto..|apply separated_open_of_pending].
    apply render_character_entry_shown. }
  intros lines σ (bs & F & I). unfold print, modify. rewrite run_bind.
  cbn [fst snd set_emitted set_stdout stdout emitted].
  exists (bs ++ [Block person lines]). split; [apply Forall_app; split; [exact F|]|].
  { constructor; [reflexivity|constructor]. }
  split.
  - destruct I as [(_ & -> & ->)|(_ & N & ->)]; [reflexivity|].
    rewrite (joined_snoc _ _ N), <- app_assoc. reflexivity.
  - split.
    + intros Em. exfalso. assert (q ∈ (∅ : gset string)) as I';
        [|apply elem_of_empty in I'; exact I'].
      rewrite <- Em. cbn. apply elem_of_union. left. apply elem_of_singleton. reflexivity.
    + intros B. destruct bs; discriminate B.
Qed.

Lemma emit_parents_first_separated (fuel : nat) (raw : string) :
  triple separated (emit_parents_first cfg fuel raw) (λ _, separated) separated_open.
Proof.
  revert raw. induction fuel as [|fuel IH]; intros raw; cbn [emit_parents_first].
  { intros σ S. apply separated_open_of_separated, S. }
  apply triple_lift_bind; [intros _ σ S; apply separated_open_of_separated, S|].
  intros q _. apply triple_gets_bind. intros done.
  apply (triple_pre _ _ separated); [|intros σ [S _]; exact S].
  destruct (bool_decide (q ∈ done)); [apply triple_ret; auto|].
  eapply (triple_bind _ _ _ (λ _, separated)).
  { eapply triple_conseq; [apply (triple_frame shown), separated_dep
                          |auto..|apply separated_open_of_separated].
    apply get_person_shown. }
  intros person. apply triple_gets_bind. intros all.
  apply (triple_pre _ _ separated); [|intros σ [S _]; exact S].
  eapply triple_bind; [apply triple_when; intros _; apply IH|]. intros [].
  eapply triple_bind; [apply triple_when; intros _; apply IH|]. intros [].
  apply print_entry_separated.
Qed.

Lemma emit_all_separated (inc : bool) (fuel : nat) (root : string) :
  triple separated (emit_all cfg inc fuel root) (λ _, separated) separated_open.
Proof.
  unfold emit_all. destruct inc.
  - eapply triple_bind; [apply emit_parents_first_separated|]. intros [].
    apply triple_gets_bind. intros desc.
    apply (triple_pre _ _ separated); [|intros σ [S _]; exact S].
    apply triple_for_each. intros x _. apply emit_parents_first_separated.
  - apply triple_gets_bind. intros anc.
    apply (triple_pre _ _ separated); [|intros σ [S _]; exact S].
    apply triple_for_each. intros x _. apply emit_parents_first_separated.
Qed.

(** X15. The output of every run is character blocks with one empty line
    between each two: it does not start with an empty line and has no two
    empty lines or two blocks in a row. A run that returns ends its output
    with a block; one that raises may leave the empty line that was to
    precede the next block. *)
Theorem output_blocks_separated (fuel : nat) (root : string) :
  let run := emit_person_with_ancestors_and_descendants cfg fuel root init_state in
  ∃ bs, Forall (λ b, is_block b = true) bs
        ∧ (stdout run.2 = joined bs
           ∨ (run.1 ≠ Ok tt ∧ bs ≠ [] ∧ stdout run.2 = joined bs ++ [Blank])).
Proof.
  intros run. subst run.
  assert (∀ (r : res unit) σ, stdout σ = [] →
    ∃ bs, Forall (λ b, is_block b = true) bs
          ∧ (stdout σ = joined bs ∨ (r ≠ Ok tt ∧ bs ≠ []
                                     ∧ stdout σ = joined bs ++ [Blank]))) as Quiet.
  { intros r σ O. exists []. split; [constructor|left; exact O]. }
  unfold emit_person_with_ancestors_and_descendants.
  rewrite run_bind, run_lift.
  destruct (normalize_qid root) as [q|e|]; [|apply Quiet; reflexivity..].
  rewrite run_bind. destruct (get_person q init_state) as [rp σ1] eqn:GP.
  destruct (get_person_inv _ _ _ _ GP) as (_ & (c & -> & _) & _ & _).
  destruct rp as [p|e|]; [|apply Quiet; reflexivity..].
  rewrite run_bind, run_lift.
  destruct (is_alive_on_total p CUTOFF_DATE false) as [a ->]. cbv zeta.
  unfold run_from_root. rewrite run_bind.
  destruct (collect cfg _ q _) as [rc σc] eqn:GC.
  destruct (collect_inv _ _ _ _ _ _ GC) as (O & _ & Em). cbn in O.
  destruct rc as [[]|e|]; [|apply Quiet; exact O..].
  pose proof (emit_all_separated (include_root_if_not_alive cfg || a) fuel q σc) as T.
  destruct (emit_all cfg _ fuel q σc) as [r σ'] eqn:GE. cbn [fst snd] in T |- *.
  assert (separated σc) as S.
  { exists []. split; [constructor|]. split; [exact O|]. split; [reflexivity|].
    intros _. apply Em. reflexivity. }
  specialize (T S). destruct r as [[]|e|].
  - destruct T as (bs & F & Ob & _). exists bs. split; [exact F|left; exact Ob].
  - destruct T as (bs & F & [Ob|[N Ob]]); exists bs; (split; [exact F|]);
      [left; exact Ob|right; split; [discriminate|split; assumption]].
  - destruct T as (bs & F & [Ob|[N Ob]]); exists bs; (split; [exact F|]);
      [left; exact Ob|right; split; [discriminate|split; assumption]].
Qed.

End separators.

(** ** The lineage completion *)

Section lineage.
Context `{Externals}.

Lemma get_person_fetched (raw : string) (σ σ' : State) (p : Person) :
  cache_ok σ → get_person raw σ = (Ok p, σ') →
  ∃ q, normalize_qid raw = Ok q ∧ fetch_person q = Ok p ∧ qid p = q.
Proof.
  intros C G. destruct (get_person_inv _ _ _ _ G) as (_ & _ & CO & L).
  destruct (L p eq_refl) as (q & N & Lq). exists q. split; [exact N|].
  destruct (CO C q p Lq) as [_ F]. split; [exact F|]. apply (cache_ok_qid _ _ _ (CO C) Lq).
Qed.

Lemma father_link_resolved (raw x : string) (σ σ' : State) (p : Person) :
  cache_ok σ → get_person raw σ = (Ok p, σ') →
  father_link raw x ↔ truthy (father_qid p) = true ∧ or_str (father_qid p) "" = x.
Proof.
  intros C G. destruct (get_person_fetched _ _ _ _ C G) as (q & N & F & _). split.
  - intros (q' & p' & N' & F' & T & O). rewrite N in N'. injection N' as <-.
    rewrite F in F'. injection F' as <-. split; assumption.
  - intros [T O]. exists q, p. repeat split; assumption.
Qed.

(** One round: the inclusion set gains the fathers of the frontier that
    it lacks, and these make the next frontier. *)
Lemma ensure_fathers_round_spec (l : list string) :
  ∀ (nf : gset string) (σ σ' : State) (r : res (gset string)),
    ensure_fathers_round l nf σ = (r, σ') → cache_ok σ →
    cache_ok σ'
    ∧ all_qids σ ⊆ all_qids σ'
    ∧ (∀ y, y ∈ all_qids σ' → y ∈ all_qids σ ∨ ∃ x, x ∈ l ∧ father_link x y)
    ∧ (∀ nf', r = Ok nf' →
         nf ⊆ nf'
         ∧ (∀ x y, x ∈ l → father_link x y → y ∈ all_qids σ')
         ∧ (∀ y, y ∈ nf' → y ∈ nf ∨ (y ∈ all_qids σ' ∧ ∃ x, x ∈ l ∧ father_link x y))
         ∧ (∀ y, y ∈ all_qids σ' → y ∈ all_qids σ ∨ y ∈ nf')).
Proof.
  induction l as [|q l IH]; intros nf σ σ' r G C.
  { cbn in G. injection G as <- <-. split; [exact C|]. split; [reflexivity|].
    split; [auto|]. intros nf' [= <-]. split; [reflexivity|].
    split; [intros x y []%elem_of_nil|]. split; auto. }
  cbn [ensure_fathers_round] in G. rewrite run_bind in G.
  destruct (get_person q σ) as [rp σ1] eqn:GP.
  destruct (get_person_inv _ _ _ _ GP) as (Rp & (c & E1 & _) & CO & _).
  specialize (CO C).
  assert (all_qids σ1 = all_qids σ) as A1 by (rewrite E1; reflexivity).
  destruct rp as [p|e|].
  2,3: injection G as <- <-; rewrite A1; split; [exact CO|]; split; [reflexivity|];
       split; [auto|discriminate].
  pose proof (father_link_resolved q) as FL. specialize (FL) with (1 := C) (2 := GP).
  rewrite run_bind in G. cbn [gets] in G.
  destruct (truthy (father_qid p) && negb (bool_decide (or_str (father_qid p) "" ∈ all_qids σ1)))
    eqn:B.
  - apply andb_true_iff in B as [T NI]. apply negb_true_iff, bool_decide_eq_false in NI.
    set (f := or_str (father_qid p) "") in *. cbv zeta in G. rewrite run_bind in G.
    cbn [modify] in G.
    specialize (IH _ _ _ _ G). cbn [all_qids set_all_qids] in IH.
    destruct (IH ltac:(exact CO)) as (C' & Sub & Only & Okk).
    assert (father_link q f) as Lf by (apply FL; split; [exact T|reflexivity]).
    split; [exact C'|]. split; [|split].
    + rewrite <- A1. etransitivity; [|exact Sub]. apply union_subseteq_r.
    + intros y Iy. destruct (Only y Iy) as [[->%elem_of_singleton|I]%elem_of_union|(x & Ix & Lx)].
      * right. exists q. split; [left|exact Lf].
      * left. rewrite <- A1. exact I.
      * right. exists x. split; [right; exact Ix|exact Lx].
    + intros nf' ->. destruct (Okk nf' eq_refl) as (Snf & Comp & New & Cover).
      split; [etransitivity; [|exact Snf]; apply union_subseteq_r|]. split; [|split].
      * intros x y [->|Ix]%elem_of_cons Lx; [|apply (Comp x y Ix Lx)].
        apply FL in Lx as [_ <-]. apply Sub, elem_of_union. left.
        apply elem_of_singleton. reflexivity.
      * intros y Iy. destruct (New y Iy) as [[->%elem_of_singleton|I]%elem_of_union|[I (x & Ix & Lx)]].
        -- right. split; [|exists q; split; [left|exact Lf]].
           apply Sub, elem_of_union. left. apply elem_of_singleton. reflexivity.
        -- left. exact I.
        -- right. split; [exact I|]. exists x. split; [right; exact Ix|exact Lx].
      * intros y Iy. destruct (Cover y Iy) as [[->%elem_of_singleton|I]%elem_of_union|I].
        -- right. apply Snf, elem_of_union. left. apply elem_of_singleton. reflexivity.
        -- left. rewrite <- A1. exact I.
        -- right. exact I.
  - specialize (IH _ _ _ _ G CO). destruct IH as (C' & Sub & Only & Okk).
    rewrite A1 in Sub, Only.
    split; [exact C'|]. split; [exact Sub|]. split.
    + intros y Iy. destruct (Only y Iy) as [I|(x & Ix & Lx)]; [left; exact I|].
      right. exists x. split; [right; exact Ix|exact Lx].
    + intros nf' ->. destruct (Okk nf' eq_refl) as (Snf & Comp & New & Cover).
      split; [exact Snf|]. split; [|split].
      * intros x y [->|Ix]%elem_of_cons Lx; [|apply (Comp x y Ix Lx)].
        apply FL in Lx as [T <-]. rewrite T in B. cbn [andb] in B.
        apply negb_false_iff, bool_decide_eq_true in B. rewrite A1 in B. apply Sub, B.
      * intros y Iy. destruct (New y Iy) as [I|[I (x & Ix & Lx)]]; [left; exact I|].
        right. split; [exact I|]. exists x. split; [right; exact Ix|exact Lx].
      * intros y Iy. rewrite A1 in Cover. apply (Cover y Iy).
Qed.

Lemma reach_closed (R : string → string → Prop) (X : gset string) (k : nat) (q x : string) :
  (∀ a b, a ∈ X → R a b → b ∈ X) → q ∈ X → reach R k q x → x ∈ X.
Proof.
  intros Cl Iq. revert x. induction k as [|k IH]; intros x; cbn [reach].
  - intros ->. exact Iq.
  - intros (y & Py & L). apply (Cl y x (IH y Py) L).
Qed.

(** The rounds: after [i] of them the inclusion set holds what [i]
    father links reach from the set [base] the completion started from,
    and the frontier is what the last round added. *)
Lemma ensure_fathers_spec (base : gset string) (n : nat) :
  ∀ (i : nat) (frontier : gset string) (σ σ' : State) (r : res unit),
    ensure_fathers n frontier σ = (r, σ') → cache_ok σ →
    frontier ⊆ all_qids σ →
    (∀ x, x ∈ frontier → ∃ q, q ∈ base ∧ reach father_link i q x) →
    (∀ x, x ∈ all_qids σ → ∃ k q, k ≤ i ∧ q ∈ base ∧ reach father_link k q x) →
    (∀ x y, x ∈ all_qids σ → x ∉ frontier → father_link x y → y ∈ all_qids σ) →
    (∀ k q x, k ≤ i → q ∈ base → reach father_link k q x → x ∈ all_qids σ) →
    cache_ok σ'
    ∧ all_qids σ ⊆ all_qids σ'
    ∧ (∀ x, x ∈ all_qids σ' → ∃ k q, k ≤ i + n ∧ q ∈ base ∧ reach father_link k q x)
    ∧ (r = Ok tt → ∀ k q x, k ≤ i + n → q ∈ base → reach father_link k q x → x ∈ all_qids σ').
Proof.
  induction n as [|n IH]; intros i frontier σ σ' r G C Fr TF T R Sc.
  { cbn in G. injection G as <- <-. rewrite Nat.add_0_r. split; [exact C|].
    split; [reflexivity|]. split; [exact T|]. intros _. exact Sc. }
  cbn [ensure_fathers] in G. rewrite run_bind in G.
  destruct (ensure_fathers_round (elements frontier) ∅ σ) as [r1 σ1] eqn:G1.
  destruct (ensure_fathers_round_spec _ _ _ _ _ G1 C) as (C1 & Sub1 & Only1 & Ok1).
  assert (∀ x, x ∈ all_qids σ1 → ∃ k q, k ≤ S i ∧ q ∈ base ∧ reach father_link k q x) as T1.
  { intros y Iy. destruct (Only1 y Iy) as [I|(x & Ix%elem_of_elements & Lx)].
    - destruct (T y I) as (k & q & Hk & Iq & P). exists k, q. split; [lia|]. split; assumption.
    - destruct (TF x Ix) as (q & Iq & P). exists (S i), q. split; [lia|]. split; [exact Iq|].
      exists x. split; assumption. }
  assert (∀ x, x ∈ all_qids σ1 → ∃ k q, k ≤ i + S n ∧ q ∈ base ∧ reach father_link k q x) as T1'.
  { intros x Ix. destruct (T1 x Ix) as (k & q & Hk & Iq & P). exists k, q.
    split; [lia|]. split; assumption. }
  destruct r1 as [nf|e|];
    [|injection G as <- <-; split; [exact C1|]; split; [exact Sub1|]; split;
      [exact T1'|discriminate]..].
  destruct (Ok1 nf eq_refl) as (_ & Comp & New & Cover).
  assert (∀ x y, x ∈ all_qids σ → father_link x y → y ∈ all_qids σ1) as Step.
  { intros x y Ix L. destruct (decide (x ∈ frontier)) as [If|Nf].
    - apply (Comp x y); [apply elem_of_elements, If|exact L].
    - apply Sub1, (R x y Ix Nf L). }
  destruct (bool_decide (nf = ∅)) eqn:B.
  - apply bool_decide_eq_true in B. subst nf. injection G as <- <-.
    split; [exact C1|]. split; [exact Sub1|]. split; [exact T1'|]. intros _ k q x _ Iq P.
    apply (reach_closed father_link (all_qids σ1) k q x); [|apply Sub1, (Sc 0 q q); [lia|exact Iq|reflexivity]
                                                  |exact P].
    intros a b Ia L. destruct (Cover a Ia) as [I|I]; [apply (Step a b I L)|].
    apply elem_of_empty in I. destruct I.
  - specialize (IH (S i) nf σ1 σ' r G C1).
    destruct IH as (C' & Sub' & T' & S').
    + intros y Iy. destruct (New y Iy) as [I|[I _]]; [apply elem_of_empty in I; destruct I|exact I].
    + intros y Iy. destruct (New y Iy) as [I|[_ (x & Ix%elem_of_elements & Lx)]];
        [apply elem_of_empty in I; destruct I|].
      destruct (TF x Ix) as (q & Iq & P). exists q. split; [exact Iq|]. exists x. split; assumption.
    + exact T1.
    + intros x y Ix Nx L. destruct (Cover x Ix) as [I|I]; [apply (Step x y I L)|contradiction].
    + intros k q x Hk Iq P. destruct k as [|k]; [apply Sub1, (Sc 0 q x); [lia|exact Iq|exact P]|].
      destruct P as (y & Py & L). apply (Step y x); [|exact L].
      apply (Sc k q y); [lia|exact Iq|exact Py].
    + split; [exact C'|]. split; [etransitivity; eassumption|].
      replace (i + S n) with (S i + n) by lia. split; [exact T'|exact S'].
Qed.

(** X16. The lineage completion, started on an inclusion set with [n]
    rounds allowed, leaves, when it returns, exactly what at most [n]
    father links reach from that set. *)
Theorem ensure_fathers_patriline (n : nat) (σ σ' : State) :
  cache_ok σ → ensure_fathers n (all_qids σ) σ = (Ok tt, σ') →
  ∀ x, x ∈ all_qids σ' ↔ ∃ k q, k ≤ n ∧ q ∈ all_qids σ ∧ reach father_link k q x.
Proof.
  intros C G.
  destruct (ensure_fathers_spec (all_qids σ) n 0 (all_qids σ) σ σ' (Ok tt) G C)
    as (_ & _ & Sound & Complete).
  - reflexivity.
  - intros x Ix. exists x. split; [exact Ix|reflexivity].
  - intros x Ix. exists 0, x. split; [lia|]. split; [exact Ix|reflexivity].
  - intros x y Ix Nx. contradiction.
  - intros k q x Hk Iq P. assert (k = 0) as -> by lia. cbn in P. subst x. exact Iq.
  - intros x. split; [apply Sound|].
    intros (k & q & Hk & Iq & P). apply (Complete eq_refl k q x); assumption.
Qed.

End lineage.

Lemma ensure_fathers_patriline_witness :
  let σ := set_all_qids {["Q3"]} init_state in
  "Q2" ∈ all_qids (@ensure_fathers Demo.chain 1 (all_qids σ) σ).2
  ↔ ∃ k q, k ≤ 1 ∧ q ∈ all_qids σ ∧ reach (@father_link Demo.chain) k q "Q2".
Proof.
  intros σ.
  apply (@ensure_fathers_patriline Demo.chain 1 σ).
  - intros k p L. cbn in L. rewrite lookup_empty in L. discriminate L.
  - apply injective_projections; [vm_compute; reflexivity|reflexivity].
Defined.

Lemma triple_pure {A} (φ : Prop) (m : M A) (P : State → Prop) (Q : A → State → Prop)
    (E : State → Prop) :
  (φ → triple P m Q E) → triple (λ σ, P σ ∧ φ) m Q E.
Proof. intros T σ [Pσ F]. apply (T F σ Pσ). Qed.

(** ** What the inclusion set holds *)

Section inclusion.
Context `{Externals} (cfg : Config) (root : string).

Abbreviation sound := (inclusion_sound cfg root).

Lemma inclusion_sound_frame {A} (m : M A) :
  preserves keeps_cache_ok m → preserves (same collected) m →
  triple sound m (λ _, sound) sound.
Proof.
  intros K S σ (C & I & T). specialize (K σ C). specialize (S σ).
  assert (sound (m σ).2) as Snd.
  { injection S as Ea Ed Eq. split; [exact K|]. rewrite Ea, Ed, Eq. split; assumption. }
  destruct (m σ).1; exact Snd.
Qed.

Lemma get_person_sound (raw : string) :
  triple sound (get_person raw)
    (λ p σ, sound σ ∧ ∃ q, normalize_qid raw = Ok q ∧ fetch_person q = Ok p ∧ qid p = q)
    sound.
Proof.
  intros σ S. pose proof (inclusion_sound_frame (get_person raw)
    (get_person_keeps_cache_ok raw)
    (get_person_same collected raw ltac:(intros ? ?; reflexivity)) σ S) as T.
  destruct (get_person raw σ) as [r σ'] eqn:G. cbn [fst snd] in T |- *.
  destruct r as [p|e|]; [|exact T..]. split; [exact T|].
  apply (get_person_fetched raw σ σ' p (proj1 S) G).
Qed.

Lemma gather_ancestors_include_sound (inc : bool) (person : Person) (raw q : string)
    (depth : nat) :
  normalize_qid root = Ok root → (inc = true → root_included cfg root) →
  depth ≤ max_ancestor_depth cfg → reach parent_link depth root raw →
  normalize_qid raw = Ok q → fetch_person q = Ok person →
  triple sound (gather_ancestors_include inc person q depth) (λ _, sound) sound.
Proof.
  intros Nr Inc Hd Rc N F.
  assert (collected_from cfg root q → ∀ σ, sound σ →
          sound (set_ancestor_qids ({[q]} ∪ ancestor_qids σ) σ)) as Add.
  { intros CF σ (C & I & T). split; [exact C|]. split; [|exact T]. cbn.
    intros x [[->%elem_of_singleton|Ix]%elem_of_union|Ix]%elem_of_union;
      [exact CF|apply I, elem_of_union; auto..]. }
  unfold gather_ancestors_include. destruct (depth =? 0) eqn:D.
  - apply Nat.eqb_eq in D. subst depth. cbn in Rc. subst raw.
    rewrite Nr in N. injection N as <-.
    apply triple_when. intros ->. apply triple_modify. apply Add.
    left. split; [reflexivity|apply Inc; reflexivity].
  - apply Nat.eqb_neq in D. apply triple_lift_bind; [auto|]. intros alive A.
    apply triple_when. intros ->. apply triple_modify. apply Add.
    right. left. split; [exists person; split; assumption|].
    exists depth, raw. split; [lia|]. split; assumption.
Qed.

Lemma gather_ancestors_sound (inc : bool) (fuel : nat) :
  normalize_qid root = Ok root → (inc = true → root_included cfg root) →
  ∀ raw depth, depth ≤ max_ancestor_depth cfg → reach parent_link depth root raw →
  triple sound (gather_ancestors cfg inc fuel raw depth) (λ _, sound) sound.
Proof.
  intros Nr Inc. induction fuel as [|fuel IH]; intros raw depth Hd Rc;
    cbn [gather_ancestors].
  { intros σ S. exact S. }
  apply triple_lift_bind; [auto|]. intros q N. apply triple_gets_bind. intros visited.
  apply (triple_pre _ _ sound); [|intros σ [S _]; exact S].
  destruct (bool_decide (q ∈ visited)); [apply triple_ret; auto|].
  eapply (triple_bind _ _ _ (λ _, sound)); [apply triple_modify; intros σ S; exact S|].
  intros [].
  eapply triple_bind; [apply get_person_sound|]. intros person.
  apply triple_pure. intros (q' & N' & F & _).
  rewrite (normalize_qid_idempotent _ _ N) in N'. injection N' as <-.
  eapply triple_bind;
    [apply (gather_ancestors_include_sound inc person raw q depth); assumption|].
  intros []. destruct (max_ancestor_depth cfg <=? depth) eqn:M; [apply triple_ret; auto|].
  apply Nat.leb_gt in M.
  assert (∀ par, par ∈ parents person → reach parent_link (depth + 1) root par) as Up.
  { intros par I. rewrite Nat.add_1_r. cbn [reach]. exists raw. split; [exact Rc|].
    exists q, person. split; [exact N|]. split; [exact F|exact I]. }
  eapply triple_bind.
  - apply triple_when. intros T. apply IH; [lia|]. apply Up. unfold parents. rewrite T.
    apply elem_of_app. left. apply list_elem_of_here.
  - intros []. apply triple_when. intros T. apply IH; [lia|]. apply Up. unfold parents.
    rewrite T. apply elem_of_app. right. apply list_elem_of_here.
Qed.

Lemma gather_descendants_alive_sound (n : nat) :
  root_included cfg root →
  ∀ raw k, k + n ≤ max_descendant_depth cfg → reach child_link k root raw →
  triple sound (gather_descendants_alive cfg raw n) (λ _, sound) sound.
Proof.
  intros Inc. induction n as [|n IH]; intros raw k Hk Rc; cbn [gather_descendants_alive].
  { apply triple_ret. auto. }
  eapply (triple_bind _ _ _ (λ _, sound)); [apply triple_modify; intros σ S; exact S|].
  intros [].
  apply triple_lift_bind; [auto|]. intros children FC.
  apply triple_for_each. intros c Ic.
  eapply triple_bind; [apply get_person_sound|]. intros child.
  apply triple_pure. intros (q & N & F & Q).
  assert (q = c) as ->.
  { pose proof (fetch_children_valid _ _ FC) as V. rewrite Forall_forall in V.
    rewrite (fullmatch_qid_normal c (V c Ic)) in N. injection N as <-. reflexivity. }
  apply triple_lift_bind; [auto|]. intros alive A.
  destruct alive; cbn [negb]; [|apply triple_ret; auto].
  apply triple_gets_bind. intros desc.
  apply (triple_pre _ _ sound); [|intros σ [S _]; exact S].
  destruct (bool_decide (qid child ∈ desc)); [apply triple_ret; auto|].
  assert (reach child_link (S k) root (qid child)) as Rc'.
  { cbn [reach]. exists raw. split; [exact Rc|]. exists children. rewrite Q.
    split; [exact FC|exact Ic]. }
  eapply (triple_bind _ _ _ (λ _, sound));
    [|intros []; apply (IH (qid child) (S k)); [lia|exact Rc']].
  apply triple_modify. intros σ (C & I & T). split; [exact C|]. split; [|exact T]. cbn.
  intros x [Ix|[->%elem_of_singleton|Ix]%elem_of_union]%elem_of_union;
    [apply I, elem_of_union; auto| |apply I, elem_of_union; auto].
  right. right. split; [exact Inc|]. split.
  - exists child. rewrite Q. split; assumption.
  - exists (S k). split; [lia|exact Rc'].
Qed.

Lemma ensure_fathers_sound (n : nat) (frontier : gset string) :
  n ≤ ensure_fathers_depth cfg →
  triple (λ σ, (sound σ ∧ ∀ x, x ∈ all_qids σ → collected_from cfg root x)
               ∧ all_qids σ = frontier)
    (ensure_fathers n frontier) (λ _, sound) sound.
Proof.
  intros Hn σ [[(C & I & T) B] <-].
  set (f := λ σ : State, (ancestor_qids σ, descendant_qids σ)).
  pose proof (ensure_fathers_preserves (same f)
    (λ raw, get_person_same f raw ltac:(intros ? ?; reflexivity)) n (all_qids σ)
    ltac:(intros ? ?; reflexivity) σ) as Fr.
  destruct (ensure_fathers n (all_qids σ) σ) as [r σ'] eqn:G. cbn [fst snd] in Fr |- *.
  destruct (ensure_fathers_spec (all_qids σ) n 0 (all_qids σ) σ σ' r G C)
    as (C' & _ & Snd & _).
  - reflexivity.
  - intros x Ix. exists x. split; [exact Ix|reflexivity].
  - intros x Ix. exists 0, x. split; [lia|]. split; [exact Ix|reflexivity].
  - intros x y Ix Nx. contradiction.
  - intros k q x Hk Iq P. assert (k = 0) as -> by lia. cbn in P. subst x. exact Iq.
  - assert (sound σ') as S'.
    { injection Fr as Ea Ed. split; [exact C'|]. rewrite Ea, Ed. split; [exact I|].
      intros x Ix. destruct (Snd x Ix) as (k & q & Hk & Iq & P). exists k, q.
      split; [cbn in Hk; lia|]. split; [apply B, Iq|exact P]. }
    destruct r; exact S'.
Qed.

Lemma collect_sound (inc : bool) :
  normalize_qid root = Ok root → (inc = true → root_included cfg root) →
  triple sound (collect cfg inc root) (λ _, sound) sound.
Proof.
  intros Nr Inc. unfold collect.
  eapply triple_bind; [apply gather_ancestors_sound; [assumption..|lia|reflexivity]|].
  intros []. eapply triple_bind.
  { apply triple_when. intros ->.
    apply (gather_descendants_alive_sound _ (Inc eq_refl) root 0); [lia|reflexivity]. }
  intros [].
  eapply (triple_bind _ _ _
            (λ _ σ, sound σ ∧ ∀ x, x ∈ all_qids σ → collected_from cfg root x)).
  { apply triple_modify. intros σ (C & I & T).
    assert (∀ x, x ∈ ancestor_qids σ ∪ descendant_qids σ → collected_from cfg root x) as B
      by exact I.
    split; [|exact B]. split; [exact C|]. split; [exact I|]. cbn.
    intros x Ix. exists 0, x. split; [lia|]. split; [apply B, Ix|reflexivity]. }
  intros []. eapply (triple_bind _ _ _ (λ _, sound));
    [|intros []; apply triple_modify; intros σ S; exact S].
  destruct (0 <? ensure_fathers_depth cfg); cbn [when];
    [|apply triple_ret; intros σ [S _]; exact S].
  apply triple_gets_bind. intros frontier.
  eapply triple_conseq; [apply (ensure_fathers_sound _ frontier); reflexivity|auto..].
Qed.

Lemma emit_all_preserves (R : relation State) `{!PreOrder R} (inc : bool) (fuel : nat)
    (q : string) :
  (∀ raw, preserves R (get_person raw)) →
  stable R set_qid_to_char_id → stable R set_used_char_ids →
  stable R set_stdout → stable R set_emitted →
  preserves R (emit_all cfg inc fuel q).
Proof.
  intros G S1 S2 S3 S4. unfold emit_all.
  destruct inc; preserves_auto; apply emit_parents_first_preserves; assumption.
Qed.

Lemma run_sound (fuel : nat) :
  normalize_qid root = Ok root →
  triple sound
    (root_person ← get_person root;
     root_alive_on_cutoff ← lift (is_alive_on root_person CUTOFF_DATE false);
     run_from_root cfg (include_root_if_not_alive cfg || root_alive_on_cutoff) fuel root)
    (λ _, sound) sound.
Proof.
  intros Nr. eapply triple_bind; [apply get_person_sound|]. intros p.
  apply triple_pure. intros (q & N & F & _). rewrite Nr in N. injection N as <-.
  apply triple_lift_bind; [auto|]. intros alive A. unfold run_from_root.
  eapply triple_bind.
  - apply collect_sound; [exact Nr|]. intros [I| ->]%orb_true_iff; [left; exact I|].
    right. exists p. split; assumption.
  - intros []. apply inclusion_sound_frame.
    + apply emit_all_preserves; [apply _|exact get_person_keeps_cache_ok
                                |intros ? ? C; exact C..].
    + apply emit_all_preserves; [apply _|intros raw; apply get_person_same|..];
        intros ? ?; reflexivity.
Qed.

End inclusion.

Section inclusion_of_runs.
Context `{Externals} (cfg : Config).

(** X17. Every member of the inclusion set a run ends with is reached by at
    most [ensure_fathers_depth] father links from a person the collectors
    let in: the root when it passes the root-inclusion decision, an
    ancestor within [max_ancestor_depth] parent links that is alive on the
    cutoff date with a known birth, or, when the root is included, a
    descendant within [max_descendant_depth] child links that passes the
    liveness filter. *)
Theorem inclusion_set_sound (fuel : nat) (raw_root : string) :
  let run := emit_person_with_ancestors_and_descendants cfg fuel raw_root init_state in
  ∀ x, x ∈ all_qids run.2 →
    ∃ root k q, normalize_qid raw_root = Ok root ∧ k ≤ ensure_fathers_depth cfg
                ∧ collected_from cfg root q ∧ reach father_link k q x.
Proof.
  intros run. subst run. unfold emit_person_with_ancestors_and_descendants.
  rewrite run_bind, run_lift.
  destruct (normalize_qid raw_root) as [root|e|] eqn:N; [|intros x []%elem_of_empty..].
  pose proof (run_sound cfg root fuel (normalize_qid_idempotent _ _ N) init_state) as T.
  cbv zeta.
  match type of T with _ → match (?m _).1 with _ => _ end => set (rest := m) in * end.
  assert (inclusion_sound cfg root (rest init_state).2) as (_ & _ & S).
  { assert (inclusion_sound cfg root init_state) as S0.
    { split; [exact cache_ok_init|]. split; intros x Ix.
      - apply elem_of_union in Ix as [Ix|Ix]; apply elem_of_empty in Ix; destruct Ix.
      - apply elem_of_empty in Ix. destruct Ix. }
    specialize (T S0). destruct (rest init_state).1; exact T. }
  intros x Ix. destruct (S x Ix) as (k & q & Hk & CF & P). exists root, k, q. auto.
Qed.

End inclusion_of_runs.

Lemma inclusion_set_sound_witness :
  ∃ root k q, normalize_qid "Q1" = Ok root ∧ k ≤ ensure_fathers_depth Demo.defaults
              ∧ @collected_from Demo.dangling Demo.defaults root q
              ∧ reach (@father_link Demo.dangling) k q "Q2".
Proof.
  apply (@inclusion_set_sound Demo.dangling Demo.defaults 5 "Q1" "Q2").
  vm_compute. reflexivity.
Defined.

Lemma triple_gets_known {A B} (f : State → A) (k : A → M B) (P : State → Prop)
    (Q : B → State → Prop) (E : State → Prop) :
  (∀ a, (∃ σ, P σ ∧ f σ = a) → triple P (k a) Q E) → triple P (gets f ≫= k) Q E.
Proof. intros Go σ Pσ. rewrite run_bind. cbn [gets]. apply (Go (f σ)); eauto. Qed.

Lemma triple_any {A} (m : M A) (P : State → Prop) : triple P m (λ _ _, True) (λ _, True).
Proof. intros σ _. destruct (m σ).1; exact I. Qed.

(** ** What the emitter prints *)

Section printed_people.
Context `{Externals} (cfg : Config).

Lemma printed_within_frame {A} (K : gset string) (m : M A) :
  preserves keeps_cache_ok m → preserves (same emitter_view) m →
  triple (printed_within K) m (λ _, printed_within K) (printed_within K).
Proof.
  intros Kc S σ (C & A' & P). specialize (Kc σ C). specialize (S σ).
  assert (printed_within K (m σ).2) as W.
  { injection S as Eo Ea. split; [exact Kc|]. rewrite Eo, Ea. split; assumption. }
  destruct (m σ).1; exact W.
Qed.

Lemma get_person_within (K : gset string) (raw : string) :
  triple (printed_within K) (get_person raw)
    (λ p σ, printed_within K σ
            ∧ ∃ q, normalize_qid raw = Ok q ∧ fetch_person q = Ok p ∧ qid p = q)
    (printed_within K).
Proof.
  intros σ S. pose proof (printed_within_frame K (get_person raw)
    (get_person_keeps_cache_ok raw)
    (get_person_same emitter_view raw ltac:(intros ? ?; reflexivity)) σ S) as T.
  destruct (get_person raw σ) as [r σ'] eqn:G. cbn [fst snd] in T |- *.
  destruct r as [p|e|]; [|exact T..]. split; [exact T|].
  apply (get_person_fetched raw σ σ' p (proj1 S) G).
Qed.

Lemma print_entry_within (K : gset string) (person : Person) (q : string)
    (all : gset string) :
  (∃ raw, raw ∈ K ∧ normalize_qid raw = Ok (qid person)) →
  triple (printed_within K) (print_entry cfg person q all) (λ _, printed_within K)
    (printed_within K).
Proof.
  intros In. unfold print_entry. apply triple_gets_bind. intros done.
  apply (triple_pre _ _ (printed_within K)); [|intros σ [S _]; exact S].
  eapply (triple_bind _ _ _ (λ _, printed_within K)).
  { apply triple_when. intros _. apply triple_modify. intros σ (C & A & P).
    split; [exact C|]. split; [exact A|]. cbn [stdout set_stdout].
    rewrite printed_qids_app. change (printed_qids [Blank]) with (@nil string).
    rewrite app_nil_r. exact P. }
  intros []. eapply (triple_bind _ _ _ (λ _, printed_within K)).
  { apply printed_within_frame.
    - apply id_for_qid_preserves; [apply _|exact get_person_keeps_cache_ok
                                  |intros ? ? C; exact C..].
    - apply id_for_qid_preserves; [apply _|intros raw; apply get_person_same|..];
        intros ? ?; reflexivity. }
  intros char_id. eapply (triple_bind _ _ _ (λ _, printed_within K)).
  { apply printed_within_frame.
    - apply render_character_entry_preserves; [apply _|exact get_person_keeps_cache_ok
                                               |intros ? ? C; exact C..].
    - apply render_character_entry_preserves; [apply _|intros raw; apply get_person_same|..];
        intros ? ?; reflexivity. }
  intros lines. eapply (triple_bind _ _ _ (λ _, printed_within K)).
  { apply triple_modify. intros σ (C & A & P).
    split; [exact C|]. split; [exact A|]. cbn [stdout set_stdout].
    rewrite printed_qids_app, printed_qids_block.
    intros x [Ix| ->%list_elem_of_singleton]%elem_of_app; [apply P, Ix|exact In]. }
  intros []. apply triple_modify. intros σ S. exact S.
Qed.

Lemma emit_parents_first_within (K : gset string) (fuel : nat) :
  ∀ raw, raw ∈ K →
  triple (printed_within K) (emit_parents_first cfg fuel raw) (λ _, printed_within K)
    (printed_within K).
Proof.
  induction fuel as [|fuel IH]; intros raw Ir; cbn [emit_parents_first].
  { intros σ S. exact S. }
  apply triple_lift_bind; [auto|]. intros q N. apply triple_gets_bind. intros done.
  apply (triple_pre _ _ (printed_within K)); [|intros σ [S _]; exact S].
  destruct (bool_decide (q ∈ done)); [apply triple_ret; auto|].
  eapply triple_bind; [apply get_person_within|]. intros person.
  apply triple_pure. intros (q' & N' & _ & Q).
  rewrite (normalize_qid_idempotent _ _ N) in N'. injection N' as <-.
  apply triple_gets_known. intros all (σ & (_ & <- & _) & <-).
  eapply triple_bind.
  { apply triple_when. intros [_ I%bool_decide_eq_true]%andb_true_iff. apply IH, I. }
  intros []. eapply triple_bind.
  { apply triple_when. intros [_ I%bool_decide_eq_true]%andb_true_iff. apply IH, I. }
  intros []. apply print_entry_within. exists raw. rewrite Q. split; assumption.
Qed.

(** The ancestor set only grows. *)
Lemma gather_ancestors_grows (inc : bool) (x : string) (fuel : nat) :
  ∀ raw depth,
  triple (λ σ, x ∈ ancestor_qids σ) (gather_ancestors cfg inc fuel raw depth)
    (λ _ σ, x ∈ ancestor_qids σ) (λ _, True).
Proof.
  induction fuel as [|fuel IH]; intros raw depth; cbn [gather_ancestors].
  { intros σ _. exact I. }
  apply triple_lift_bind; [auto|]. intros q N. apply triple_gets_bind. intros visited.
  apply (triple_pre _ _ (λ σ, x ∈ ancestor_qids σ)); [|intros σ [S _]; exact S].
  destruct (bool_decide (q ∈ visited)); [apply triple_ret; auto|].
  eapply (triple_bind _ _ _ (λ _ σ, x ∈ ancestor_qids σ));
    [apply triple_modify; intros σ S; exact S|].
  intros []. eapply (triple_bind _ _ _ (λ _ σ, x ∈ ancestor_qids σ)).
  { eapply triple_conseq; [apply (triple_frame ancestor_qids (get_person q)
                                    (λ σ, x ∈ ancestor_qids σ))|auto..].
    - apply get_person_same. intros ? ?. reflexivity.
    - intros σ σ' E. rewrite E. auto. }
  intros person. eapply (triple_bind _ _ _ (λ _ σ, x ∈ ancestor_qids σ)).
  { intros σ S. destruct (gather_ancestors_include_run inc person q depth σ) as [X E].
    unfold gather_ancestors_include in *. destruct (depth =? 0).
    - destruct inc; cbn; [apply elem_of_union; right; exact S|exact S].
    - rewrite run_bind, run_lift.
      destruct (is_alive_on person CUTOFF_DATE true) as [[]| |]; cbn;
        [apply elem_of_union; right; exact S|exact S|exact I..]. }
  intros []. destruct (max_ancestor_depth cfg <=? depth); [apply triple_ret; auto|].
  eapply triple_bind; [apply triple_when; intros _; apply IH|].
  intros []. apply triple_when. intros _. apply IH.
Qed.

(** The first expansion puts an included root into the ancestor set. *)
Lemma gather_ancestors_root (inc : bool) (root : string) (fuel : nat) :
  normalize_qid root = Ok root →
  triple (λ σ, visited_ancestors σ = ∅) (gather_ancestors cfg inc (S fuel) root 0)
    (λ _ σ, inc = true → root ∈ ancestor_qids σ) (λ _, True).
Proof.
  intros Nr.
  destruct inc;
    [|eapply triple_conseq;
      [apply (triple_any _ (λ _, True))|intros ? _; exact I|intros ? ? _ [=]|auto]].
  cbn [gather_ancestors]. apply triple_lift_bind; [auto|]. intros q N.
  rewrite Nr in N. injection N as <-.
  apply triple_gets_known. intros visited (σ & V & <-). rewrite V.
  rewrite bool_decide_eq_false_2 by apply not_elem_of_empty.
  eapply triple_bind; [apply triple_any|]. intros [].
  eapply triple_bind; [apply triple_any|]. intros person.
  eapply (triple_bind _ _ _ (λ _ σ, root ∈ ancestor_qids σ)).
  { intros σ' _. cbn. apply elem_of_union. left. apply elem_of_singleton. reflexivity. }
  intros [].
  apply (triple_conseq _ _ (λ σ, root ∈ ancestor_qids σ) _ (λ _ σ, root ∈ ancestor_qids σ)
           _ (λ _, True)); [|auto|intros a σ' S _; exact S|auto].
  destruct (max_ancestor_depth cfg <=? 0); [apply triple_ret; auto|].
  eapply triple_bind; [apply triple_when; intros _; apply gather_ancestors_grows|].
  intros []. apply triple_when. intros _. apply gather_ancestors_grows.
Qed.

Lemma starts_collected_frame {A} (inc : bool) (root : string) (m : M A) :
  preserves (same collected) m →
  triple (starts_collected inc root) m (λ _, starts_collected inc root)
    (starts_collected inc root).
Proof.
  intros S. apply (triple_frame collected); [exact S|].
  intros σ σ' [= Ea Ed Eq]. unfold starts_collected. rewrite Ea, Ed, Eq. auto.
Qed.

Lemma ensure_fathers_round_starts (inc : bool) (root : string) (l : list string) :
  ∀ nf, triple (starts_collected inc root) (ensure_fathers_round l nf)
          (λ _, starts_collected inc root) (starts_collected inc root).
Proof.
  induction l as [|q l IH]; intros nf; cbn [ensure_fathers_round]; [apply triple_ret; auto|].
  eapply triple_bind.
  { apply starts_collected_frame, get_person_same. intros ? ?. reflexivity. }
  intros person. apply triple_gets_bind. intros all.
  apply (triple_pre _ _ (starts_collected inc root)); [|intros σ [S _]; exact S].
  destruct (_ && _); [|apply IH]. cbv zeta.
  eapply (triple_bind _ _ _ (λ _, starts_collected inc root)); [|intros []; apply IH].
  apply triple_modify. intros σ [Sub R]. split; [|exact R]. cbn.
  etransitivity; [exact Sub|apply union_subseteq_r].
Qed.

Lemma ensure_fathers_starts (inc : bool) (root : string) (n : nat) :
  ∀ frontier, triple (starts_collected inc root) (ensure_fathers n frontier)
                (λ _, starts_collected inc root) (starts_collected inc root).
Proof.
  induction n as [|n IH]; intros frontier; cbn [ensure_fathers]; [apply triple_ret; auto|].
  eapply triple_bind; [apply ensure_fathers_round_starts|]. intros nf.
  destruct (bool_decide (nf = ∅)); [apply triple_ret; auto|apply IH].
Qed.

Lemma collect_starts (inc : bool) (root : string) :
  normalize_qid root = Ok root →
  triple (λ σ, visited_ancestors σ = ∅) (collect cfg inc root)
    (λ _, starts_collected inc root) (λ _, True).
Proof.
  intros Nr. unfold collect.
  eapply triple_bind; [apply gather_ancestors_root, Nr|]. intros [].
  eapply (triple_bind _ _ _ (λ _ σ, inc = true → root ∈ ancestor_qids σ)).
  { apply triple_when. intros _.
    eapply triple_conseq; [apply (triple_frame ancestor_qids _
                                    (λ σ, inc = true → root ∈ ancestor_qids σ))|auto..].
    - apply gather_descendants_alive_preserves; try apply _;
        [intros raw; apply get_person_same|..]; intros ? ?; reflexivity.
    - intros σ σ' E. rewrite E. auto. }
  intros []. eapply (triple_bind _ _ _ (λ _, starts_collected inc root)).
  { apply triple_modify. intros σ R. split; [reflexivity|exact R]. }
  intros [].
  apply (triple_conseq _ _ (starts_collected inc root) _ (λ _, starts_collected inc root)
           _ (starts_collected inc root)); [|auto|auto|intros ? _; exact I].
  eapply (triple_bind _ _ _ (λ _, starts_collected inc root));
    [|intros []; apply triple_modify; intros σ S; exact S].
  apply triple_when. intros _. apply triple_gets_bind. intros frontier.
  apply (triple_pre _ _ (starts_collected inc root)); [|intros σ [S _]; exact S].
  apply ensure_fathers_starts.
Qed.

(** X18. Every person a run prints is the person of a member of the
    inclusion set the run ends with: the identifier of each printed block
    is the normal form of a member. *)
Theorem printed_within_inclusion_set (fuel : nat) (raw_root : string) :
  let run := emit_person_with_ancestors_and_descendants cfg fuel raw_root init_state in
  ∀ x, x ∈ printed_qids (stdout run.2) →
    ∃ raw, raw ∈ all_qids run.2 ∧ normalize_qid raw = Ok x.
Proof.
  intros run. subst run. unfold emit_person_with_ancestors_and_descendants.
  rewrite run_bind, run_lift.
  destruct (normalize_qid raw_root) as [q|e|] eqn:N; [|intros x []%elem_of_nil..].
  rewrite run_bind. destruct (get_person q init_state) as [rp σ1] eqn:GP.
  destruct (get_person_inv _ _ _ _ GP) as (_ & (c & -> & _) & C1 & _).
  specialize (C1 cache_ok_init).
  destruct rp as [p|e|]; [|intros x []%elem_of_nil..].
  rewrite run_bind, run_lift.
  destruct (is_alive_on_total p CUTOFF_DATE false) as [a ->]. cbv zeta.
  set (inc := include_root_if_not_alive cfg || a).
  unfold run_from_root. rewrite run_bind.
  pose proof (collect_starts inc q (normalize_qid_idempotent _ _ N)
                (set_person_cache c init_state) eq_refl) as St.
  destruct (collect cfg inc q _) as [rc σc] eqn:GC. cbn [fst snd] in St.
  destruct (collect_inv _ _ _ _ _ _ GC) as (O & C & _). specialize (C C1). cbn in O.
  destruct rc as [[]|e|]; [|cbn; rewrite O; intros x []%elem_of_nil..].
  rewrite emit_all_run.
  pose proof (triple_for_each (emit_starts inc q σc) (emit_parents_first cfg fuel)
                (printed_within (all_qids σc)) (printed_within (all_qids σc))) as T.
  assert (printed_within (all_qids σc) (for_each (emit_starts inc q σc)
                                          (emit_parents_first cfg fuel) σc).2)
    as (_ & A & P).
  { assert (printed_within (all_qids σc) σc) as S0.
    { split; [exact C|]. split; [reflexivity|]. rewrite O. intros x []%elem_of_nil. }
    assert (∀ x, x ∈ emit_starts inc q σc → x ∈ all_qids σc) as In.
    { intros x Ix. destruct St as [Sub R]. unfold emit_starts in Ix. destruct inc.
      - apply elem_of_cons in Ix as [-> |Ix%elem_of_sorted];
          apply Sub, elem_of_union; [left; apply R; reflexivity|right; exact Ix].
      - apply elem_of_sorted in Ix. apply Sub, elem_of_union. left. exact Ix. }
    specialize (T (λ x Ix, emit_parents_first_within (all_qids σc) fuel x (In x Ix)) σc S0).
    destruct (for_each _ _ σc).1; exact T. }
  rewrite A. exact P.
Qed.

End printed_people.

Lemma printed_within_inclusion_set_witness :
  ∃ raw, raw ∈ all_qids (Demo.run Demo.chain 5 "Q3").2 ∧ normalize_qid raw = Ok "Q2".
Proof.
  apply (@printed_within_inclusion_set Demo.chain Demo.defaults 5 "Q3" "Q2").
  vm_compute. apply list_elem_of_further, list_elem_of_here.
Defined.

(** ** The dates of a block *)

Lemma omap_opt_line (f : line → option string) (mk : string → line) (o : option string) :
  omap f (opt_line mk o)
  = match o with
    | Some s => if PyStr.is_empty s then [] else option_list (f (mk s))
    | None => []
    end.
Proof.
  destruct o as [s|]; [|reflexivity]. unfold opt_line.
  destruct (PyStr.is_empty s); [reflexivity|]. cbn. destruct (f (mk s)); reflexivity.
Qed.

Section rendered_dates.
Context `{Externals} (cfg : Config).

Lemma iso_to_eu_date_parsed (s : option string) (t : string) :
  iso_to_eu_date s = Ok (Some t) →
  PyStr.is_empty t = false ∧ ∃ dt, parse_iso_date s = Ok (Some dt).
Proof.
  destruct s as [str|]; [|discriminate]. unfold parse_iso_date, iso_to_eu_date.
  destruct (PyStr.is_empty str); [discriminate|].
  destruct (strptime_Ymd _) as [dt|e]; cbn [call]; [|discriminate].
  destruct (year dt <=? 0)%Z; [discriminate|]. intros [= <-]. split; [|eauto].
  destruct (pretty (year dt)); reflexivity.
Qed.

(** The lines that [render_character_entry] adds after the dynasty line
    are no date lines. *)
Lemma ref_line_dates (b : bool) (raw : string) (mk : string → line) (L ls : list line)
    (σ σ' : State) :
  (∀ x, birth_dates [mk x] = [] ∧ death_dates [mk x] = []) →
  (if b then id_for_qid cfg raw ≫= λ x, mret (L ++ [mk x]) else mret L) σ = (Ok ls, σ') →
  birth_dates ls = birth_dates L ∧ death_dates ls = death_dates L.
Proof.
  intros Mk G. destruct (ref_line_inv _ _ _ _ _ _ _ _ G) as (_ & _ & P).
  destruct (P ls eq_refl) as [[_ ->]|[_ (x & q & -> & _)]]; [split; reflexivity|].
  unfold birth_dates, death_dates in *. rewrite !omap_app.
  destruct (Mk x) as [-> ->]. rewrite !app_nil_r. split; reflexivity.
Qed.

(** X19. A block has a [birth_date] line exactly when the birth date
    parses, and a [death_date] line exactly when the death date parses and
    is not after the cutoff date; each at most once, with the text of
    [iso_to_eu_date]. A person alive on the cutoff date gets no
    [death_date] line. *)
Theorem block_dates (person : Person) (cid : string) (refs : bool)
    (known : option (gset string)) (σ σ' : State) (ls : list line) :
  render_character_entry cfg person cid refs known σ = (Ok ls, σ') →
  birth_dates ls
  = match iso_to_eu_date (birth person) with Ok (Some b) => [b] | _ => [] end
  ∧ death_dates ls
    = match iso_to_eu_date (death person), parse_iso_date (death person) with
      | Ok (Some d), Ok (Some dt) => if date_leb dt CUTOFF_DATE then [d] else []
      | _, _ => []
      end
  ∧ (∀ rb, is_alive_on person CUTOFF_DATE rb = Ok true → death_dates ls = []).
Proof.
  intros G.
  destruct (iso_to_eu_date_total (birth person)) as [eb Eb].
  destruct (iso_to_eu_date_total (death person)) as [ed Ed].
  destruct (parse_iso_date_total (death person)) as [dd Dd].
  assert (birth_dates ls = match eb with Some b => [b] | None => [] end
          ∧ death_dates ls
            = match ed, dd with
              | Some d, Some dt => if date_leb dt CUTOFF_DATE then [d] else []
              | _, _ => []
              end) as [B D].
  { unfold render_character_entry in G. cbv zeta in G.
    rewrite run_bind, run_lift, Eb in G. rewrite run_bind, run_lift, Ed in G.
    rewrite run_bind, run_lift, Dd in G.
    match type of G with
    | context [if truthy (father_qid person) then _ else mret ?l] => set (L := l) in G
    end.
    assert (birth_dates L = match eb with Some b => [b] | None => [] end
            ∧ death_dates L
              = match ed, dd with
                | Some d, Some dt => if date_leb dt CUTOFF_DATE then [d] else []
                | _, _ => []
                end) as [BL DL].
    { assert (∀ t, eb = Some t → PyStr.is_empty t = false) as Nb.
      { intros t ->. apply (iso_to_eu_date_parsed _ _ Eb). }
      assert (∀ t, ed = Some t → PyStr.is_empty t = false) as Nd.
      { intros t ->. apply (iso_to_eu_date_parsed _ _ Ed). }
      subst L. unfold birth_dates, death_dates.
      destruct eb as [[|cb b]|]; [discriminate (Nb "" eq_refl)| |];
        (destruct ed as [[|cd d]|]; [discriminate (Nd "" eq_refl)| |]);
        (destruct dd as [dt|]; [destruct (date_leb dt CUTOFF_DATE)|]);
        cbn [truthy andb negb PyStr.is_empty opt_line];
        destruct (truthy (birth_location cfg));
        rewrite ?omap_app, ?omap_opt_line; cbn [omap option_list app];
        repeat case_match; split; reflexivity. }
    clearbody L. rewrite run_bind in G.
    assert (∀ l, birth_dates (l ++ opt_line LTag (tag cfg) ++ [LClose]) = birth_dates l
                 ∧ death_dates (l ++ opt_line LTag (tag cfg) ++ [LClose]) = death_dates l)
      as Tail.
    { intros l. unfold birth_dates, death_dates. rewrite !omap_app, !omap_opt_line.
      destruct (tag cfg) as [t|]; [destruct (PyStr.is_empty t)|]; cbn;
        rewrite !app_nil_r; split; reflexivity. }
    destruct refs.
    - rewrite run_bind in G.
      match type of G with
      | context [(if truthy (father_qid person) then ?a else ?b) σ] =>
          destruct ((if truthy (father_qid person) then a else b) σ) as [r1 σ1] eqn:G1
      end.
      destruct r1 as [lines1|e|]; [|discriminate G..].
      destruct (ref_line_dates _ _ LFather _ _ _ _ ltac:(intros; split; reflexivity) G1)
        as [B1 D1].
      match type of G with
      | context [(if ?c then ?a else ?b) σ1] =>
          destruct ((if c then a else b) σ1) as [r2 σ2] eqn:G2
      end.
      destruct r2 as [lines2|e|]; [|discriminate G..].
      destruct (ref_line_dates _ _ LMother _ _ _ _ ltac:(intros; split; reflexivity) G2)
        as [B2 D2].
      injection G as <- <-. rewrite <- app_assoc. destruct (Tail lines2) as [-> ->].
      rewrite B2, D2, B1, D1. split; assumption.
    - injection G as <- <-. rewrite <- app_assoc. destruct (Tail L) as [-> ->].
      split; assumption. }
  rewrite Eb, Ed, Dd. split; [exact B|]. split; [exact D|].
  intros rb A. rewrite D.
  destruct (parse_iso_date_total (birth person)) as [bb Bb].
  rewrite (is_alive_on_unfold _ _ _ _ _ Bb Dd) in A. injection A as A.
  apply andb_true_iff in A as [_ A]. apply negb_true_iff in A.
  destruct ed as [d|]; [|reflexivity]. destruct dd as [dt|]; [|reflexivity].
  rewrite A. reflexivity.
Qed.

End rendered_dates.

Lemma block_dates_witness :
  let p := Demo.born "1400-01-01" (Some "1440-01-01") in
  let ls := match (@render_character_entry Demo.chain Demo.defaults p "wd_q1" false None
                     init_state).1 with
            | Ok ls => ls
            | _ => []
            end in
  birth_dates ls
  = match @iso_to_eu_date Demo.chain (birth p) with Ok (Some b) => [b] | _ => [] end
  ∧ death_dates ls
    = match @iso_to_eu_date Demo.chain (death p), @parse_iso_date Demo.chain (death p) with
      | Ok (Some d), Ok (Some dt) => if date_leb dt CUTOFF_DATE then [d] else []
      | _, _ => []
      end
  ∧ (∀ rb, @is_alive_on Demo.chain p CUTOFF_DATE rb = Ok true → death_dates ls = []).
Proof.
  intros p ls.
  apply (@block_dates Demo.chain Demo.defaults p "wd_q1" false None init_state init_state).
  vm_compute. reflexivity.
Defined.
